(** * Finsight / irrigation.cpp: segment against convex hull

    A shallow embedding of [src/irrigation.cpp] and the verification of its
    specification.

    Modelling conventions.
    - [long long] and [int] values are integers of [Z].  Signed overflow is
      undefined in C++, so the program has a meaning only under the
      coordinate bound the specification demands; section "64-bit
      arithmetic" shows that for coordinates within [10^9] the products of
      [cross_product] and [dot], evaluated with 64-bit wrap-around, are the
      unbounded ones.
    - A [vector<Point>] is a [list Point]; [v[i]] is [vec_at v i], which is
      [None] outside the vector, so that a function returning [Some _] made
      no access out of range.
    - [while] loops take a fuel argument and return [None] when it runs out;
      the totality lemmas show that the fuel given always suffices.
    - [std::sort] is a parameter [sort] constrained by [sort_spec]; the
      angular sort of [run_h], whose comparator is in floating point, is a
      parameter [angular] constrained by [angular_spec]; [rand()] is a
      stream [rand : nat -> Z]. *)

From Stdlib Require Import ZArith List Lia Bool Permutation Sorted Reals Lra Psatz.
Import ListNotations.
Open Scope Z_scope.

(** * Part I.  The program *)

(** ** Geometric primitives *)

Record Point : Type := mkPoint { x : Z; y : Z; id : Z }.

(** [operator-] *)
Definition point_sub (a b : Point) : Point :=
  mkPoint (x a - x b) (y a - y b) 0.

(** [operator==] *)
Definition point_eqb (a b : Point) : bool :=
  (x a =? x b) && (y a =? y b).

(** [cross_product(Point a, Point b)] *)
Definition cross_product2 (a b : Point) : Z := x a * y b - y a * x b.

(** [cross_product(Point o, Point a, Point b)] *)
Definition cross_product (o a b : Point) : Z :=
  cross_product2 (point_sub a o) (point_sub b o).

Definition sign (v : Z) : Z :=
  if v <? 0 then -1 else if v >? 0 then 1 else 0.

Definition segments_intersect (a b c d : Point) : bool :=
  if (Z.max (x a) (x b) <? Z.min (x c) (x d)) || (Z.max (x c) (x d) <? Z.min (x a) (x b)) ||
     (Z.max (y a) (y b) <? Z.min (y c) (y d)) || (Z.max (y c) (y d) <? Z.min (y a) (y b))
  then false
  else
    let cp1 := cross_product a b c in
    let cp2 := cross_product a b d in
    let cp3 := cross_product c d a in
    let cp4 := cross_product c d b in
    if (((cp1 >? 0) && (cp2 <? 0)) || ((cp1 <? 0) && (cp2 >? 0)) || (cp1 =? 0) || (cp2 =? 0)) &&
       (((cp3 >? 0) && (cp4 <? 0)) || ((cp3 <? 0) && (cp4 >? 0)) || (cp3 =? 0) || (cp4 =? 0))
    then true
    else false.

(** ** Vectors *)

(** Vector indexing: [None] stands for an access outside the vector. *)
Definition vec_at (v : list Point) (i : Z) : option Point :=
  if i <? 0 then None else nth_error v (Z.to_nat i).

Definition size (v : list Point) : Z := Z.of_nat (length v).

Notation "x <- e ;; k" := (match e with Some x => k | None => None end)
  (at level 61, e at next level, right associativity).

(** ** Convex hull (monotone chain) *)

(** The comparator handed to [std::sort]. *)
Definition point_less (a b : Point) : bool :=
  (x a <? x b) || ((x a =? x b) && (y a <? y b)).

(** The prefix [h[0..k)] of the array [h] is kept as a list with [h[k-1]] at
    its head, so that [k] is its length and [k--] drops the head.
    [while (k >= t && cross_product(h[k-2], h[k-1], p) <= 0) k--;] *)
Fixpoint pop_while (t : nat) (p : Point) (h : list Point) : list Point :=
  match h with
  | b :: ((a :: _) as h') =>
      if (t <=? length h)%nat && (cross_product a b p <=? 0)
      then pop_while t p h' else h
  | _ => h
  end.

(** The body of either loop: pop, then [h[k++] = p]. *)
Definition push_point (t : nat) (h : list Point) (p : Point) : list Point :=
  p :: pop_while t p h.

(** Both loops of [convex_hull] on the sorted vector [s], then
    [h.resize(k - 1)]. *)
Definition hull_of_sorted (s : list Point) : list Point :=
  let h := fold_left (push_point 2) s [] in
  let t := (length h + 1)%nat in
  let h := fold_left (push_point t) (tl (rev s)) h in
  rev (tl h).

(** [convex_hull] takes its argument by reference and sorts it in place: the
    result pairs the vector as the caller finds it afterwards with the
    returned hull. *)
Definition convex_hull (sort : list Point -> list Point) (pts : list Point)
  : list Point * list Point :=
  if (length pts <=? 2)%nat then (pts, pts)
  else let s := sort pts in (s, hull_of_sorted s).

(** ** Point in convex polygon *)

(** [while (l + 1 < r)] of [is_inside]. *)
Fixpoint fan_search (fuel : nat) (poly : list Point) (p p0 : Point) (l r : Z)
  : option (Z * Z) :=
  if l + 1 <? r then
    match fuel with
    | O => None
    | S fuel' =>
        let mid := Z.quot (l + r) 2 in
        pmid <- vec_at poly mid ;;
        if cross_product p0 pmid p >=? 0
        then fan_search fuel' poly p p0 mid r
        else fan_search fuel' poly p p0 l mid
    end
  else Some (l, r).

Definition is_inside (poly : list Point) (p : Point) : option bool :=
  let n := size poly in
  if n =? 0 then Some false else
  if n =? 1 then
    p0 <- vec_at poly 0 ;; Some (point_eqb p p0)
  else if n =? 2 then
    p0 <- vec_at poly 0 ;; p1 <- vec_at poly 1 ;;
    Some ((cross_product p0 p1 p =? 0) &&
          (Z.min (x p0) (x p1) <=? x p) && (x p <=? Z.max (x p0) (x p1)) &&
          (Z.min (y p0) (y p1) <=? y p) && (y p <=? Z.max (y p0) (y p1)))
  else
    p0 <- vec_at poly 0 ;; p1 <- vec_at poly 1 ;;
    if cross_product p0 p1 p <? 0 then Some false else
    plast <- vec_at poly (n - 1) ;;
    if cross_product p0 plast p >? 0 then Some false else
    lr <- fan_search (Z.to_nat n) poly p p0 1 (n - 1) ;;
    pl <- vec_at poly (fst lr) ;; pr <- vec_at poly (snd lr) ;;
    Some (cross_product pl pr p >=? 0).

(** ** Hull-intersection locator *)

Section Locator.
Variables (A B : Point) (poly : list Point).

Let n : Z := size poly.

Definition cp (idx : Z) : option Z :=
  p <- vec_at poly idx ;; Some (cross_product A B p).

(** The value of the lambda [dot] at a vertex. *)
Definition dot_of (p : Point) : Z :=
  let dx := x B - x A in
  let dy := y B - y A in
  - dy * x p + dx * y p.

Definition dot (idx : Z) : option Z :=
  p <- vec_at poly idx ;; Some (dot_of p).

(** [maximize ? (v > w) : (v < w)] *)
Definition better (maximize : bool) (v w : Z) : bool :=
  if maximize then v >? w else v <? w.

(** [for (int i = 0; i < n; i += step)] *)
Fixpoint sample_loop (fuel : nat) (maximize : bool) (step i best best_val : Z)
  : option (Z * Z) :=
  if i <? n then
    match fuel with
    | O => None
    | S fuel' =>
        v <- dot i ;;
        if better maximize v best_val
        then sample_loop fuel' maximize step (i + step) i v
        else sample_loop fuel' maximize step (i + step) best best_val
    end
  else Some (best, best_val).

(** [for (int iter = 0; iter < n; ++iter)]; the result carries the final
    value of [iter] next to the returned index. *)
Fixpoint climb_loop (fuel : nat) (maximize : bool) (iter curr : Z) : option (Z * Z) :=
  if iter <? n then
    match fuel with
    | O => None
    | S fuel' =>
        let next := Z.rem (curr + 1) n in
        let prev := Z.rem (curr - 1 + n) n in
        val_curr <- dot curr ;;
        val_next <- dot next ;;
        val_prev <- dot prev ;;
        if better maximize val_next val_curr
        then climb_loop fuel' maximize (iter + 1) next
        else if better maximize val_prev val_curr
             then climb_loop fuel' maximize (iter + 1) prev
             else Some (curr, iter)
    end
  else Some (curr, iter).

Definition hill_climb_run (maximize : bool) : option (Z * Z) :=
  best_val <- dot 0 ;;
  let step := Z.max 1 (Z.quot n 20) in
  s <- sample_loop (Z.to_nat n) maximize step 0 0 best_val ;;
  climb_loop (Z.to_nat n) maximize 0 (fst s).

Definition hill_climb_extreme (maximize : bool) : option Z :=
  r <- hill_climb_run maximize ;; Some (fst r).

(** One round of [while (L + 1 < R)] in [check_chain]. *)
Definition chain_step (start L R : Z) : option (Z * Z) :=
  let mid := Z.quot (L + R) 2 in
  let idx := Z.rem (start + mid) n in
  ci <- cp idx ;;
  cs <- cp start ;;
  if sign ci =? sign cs then Some (mid, R) else Some (L, mid).

Fixpoint chain_search (fuel : nat) (start L R : Z) : option (Z * Z) :=
  if L + 1 <? R then
    match fuel with
    | O => None
    | S fuel' =>
        LR <- chain_step start L R ;;
        chain_search fuel' start (fst LR) (snd LR)
    end
  else Some (L, R).

Definition check_chain (start end_ : Z) : option (option (Z * Z)) :=
  cs <- cp start ;;
  if cs =? 0 then
    let next := Z.rem (start + 1) n in
    ps <- vec_at poly start ;;
    pn <- vec_at poly next ;;
    if segments_intersect A B ps pn then Some (Some (id ps, id pn))
    else
      let prev := Z.rem (start - 1 + n) n in
      pp <- vec_at poly prev ;;
      if segments_intersect A B pp ps then Some (Some (id pp, id ps))
      else Some None
  else
    let len := Z.rem (end_ - start + n) n in
    ce <- cp end_ ;;
    if sign cs =? sign ce then Some None
    else
      LR <- chain_search (Z.to_nat n) start 0 len ;;
      let L := fst LR in
      let idx1 := Z.rem (start + L) n in
      let idx2 := Z.rem (start + L + 1) n in
      p1 <- vec_at poly idx1 ;;
      p2 <- vec_at poly idx2 ;;
      if segments_intersect A B p1 p2 then Some (Some (id p1, id p2))
      else Some None.

(** Outer [None]: a fault (an index outside the vector, or a loop that
    does not stop).  Inner [None]: the function returns false.
    [Some (r1, r2)]: it returns true after setting [r1] and [r2]. *)
Definition intersect_segment_convex_poly_log : option (option (Z * Z)) :=
  if n <? 2 then Some None
  else if n =? 2 then
    p0 <- vec_at poly 0 ;;
    p1 <- vec_at poly 1 ;;
    if segments_intersect A B p0 p1 then Some (Some (id p0, id p1)) else Some None
  else
    max_idx <- hill_climb_extreme true ;;
    min_idx <- hill_climb_extreme false ;;
    cp_max <- cp max_idx ;;
    cp_min <- cp min_idx ;;
    if (cp_max >? 0) && (cp_min >? 0) then Some None
    else if (cp_max <? 0) && (cp_min <? 0) then Some None
    else
      r <- check_chain max_idx min_idx ;;
      match r with
      | Some ids => Some (Some ids)
      | None => check_chain min_idx max_idx
      end.
End Locator.

(** ** Pair search strategy and [solve] *)

(** The line printed for a crossing. *)
Definition Line : Type := (Z * Z * Z * Z)%type.

Definition offsets (n_p : Z) (rnd : list Z) : list Z :=
  map (fun k => k) [1; 2; 3; 4; 5; 6; 7; 8; 9; 10] ++
  map (fun k => Z.quot n_p 2 - k) [0; 1; 2; 3; 4; 5] ++
  map (fun k => Z.quot n_p 2 + k) [1; 2; 3; 4; 5] ++
  map (fun r => Z.rem r n_p) rnd.

Section RunH.
Variables (P_pts R_hull : list Point) (p_is_pump : bool).

Let n_p : Z := size P_pts.

(** [for (int k : offsets)] for one [i]. *)
Fixpoint scan_offsets (i : Z) (ks : list Z) : option (option Line) :=
  match ks with
  | [] => Some None
  | k :: ks' =>
      let j := Z.rem (i + k) n_p in
      let j := if j <? 0 then j + n_p else j in
      if i =? j then scan_offsets i ks'
      else
        A <- vec_at P_pts i ;;
        B <- vec_at P_pts j ;;
        r <- intersect_segment_convex_poly_log A B R_hull ;;
        match r with
        | Some (r1, r2) =>
            Some (Some (if p_is_pump then (id A, id B, r1, r2)
                        else (r1, r2, id A, id B)))
        | None => scan_offsets i ks'
        end
  end.

(** [for (int i = 0; i < n_p; ++i)] over the indices [idxs]. *)
Fixpoint scan_points (ks : list Z) (idxs : list Z) : option (option Line) :=
  match idxs with
  | [] => Some None
  | i :: idxs' =>
      r <- scan_offsets i ks ;;
      match r with
      | Some line => Some (Some line)
      | None => scan_points ks idxs'
      end
  end.
End RunH.

Definition indices (v : list Point) : list Z := map Z.of_nat (seq 0 (length v)).

(** [run_h]: [angular] stands for the [std::sort] by [atan2] around the
    centroid of the hull, [rnd] for the ten values [rand()] returns.
    [Some (Some line)]: [line] is printed and [1] is thrown;
    [Some None]: the loops finish; [None]: a fault ([rand() % 0]). *)
Definition run_h (angular : list Point -> list Point -> list Point) (rnd : list Z)
    (P_pts R_hull : list Point) (p_is_pump : bool) : option (option Line) :=
  let P_pts := angular R_hull P_pts in
  let n_p := size P_pts in
  if n_p =? 0 then None
  else scan_points P_pts R_hull p_is_pump (offsets n_p rnd) (indices P_pts).

(** [for (const auto& q : HP)] of the fallback. *)
Fixpoint fallback_hull (HR : list Point) (p : Point) (qs : list Point)
  : option (option Line) :=
  match qs with
  | [] => Some None
  | q :: qs' =>
      inq <- is_inside HR q ;;
      if negb inq then
        r <- intersect_segment_convex_poly_log p q HR ;;
        match r with
        | Some (r1, r2) => Some (Some (id p, id q, r1, r2))
        | None => fallback_hull HR p qs'
        end
      else fallback_hull HR p qs'
  end.

(** [for (const auto& p : P)] of the fallback: the first point inside [HR]
    is tried against the vertices of [HP], then the loop breaks. *)
Fixpoint fallback (HR HP : list Point) (ps : list Point) : option (option Line) :=
  match ps with
  | [] => Some None
  | p :: ps' =>
      inp <- is_inside HR p ;;
      if inp then fallback_hull HR p HP else fallback HR HP ps'
  end.

(** [for (const auto& r : R)]: stops at the first point inside [HP] and does
    nothing else. *)
Fixpoint check_R_in_HP (HP : list Point) (rs : list Point) : option unit :=
  match rs with
  | [] => Some tt
  | r :: rs' =>
      found <- is_inside HP r ;;
      if found then Some tt else check_R_in_HP HP rs'
  end.

(** The reading loops: ids are the 1-based input positions. *)
Definition read_points (coords : list (Z * Z)) : list Point :=
  map (fun ic => mkPoint (fst (snd ic)) (snd (snd ic)) (Z.of_nat (fst ic) + 1))
      (combine (seq 0 (length coords)) coords).

(** [solve] once the input is read: [Some (Some line)] prints [line],
    [Some None] prints [-1]. *)
Definition solve (sort : list Point -> list Point)
    (angular : list Point -> list Point -> list Point) (rand : nat -> Z)
    (P R : list Point) : option (option Line) :=
  let '(P, HP) := convex_hull sort P in
  let '(R, HR) := convex_hull sort R in
  r <- run_h angular (map rand (seq 0 10)) P HR true ;;
  match r with
  | Some line => Some (Some line)
  | None =>
      r <- run_h angular (map rand (seq 10 10)) R HP false ;;
      match r with
      | Some line => Some (Some line)
      | None =>
          r <- fallback HR HP P ;;
          match r with
          | Some line => Some (Some line)
          | None => _ <- check_R_in_HP HP R ;; Some None
          end
      end
  end.

(** ** Library calls *)

(** What [std::sort] with the comparator [point_less] guarantees: the
    vector is permuted, and no later element is less than an earlier one.
    The order of equal elements is left open. *)
Definition lex_le (a b : Point) : Prop := point_less b a = false.

Definition sort_spec (sort : list Point -> list Point) : Prop :=
  forall l, Permutation l (sort l) /\ StronglySorted lex_le (sort l).

(** What the angular [std::sort] guarantees whatever the rounding of
    [atan2]: the points are permuted. *)
Definition angular_spec (angular : list Point -> list Point -> list Point) : Prop :=
  forall hull l, Permutation l (angular hull l).

(** Insertion sort along a comparator, one admissible [std::sort]. *)
Fixpoint insert_by (lt : Point -> Point -> bool) (p : Point) (l : list Point)
  : list Point :=
  match l with
  | [] => [p]
  | q :: l' => if lt p q then p :: l else q :: insert_by lt p l'
  end.

Definition sort_by (lt : Point -> Point -> bool) (l : list Point) : list Point :=
  fold_right (insert_by lt) [] l.

Definition insertion_sort : list Point -> list Point := sort_by point_less.

(** The angular order in exact arithmetic.  With [m] hull vertices of
    coordinate sums [(sx, sy)], the point [a] is seen from the centroid along
    [(m * a.x - sx, m * a.y - sy)]; [atan2] ranks the directions by
    half-plane, then by turn. *)
Definition angle_class (vx vy : Z) : Z :=
  if vy <? 0 then 0
  else if vy =? 0 then (if 0 <=? vx then 1 else 3)
  else 2.

Definition angle_less (m sx sy : Z) (a b : Point) : bool :=
  let ax := m * x a - sx in let ay := m * y a - sy in
  let bx := m * x b - sx in let by_ := m * y b - sy in
  (angle_class ax ay <? angle_class bx by_) ||
  ((angle_class ax ay =? angle_class bx by_) && (0 <? ax * by_ - ay * bx)).

Definition exact_angular (hull P_pts : list Point) : list Point :=
  let sx := fold_left (fun acc p => acc + x p) hull 0 in
  let sy := fold_left (fun acc p => acc + y p) hull 0 in
  sort_by (angle_less (size hull) sx sy) P_pts.

(** ** 64-bit arithmetic *)





(** * Part II.  Vocabulary of the specification *)

(** ** Segments in the plane *)

(** Closed segments in the real plane. *)
Definition on_segment (a b : Point) (u v : R) : Prop :=
  exists t : R, (0 <= t <= 1)%R /\
    u = (IZR (x a) + t * (IZR (x b) - IZR (x a)))%R /\
    v = (IZR (y a) + t * (IZR (y b) - IZR (y a)))%R.

Definition segments_share_point (a b c d : Point) : Prop :=
  exists u v : R, on_segment a b u v /\ on_segment c d u v.

Definition crossR (o a b : Point) : R :=
  ((IZR (x a) - IZR (x o)) * (IZR (y b) - IZR (y o)) -
   (IZR (y a) - IZR (y o)) * (IZR (x b) - IZR (x o)))%R.

Definition straddles (u v : Z) : Prop := (0 <= u /\ v <= 0) \/ (u <= 0 /\ 0 <= v).

Definition boxes_meet (a b c d : Point) : Prop :=
  Z.min (x c) (x d) <= Z.max (x a) (x b) /\ Z.min (x a) (x b) <= Z.max (x c) (x d) /\
  Z.min (y c) (y d) <= Z.max (y a) (y b) /\ Z.min (y a) (y b) <= Z.max (y c) (y d).

Definition transpose (p : Point) : Point := mkPoint (y p) (x p) (id p).

Definition neg_point (p : Point) : Point := mkPoint (- x p) (- y p) (id p).

Definition same_place (a b : Point) : Prop := x a = x b /\ y a = y b.

Definition apart (a b : Point) : Prop := ~ same_place a b.

Definition lex_ge (a b : Point) : Prop := lex_le b a.

(** ** Polygons *)

(** Cyclically consecutive vertices, by index as the code reads them. *)
Definition cyclic_edge (H : list Point) (a b : Point) : Prop :=
  exists i, vec_at H i = Some a /\ vec_at H ((i + 1) mod size H) = Some b.

Definition cyclic_triple (H : list Point) (a b c : Point) : Prop :=
  exists i, vec_at H i = Some a /\ vec_at H ((i + 1) mod size H) = Some b /\
            vec_at H ((i + 2) mod size H) = Some c.

(** A strictly convex counter-clockwise polygon: every vertex is on the left
    of (or on) every edge, and every vertex is a strict left turn. *)
Definition convex_ccw (poly : list Point) : Prop :=
  (forall a b q, cyclic_edge poly a b -> In q poly -> 0 <= cross_product a b q) /\
  (forall u v w, cyclic_triple poly u v w -> 0 < cross_product u v w).

Definition distinct_places (H : list Point) : Prop :=
  forall i j a b, vec_at H i = Some a -> vec_at H j = Some b -> i <> j -> ~ same_place a b.



(** ** The stack of the monotone chain *)

Fixpoint strict_turns (h : list Point) : Prop :=
  match h with
  | c :: ((b :: a :: _) as h') => 0 < cross_product a b c /\ strict_turns h'
  | _ => True
  end.

Fixpoint edges_left (Q h : list Point) : Prop :=
  match h with
  | b :: ((a :: _) as h') =>
      (forall q, In q Q -> 0 <= cross_product a b q) /\ edges_left Q h'
  | _ => True
  end.

Fixpoint chain_sorted (ord : Point -> Point -> Prop) (h : list Point) : Prop :=
  match h with
  | b :: ((a :: _) as h') => ord a b /\ chain_sorted ord h'
  | _ => True
  end.

(** State of the stack [h] (top first) once the points [Q] are processed. *)
Record chain_inv (ord : Point -> Point -> Prop) (Q h : list Point) : Prop := ChainInv {
  ci_sorted : chain_sorted ord h;
  ci_turns : strict_turns h;
  ci_left : edges_left Q h;
  ci_top : match h with b :: _ => forall q, In q Q -> ord q b | [] => Q = [] end;
  ci_below : forall q, In q Q -> exists s, In s h /\ ord s q;
  ci_sub : forall s, In s h -> In s Q
}.

(** State of the stack while points are popped for the incoming [p]. *)
Record pop_inv (ord : Point -> Point -> Prop) (Q : list Point) (p : Point)
    (h : list Point) : Prop := PopInv {
  pi_sorted : chain_sorted ord h;
  pi_turns : strict_turns h;
  pi_left : edges_left Q h;
  pi_top : match h with
           | b :: _ => ord b p /\ forall q, In q Q -> ord b q -> 0 <= cross_product b p q
           | [] => Q = []
           end;
  pi_below : forall q, In q Q -> exists s, In s h /\ ord s q;
  pi_sub : forall s, In s h -> In s Q
}.

Definition stop_ok (p : Point) (h : list Point) : Prop :=
  match h with
  | b :: a :: _ => 0 < cross_product a b p
  | _ => True
  end.

(** The stack after the first loop, bottom first. *)
Definition lower_chain (s : list Point) : list Point :=
  rev (fold_left (push_point 2) s []).

Definition adjacent (l : list Point) (a b : Point) : Prop :=
  exists l1 l2, l = l1 ++ a :: b :: l2.

Definition consecutive (l : list Point) (a b c : Point) : Prop :=
  exists l1 l2, l = l1 ++ a :: b :: c :: l2.

(** What the scan guarantees for a chain [C], bottom first, built from the
    points [s] sorted along [ord]. *)
Record chain_facts (ord : Point -> Point -> Prop) (s C : list Point) : Prop := {
  cf_left : forall a b q, adjacent C a b -> In q s -> 0 <= cross_product a b q;
  cf_turn : forall a b c, consecutive C a b c -> 0 < cross_product a b c;
  cf_order : forall a b, adjacent C a b -> ord a b;
  cf_sub : forall v, In v C -> In v s
}.

Definition strictly (ord : Point -> Point -> Prop) (a b : Point) : Prop :=
  ord a b /\ ~ same_place a b.

(** ** The locator *)

(** [(r1, r2)] are the ids of an edge of [poly] that meets [(A, B)]. *)
Definition reports (A B : Point) (poly : list Point) (r1 r2 : Z) : Prop :=
  exists e1 e2, cyclic_edge poly e1 e2 /\ id e1 = r1 /\ id e2 = r2 /\
                segments_intersect A B e1 e2 = true.

Definition beats (A B : Point) (maximize : bool) (q p : Point) : bool :=
  better maximize (dot_of A B q) (dot_of A B p).

Definition rank_of (A B : Point) (poly : list Point) (maximize : bool) (p : Point) : Z :=
  Z.of_nat (length (filter (fun q => beats A B maximize q p) poly)).

(** No cyclic neighbour of [c] beats the vertex at [c]. *)
Definition local_opt (A B : Point) (poly : list Point) (maximize : bool) (c : Z) : Prop :=
  exists pc pn pp,
    vec_at poly c = Some pc /\
    vec_at poly (Z.rem (c + 1) (size poly)) = Some pn /\
    vec_at poly (Z.rem (c - 1 + size poly) (size poly)) = Some pp /\
    beats A B maximize pn pc = false /\ beats A B maximize pp pc = false.

(** ** Printed lines *)

Definition found_by (P_pts R_hull : list Point) (p_is_pump : bool) (line : Line) : Prop :=
  exists A B r1 r2,
    In A P_pts /\ In B P_pts /\
    intersect_segment_convex_poly_log A B R_hull = Some (Some (r1, r2)) /\
    line = if p_is_pump then (id A, id B, r1, r2) else (r1, r2, id A, id B).

(** The line names the segment [(A, B)] drawn in [pts] first, then an edge
    of [hull] it meets. *)
Definition segment_ids_first (pts hull : list Point) (line : Line) : Prop :=
  exists A B e1 e2, In A pts /\ In B pts /\ cyclic_edge hull e1 e2 /\
    segments_intersect A B e1 e2 = true /\ line = (id A, id B, id e1, id e2).

(** The line names an edge of [hull] first, then the segment [(A, B)] drawn
    in [pts] that meets it. *)
Definition edge_ids_first (pts hull : list Point) (line : Line) : Prop :=
  exists A B e1 e2, In A pts /\ In B pts /\ cyclic_edge hull e1 e2 /\
    segments_intersect A B e1 e2 = true /\ line = (id e1, id e2, id A, id B).

(** The first point of [ps] inside [HR], if there is one. *)
Definition first_inside (HR ps : list Point) (p : Point) : Prop :=
  exists pre post, ps = pre ++ p :: post /\
    (forall p', In p' pre -> is_inside HR p' = Some false) /\
    is_inside HR p = Some true.

(** ** Further vocabulary *)

(** The line names two points of [P], then two points of [R], whose
    segments share a point. *)
Definition crossing_line (P R : list Point) (line : Line) : Prop :=
  exists p1 p2 q1 q2,
    In p1 P /\ In p2 P /\ In q1 R /\ In q2 R /\
    line = (id p1, id p2, id q1, id q2) /\
    segments_share_point p1 p2 q1 q2.

(** No segment between two points of [P] shares a point with a segment
    between two points of [R]. *)
Definition sets_apart (P R : list Point) : Prop :=
  forall p1 p2 q1 q2, In p1 P -> In p2 P -> In q1 R -> In q2 R ->
    ~ segments_share_point p1 p2 q1 q2.

(** The vertex [i] places after [start] has [cp] of the sign of
    [cp(start)], or not. *)
Definition same_side (A B : Point) (poly : list Point) (start cs i : Z) : Prop :=
  exists c, cp A B poly (Z.rem (start + i) (size poly)) = Some c /\ sign c = sign cs.

Definition other_side (A B : Point) (poly : list Point) (start cs i : Z) : Prop :=
  exists c, cp A B poly (Z.rem (start + i) (size poly)) = Some c /\ sign c <> sign cs.

(** Some segment between two points of [pts] at different places shares a
    point with an edge of [hull]. *)
Definition segment_meets_hull (pts hull : list Point) : Prop :=
  exists A B e1 e2, In A pts /\ In B pts /\ apart A B /\
    cyclic_edge hull e1 e2 /\ segments_share_point A B e1 e2.

(** The locator accepts, against [hull], the segment between some two points
    of [pts] at different places. *)
Definition pair_accepted (pts hull : list Point) : Prop :=
  exists A B ids, In A pts /\ In B pts /\ apart A B /\
    intersect_segment_convex_poly_log A B hull = Some (Some ids).

(** [p] is between the rays from [poly[0]] through [poly[l]] and through
    [poly[r]]. *)
Definition fan_bracket (poly : list Point) (p p0 : Point) (l r : Z) : Prop :=
  exists pl pr, vec_at poly l = Some pl /\ vec_at poly r = Some pr /\
    0 <= cross_product p0 pl p /\ cross_product p0 pr p <= 0.

(** The coordinates of a point, without its id. *)
Definition place (p : Point) : Z * Z := (x p, y p).

(** The signed area of [o], [a] and the real point [(u, v)]. *)
Definition crossP (o a : Point) (u v : R) : R :=
  ((IZR (x a) - IZR (x o)) * (v - IZR (y o)) -
   (IZR (y a) - IZR (y o)) * (u - IZR (x o)))%R.

(** The real point [(u, v)] is on the left of, or on, every edge. *)
Definition inside_or_on (poly : list Point) (u v : R) : Prop :=
  forall a b, cyclic_edge poly a b -> (0 <= crossP a b u v)%R.

(** The side of the vertex [p] with respect to the line from [(u, v)] to
    [b]. *)
Definition lineP (u v : R) (b p : Point) : R :=
  ((IZR (x b) - u) * (IZR (y p) - v) - (IZR (y b) - v) * (IZR (x p) - u))%R.

(** Among the first [k] edges that have [b] strictly on their right,
    [(e1, e2)] is one that the way from [(u, v)] to [b] crosses first. *)
Definition first_exit (poly : list Point) (u v : R) (b : Point) (k : nat)
    (e1 e2 : Point) : Prop :=
  cyclic_edge poly e1 e2 /\ (crossR e1 e2 b < 0)%R /\
  forall j a1 a2, 0 <= j < Z.of_nat k -> vec_at poly j = Some a1 ->
    vec_at poly ((j + 1) mod size poly) = Some a2 ->
    (crossR a1 a2 b < 0)%R ->
    (crossP e1 e2 u v * - crossR a1 a2 b <= crossP a1 a2 u v * - crossR e1 e2 b)%R.

(** [is_inside] accepts one point of [pts] on [hull] and rejects another. *)
Definition partly_inside (pts hull : list Point) : Prop :=
  exists p q, In p pts /\ In q pts /\
    is_inside hull p = Some true /\ is_inside hull q = Some false.

(** * Part III.  Theorems *)

(** ** Primitives *)

Lemma cross_product_eq o a b :
  cross_product o a b = (x a - x o) * (y b - y o) - (y a - y o) * (x b - x o).
Proof. reflexivity. Qed.

Lemma segments_intersect_true_iff a b c d :
  segments_intersect a b c d = true <->
  boxes_meet a b c d /\
  straddles (cross_product a b c) (cross_product a b d) /\
  straddles (cross_product c d a) (cross_product c d b).
Proof.
  unfold segments_intersect, boxes_meet, straddles.
  generalize (cross_product a b c) (cross_product a b d)
             (cross_product c d a) (cross_product c d b).
  intros c1 c2 c3 c4.
  destruct (Z.ltb_spec (Z.max (x a) (x b)) (Z.min (x c) (x d)));
  destruct (Z.ltb_spec (Z.max (x c) (x d)) (Z.min (x a) (x b)));
  destruct (Z.ltb_spec (Z.max (y a) (y b)) (Z.min (y c) (y d)));
  destruct (Z.ltb_spec (Z.max (y c) (y d)) (Z.min (y a) (y b))); cbn [orb];
  try (split; [discriminate | lia]).
  rewrite !Z.gtb_ltb.
  destruct (Z.ltb_spec 0 c1), (Z.ltb_spec c1 0), (Z.ltb_spec 0 c2), (Z.ltb_spec c2 0),
    (Z.eqb_spec c1 0), (Z.eqb_spec c2 0); try lia; cbn;
  destruct (Z.ltb_spec 0 c3), (Z.ltb_spec c3 0), (Z.ltb_spec 0 c4), (Z.ltb_spec c4 0),
    (Z.eqb_spec c3 0), (Z.eqb_spec c4 0); try lia; cbn;
  (split; [intros; lia | intros; try reflexivity; lia]).
Qed.

(** ** Segment intersection *)

Lemma IZR_cross o a b : IZR (cross_product o a b) = crossR o a b.
Proof.
  rewrite cross_product_eq. unfold crossR.
  now rewrite minus_IZR, !mult_IZR, !minus_IZR.
Qed.

Lemma on_segment_start a b : on_segment a b (IZR (x a)) (IZR (y a)).
Proof. exists 0%R. repeat split; lra. Qed.

Lemma on_segment_end a b : on_segment a b (IZR (x b)) (IZR (y b)).
Proof. exists 1%R. repeat split; lra. Qed.

Lemma on_segment_by_x a b e :
  cross_product a b e = 0 -> x a <> x b ->
  Z.min (x a) (x b) <= x e <= Z.max (x a) (x b) ->
  on_segment a b (IZR (x e)) (IZR (y e)).
Proof.
  intros Hc Hne Hb.
  apply (f_equal IZR) in Hc. rewrite IZR_cross in Hc. unfold crossR in Hc.
  assert (Hd : (IZR (x b) - IZR (x a) <> 0)%R).
  { intros E. apply Hne. apply eq_IZR. lra. }
  exists ((IZR (x e) - IZR (x a)) / (IZR (x b) - IZR (x a)))%R.
  assert (Hlo : (IZR (Z.min (x a) (x b)) <= IZR (x e))%R) by (apply IZR_le; lia).
  assert (Hhi : (IZR (x e) <= IZR (Z.max (x a) (x b)))%R) by (apply IZR_le; lia).
  split; [|split].
  - destruct (Z.lt_total (x a) (x b)) as [L|[L|L]]; [|lia|].
    + rewrite Z.min_l in Hlo by lia. rewrite Z.max_r in Hhi by lia.
      apply IZR_lt in L.
      split.
      * apply Rmult_le_reg_r with (IZR (x b) - IZR (x a))%R; [lra|].
        unfold Rdiv. rewrite Rmult_assoc, Rinv_l by lra. lra.
      * apply Rmult_le_reg_r with (IZR (x b) - IZR (x a))%R; [lra|].
        unfold Rdiv. rewrite Rmult_assoc, Rinv_l by lra. lra.
    + rewrite Z.min_r in Hlo by lia. rewrite Z.max_l in Hhi by lia.
      apply IZR_lt in L.
      split.
      * apply Rmult_le_reg_r with (IZR (x a) - IZR (x b))%R; [lra|].
        replace ((IZR (x e) - IZR (x a)) / (IZR (x b) - IZR (x a)) * (IZR (x a) - IZR (x b)))%R
          with (IZR (x a) - IZR (x e))%R by (field; lra). lra.
      * apply Rmult_le_reg_r with (IZR (x a) - IZR (x b))%R; [lra|].
        replace ((IZR (x e) - IZR (x a)) / (IZR (x b) - IZR (x a)) * (IZR (x a) - IZR (x b)))%R
          with (IZR (x a) - IZR (x e))%R by (field; lra). lra.
  - field; lra.
  - assert (E : ((IZR (y e) - IZR (y a)) * (IZR (x b) - IZR (x a)) =
                 (IZR (x e) - IZR (x a)) * (IZR (y b) - IZR (y a)))%R) by lra.
    apply Rmult_eq_reg_r with (IZR (x b) - IZR (x a))%R; [|exact Hd].
    field_simplify; [|exact Hd]. lra.
Qed.

Lemma cross_product_transpose o a b :
  cross_product (transpose o) (transpose a) (transpose b) = - cross_product o a b.
Proof. rewrite !cross_product_eq. cbn. ring. Qed.

Lemma on_segment_transpose a b u v :
  on_segment (transpose a) (transpose b) v u -> on_segment a b u v.
Proof. intros (t & Ht & Hu & Hv). exists t. cbn in *. tauto. Qed.

Lemma on_segment_by_y a b e :
  cross_product a b e = 0 -> y a <> y b ->
  Z.min (y a) (y b) <= y e <= Z.max (y a) (y b) ->
  on_segment a b (IZR (x e)) (IZR (y e)).
Proof.
  intros Hc Hne Hb. apply on_segment_transpose.
  apply (on_segment_by_x (transpose a) (transpose b) (transpose e)).
  - rewrite cross_product_transpose. lia.
  - exact Hne.
  - exact Hb.
Qed.

(** A point collinear with [a], [b] inside their bounding box lies on the
    closed segment [ab]; the degenerate segment [a = b] is included. *)
Lemma on_segment_collinear_box a b e :
  cross_product a b e = 0 ->
  Z.min (x a) (x b) <= x e <= Z.max (x a) (x b) ->
  Z.min (y a) (y b) <= y e <= Z.max (y a) (y b) ->
  on_segment a b (IZR (x e)) (IZR (y e)).
Proof.
  intros Hc Hx Hy.
  destruct (Z.eq_dec (x a) (x b)) as [Ex|Nx].
  - destruct (Z.eq_dec (y a) (y b)) as [Ey|Ny].
    + replace (x e) with (x a) by lia. replace (y e) with (y a) by lia.
      apply on_segment_start.
    + now apply on_segment_by_y.
  - now apply on_segment_by_x.
Qed.

Lemma on_segment_box a b u v :
  on_segment a b u v ->
  (IZR (Z.min (x a) (x b)) <= u <= IZR (Z.max (x a) (x b)))%R /\
  (IZR (Z.min (y a) (y b)) <= v <= IZR (Z.max (y a) (y b)))%R.
Proof.
  intros (t & Ht & -> & ->).
  assert (Hx1 := IZR_le _ _ (Z.le_min_l (x a) (x b))).
  assert (Hx2 := IZR_le _ _ (Z.le_min_r (x a) (x b))).
  assert (Hx3 := IZR_le _ _ (Z.le_max_l (x a) (x b))).
  assert (Hx4 := IZR_le _ _ (Z.le_max_r (x a) (x b))).
  assert (Hy1 := IZR_le _ _ (Z.le_min_l (y a) (y b))).
  assert (Hy2 := IZR_le _ _ (Z.le_min_r (y a) (y b))).
  assert (Hy3 := IZR_le _ _ (Z.le_max_l (y a) (y b))).
  assert (Hy4 := IZR_le _ _ (Z.le_max_r (y a) (y b))).
  repeat split; nra.
Qed.

(** The signed area is affine along a segment. *)
Lemma crossR_on_segment a b c d u v :
  on_segment c d u v ->
  exists s : R, (0 <= s <= 1)%R /\
    ((IZR (x b) - IZR (x a)) * (v - IZR (y a)) - (IZR (y b) - IZR (y a)) * (u - IZR (x a)) =
     (1 - s) * crossR a b c + s * crossR a b d)%R.
Proof.
  intros (s & Hs & -> & ->). exists s. split; [exact Hs|]. unfold crossR. ring.
Qed.

Lemma on_segment_collinear a b u v :
  on_segment a b u v ->
  ((IZR (x b) - IZR (x a)) * (v - IZR (y a)) - (IZR (y b) - IZR (y a)) * (u - IZR (x a)) = 0)%R.
Proof. intros (s & Hs & -> & ->). ring. Qed.

Lemma straddles_of_combination (u v : Z) (s : R) :
  (0 <= s <= 1)%R -> ((1 - s) * IZR u + s * IZR v = 0)%R -> straddles u v.
Proof.
  intros Hs E. unfold straddles.
  destruct (Z_lt_le_dec 0 u) as [Hu|Hu]; destruct (Z_lt_le_dec 0 v) as [Hv|Hv];
    try (left; lia); try (right; lia).
  - exfalso. apply IZR_lt in Hu, Hv. nra.
  - destruct (Z_lt_le_dec u 0) as [Hu'|Hu']; [|left; lia].
    destruct (Z_lt_le_dec v 0) as [Hv'|Hv']; [|right; lia].
    exfalso. apply IZR_lt in Hu', Hv'. nra.
Qed.

Lemma share_point_sym a b c d :
  segments_share_point a b c d -> segments_share_point c d a b.
Proof. intros (u & v & H1 & H2). exists u, v. tauto. Qed.

Lemma share_point_intersect a b c d :
  segments_share_point a b c d -> segments_intersect a b c d = true.
Proof.
  intros (u & v & Hab & Hcd).
  apply segments_intersect_true_iff.
  destruct (on_segment_box _ _ _ _ Hab) as [[X1 X2] [Y1 Y2]].
  destruct (on_segment_box _ _ _ _ Hcd) as [[X3 X4] [Y3 Y4]].
  split; [|split].
  - unfold boxes_meet. repeat split; apply le_IZR; lra.
  - destruct (crossR_on_segment a b c d u v Hcd) as (s & Hs & E).
    rewrite (on_segment_collinear a b u v Hab) in E.
    apply (straddles_of_combination _ _ s Hs). rewrite !IZR_cross. lra.
  - destruct (crossR_on_segment c d a b u v Hab) as (s & Hs & E).
    rewrite (on_segment_collinear c d u v Hcd) in E.
    apply (straddles_of_combination _ _ s Hs). rewrite !IZR_cross. lra.
Qed.

(** Proper crossing: the supporting lines are not parallel. *)
Lemma crossing_point a b c d :
  cross_product a b c <> cross_product a b d ->
  straddles (cross_product a b c) (cross_product a b d) ->
  straddles (cross_product c d a) (cross_product c d b) ->
  segments_share_point a b c d.
Proof.
  intros Hne S1 S2.
  assert (Hrel : cross_product c d a - cross_product c d b =
                 - (cross_product a b c - cross_product a b d))
    by (rewrite !cross_product_eq; ring).
  set (c1 := cross_product a b c) in *. set (c2 := cross_product a b d) in *.
  set (c3 := cross_product c d a) in *. set (c4 := cross_product c d b) in *.
  assert (N1 : (IZR c1 - IZR c2 <> 0)%R).
  { intros E. apply Hne. apply eq_IZR. lra. }
  assert (N3 : (IZR c3 - IZR c4 <> 0)%R).
  { intros E. apply Hne. apply eq_IZR.
    apply (f_equal IZR) in Hrel. rewrite opp_IZR, !minus_IZR in Hrel. lra. }
  assert (T : forall u v : Z, straddles u v -> (IZR u - IZR v <> 0)%R ->
             (0 <= IZR u / (IZR u - IZR v) <= 1)%R).
  { intros u v [[Hu Hv]|[Hu Hv]] Hn; apply IZR_le in Hu, Hv.
    - assert (0 < IZR u - IZR v)%R by lra.
      split.
      + apply Rmult_le_reg_r with (IZR u - IZR v)%R; [lra|].
        unfold Rdiv. rewrite Rmult_assoc, Rinv_l by lra. lra.
      + apply Rmult_le_reg_r with (IZR u - IZR v)%R; [lra|].
        unfold Rdiv. rewrite Rmult_assoc, Rinv_l by lra. lra.
    - assert (0 < IZR v - IZR u)%R by lra.
      split.
      + apply Rmult_le_reg_r with (IZR v - IZR u)%R; [lra|].
        replace (IZR u / (IZR u - IZR v) * (IZR v - IZR u))%R with (- IZR u)%R
          by (field; lra). lra.
      + apply Rmult_le_reg_r with (IZR v - IZR u)%R; [lra|].
        replace (IZR u / (IZR u - IZR v) * (IZR v - IZR u))%R with (- IZR u)%R
          by (field; lra). lra. }
  pose (t := (IZR c3 / (IZR c3 - IZR c4))%R).
  pose (s := (IZR c1 / (IZR c1 - IZR c2))%R).
  exists (IZR (x a) + t * (IZR (x b) - IZR (x a)))%R,
         (IZR (y a) + t * (IZR (y b) - IZR (y a)))%R.
  split.
  - exists t. split; [apply T; assumption|]. split; reflexivity.
  - exists s. split; [apply T; assumption|].
    unfold t, s, c1, c2, c3, c4. rewrite !IZR_cross. unfold crossR.
    unfold c1, c2, c3, c4 in N1, N3. rewrite !IZR_cross in N1, N3. unfold crossR in N1, N3.
    split; field; split; assumption.
Qed.

Lemma endpoint_shared_c a b c d :
  on_segment a b (IZR (x c)) (IZR (y c)) -> segments_share_point a b c d.
Proof. intros H. exists (IZR (x c)), (IZR (y c)). split; [exact H|apply on_segment_start]. Qed.

Lemma endpoint_shared_d a b c d :
  on_segment a b (IZR (x d)) (IZR (y d)) -> segments_share_point a b c d.
Proof. intros H. exists (IZR (x d)), (IZR (y d)). split; [exact H|apply on_segment_end]. Qed.

Lemma endpoint_shared_a a b c d :
  on_segment c d (IZR (x a)) (IZR (y a)) -> segments_share_point a b c d.
Proof. intros H. exists (IZR (x a)), (IZR (y a)). split; [apply on_segment_start|exact H]. Qed.

Lemma endpoint_shared_b a b c d :
  on_segment c d (IZR (x b)) (IZR (y b)) -> segments_share_point a b c d.
Proof. intros H. exists (IZR (x b)), (IZR (y b)). split; [apply on_segment_end|exact H]. Qed.

(** All four points on one line: overlapping boxes force a shared endpoint. *)
Lemma collinear_overlap a b c d :
  boxes_meet a b c d ->
  cross_product a b c = 0 -> cross_product a b d = 0 ->
  cross_product c d a = 0 -> cross_product c d b = 0 ->
  segments_share_point a b c d.
Proof.
  intros (X1 & X2 & Y1 & Y2) C1 C2 C3 C4.
  destruct (Z.eq_dec (x a) (x b)) as [Exab|Nxab].
  - destruct (Z.eq_dec (y a) (y b)) as [Eyab|Nyab].
    + apply endpoint_shared_a. apply on_segment_collinear_box; [exact C3|lia|lia].
    + assert (Exc : x c = x a) by (rewrite cross_product_eq in C1; nia).
      assert (Exd : x d = x a) by (rewrite cross_product_eq in C2; nia).
      destruct (Z.eq_dec (y c) (y d)) as [Eycd|Nycd].
      * apply endpoint_shared_c. apply on_segment_collinear_box; [exact C1|lia|lia].
      * assert (H : Z.min (y a) (y b) <= y c <= Z.max (y a) (y b) \/
                    Z.min (y a) (y b) <= y d <= Z.max (y a) (y b) \/
                    Z.min (y c) (y d) <= y a <= Z.max (y c) (y d) \/
                    Z.min (y c) (y d) <= y b <= Z.max (y c) (y d)) by lia.
        destruct H as [H|[H|[H|H]]].
        -- apply endpoint_shared_c. now apply on_segment_by_y.
        -- apply endpoint_shared_d. now apply on_segment_by_y.
        -- apply endpoint_shared_a. now apply on_segment_by_y.
        -- apply endpoint_shared_b. now apply on_segment_by_y.
  - destruct (Z.eq_dec (x c) (x d)) as [Excd|Nxcd].
    + assert (Eycd : y c = y d).
      { rewrite cross_product_eq in C1, C2. nia. }
      apply endpoint_shared_c. apply on_segment_collinear_box; [exact C1|lia|lia].
    + assert (H : Z.min (x a) (x b) <= x c <= Z.max (x a) (x b) \/
                  Z.min (x a) (x b) <= x d <= Z.max (x a) (x b) \/
                  Z.min (x c) (x d) <= x a <= Z.max (x c) (x d) \/
                  Z.min (x c) (x d) <= x b <= Z.max (x c) (x d)) by lia.
      destruct H as [H|[H|[H|H]]].
      * apply endpoint_shared_c. now apply on_segment_by_x.
      * apply endpoint_shared_d. now apply on_segment_by_x.
      * apply endpoint_shared_a. now apply on_segment_by_x.
      * apply endpoint_shared_b. now apply on_segment_by_x.
Qed.

Lemma intersect_share_point a b c d :
  segments_intersect a b c d = true -> segments_share_point a b c d.
Proof.
  intros H. apply segments_intersect_true_iff in H. destruct H as (B & S1 & S2).
  destruct (Z.eq_dec (cross_product a b c) (cross_product a b d)) as [E|N].
  - assert (Hrel : cross_product c d a - cross_product c d b =
                   - (cross_product a b c - cross_product a b d))
      by (rewrite !cross_product_eq; ring).
    unfold straddles in S1, S2.
    apply collinear_overlap; [exact B|lia..].
  - now apply crossing_point.
Qed.

(** C2. [segments_intersect a b c d] is true exactly when the closed segments
    [ab] and [cd] of the real plane share a point; collinear overlap and
    contact at an endpoint count. *)
Theorem segments_intersect_iff_share_point (a b c d : Point) :
  segments_intersect a b c d = true <-> segments_share_point a b c d.
Proof. split; [apply intersect_share_point | apply share_point_intersect]. Qed.

(** ** Monotone chain: the scan and its invariant *)

Lemma lex_le_iff a b : lex_le a b <-> x a < x b \/ (x a = x b /\ y a <= y b).
Proof.
  unfold lex_le, point_less.
  destruct (Z.ltb_spec (x b) (x a)), (Z.eqb_spec (x b) (x a)), (Z.ltb_spec (y b) (y a));
    cbn; split; intros; try discriminate; try reflexivity; lia.
Qed.

Lemma cross_product_neg o a b :
  cross_product (neg_point o) (neg_point a) (neg_point b) = cross_product o a b.
Proof. rewrite !cross_product_eq. cbn. ring. Qed.

Lemma lex_le_neg a b : lex_le (neg_point a) (neg_point b) <-> lex_le b a.
Proof. rewrite !lex_le_iff. cbn. lia. Qed.

Ltac coords :=
  repeat match goal with
  | H : lex_le _ _ |- _ => apply lex_le_iff in H
  | H : same_place _ _ |- _ => destruct H
  end;
  rewrite ?cross_product_eq in *.

Lemma geo_extend a b c d :
  lex_le a b -> lex_le b c -> lex_le c d ->
  0 < cross_product a b c -> 0 <= cross_product b c d -> 0 <= cross_product a b d.
Proof.
  intros H1 H2 H3 H4 H5. coords.
  destruct a as [a1 a2 ?], b as [b1 b2 ?], c as [c1 c2 ?], d as [d1 d2 ?]; cbn in *.
  destruct (Z.eq_dec c1 b1) as [E|N].
  - subst c1. assert (a1 < b1) by nia. assert (d1 = b1) by nia. subst d1. nia.
  - assert (0 < c1 - b1) by lia.
    assert (0 <= (c1 - b1) * ((b1 - a1) * (d2 - a2) - (b2 - a2) * (d1 - a1))); [|nia].
    assert (0 <= (d1 - b1) * ((b1 - a1) * (c2 - a2) - (b2 - a2) * (c1 - a1))) by nia.
    assert (0 <= (b1 - a1) * ((c1 - b1) * (d2 - b2) - (c2 - b2) * (d1 - b1))) by nia.
    nia.
Qed.

Lemma geo_replace a e p q :
  lex_le a e -> lex_le a q -> lex_le a p ->
  0 <= cross_product a e q -> cross_product a e p <= 0 ->
  (lex_le e q -> 0 <= cross_product e p q) ->
  0 <= cross_product a p q.
Proof.
  intros H1 H2 H3 H4 H5 H6.
  rewrite lex_le_iff in H6. coords.
  destruct a as [a1 a2 ?], e as [e1 e2 ?], p as [p1 p2 ?], q as [q1 q2 ?]; cbn in *.
  destruct (Z.eq_dec e1 a1) as [E|N].
  - subst e1. destruct (Z.eq_dec e2 a2) as [E2|N2].
    + subst e2. apply H6. lia.
    + assert (0 < e2 - a2) by lia.
      assert (q1 = a1) by nia. subst q1. nia.
  - assert (0 < e1 - a1) by lia.
    assert (0 <= (e1 - a1) * ((p1 - a1) * (q2 - a2) - (p2 - a2) * (q1 - a1))); [|nia].
    assert (0 <= (p1 - a1) * ((e1 - a1) * (q2 - a2) - (e2 - a2) * (q1 - a1))) by nia.
    assert (0 <= (q1 - a1) * - ((e1 - a1) * (p2 - a2) - (e2 - a2) * (p1 - a1))) by nia.
    nia.
Qed.

Lemma geo_behind a b p q :
  lex_le a b -> lex_le q b -> lex_le b p ->
  0 <= cross_product a b q -> 0 < cross_product a b p ->
  0 <= cross_product b p q.
Proof.
  intros H1 H2 H3 H4 H5. coords.
  destruct a as [a1 a2 ?], b as [b1 b2 ?], p as [p1 p2 ?], q as [q1 q2 ?]; cbn in *.
  destruct (Z.eq_dec a1 b1) as [E|N].
  - subst a1. nia.
  - assert (0 < b1 - a1) by lia.
    assert (0 <= (b1 - a1) * ((p1 - b1) * (q2 - b2) - (p2 - b2) * (q1 - b1))); [|nia].
    assert (0 <= (p1 - b1) * ((b1 - a1) * (q2 - a2) - (b2 - a2) * (q1 - a1))) by nia.
    assert (0 <= (b1 - q1) * ((b1 - a1) * (p2 - a2) - (b2 - a2) * (p1 - a1))) by nia.
    nia.
Qed.

Lemma lex_le_refl a : lex_le a a.
Proof. apply lex_le_iff. lia. Qed.

Lemma lex_le_trans a b c : lex_le a b -> lex_le b c -> lex_le a c.
Proof. rewrite !lex_le_iff. lia. Qed.

Lemma lex_le_total a b : lex_le a b \/ lex_le b a.
Proof. rewrite !lex_le_iff. lia. Qed.

Lemma lex_le_antisym a b : lex_le a b -> lex_le b a -> same_place a b.
Proof. rewrite !lex_le_iff. unfold same_place. lia. Qed.

Lemma cross_same_place_r a b p : same_place a b -> cross_product a p b = 0.
Proof. intros [? ?]. rewrite cross_product_eq. nia. Qed.

(** The scan is verified once for an order [ord] on points: the
    lexicographic order serves the first loop, its converse the second.
    The hypotheses are the facts of plane geometry the argument needs. *)
Section ChainInvariant.
Variable ord : Point -> Point -> Prop.
Hypothesis ord_refl : forall a, ord a a.
Hypothesis ord_trans : forall a b c, ord a b -> ord b c -> ord a c.
Hypothesis ord_total : forall a b, ord a b \/ ord b a.
Hypothesis ord_flat : forall a b p, ord a b -> ord b a -> cross_product a p b = 0.
Hypothesis ord_extend : forall a b c d,
  ord a b -> ord b c -> ord c d ->
  0 < cross_product a b c -> 0 <= cross_product b c d -> 0 <= cross_product a b d.
Hypothesis ord_replace : forall a e p q,
  ord a e -> ord a q -> ord a p ->
  0 <= cross_product a e q -> cross_product a e p <= 0 ->
  (ord e q -> 0 <= cross_product e p q) -> 0 <= cross_product a p q.
Hypothesis ord_behind : forall a b p q,
  ord a b -> ord q b -> ord b p ->
  0 <= cross_product a b q -> 0 < cross_product a b p -> 0 <= cross_product b p q.

Lemma pop_inv_start Q p h :
  chain_inv ord Q h -> (forall q, In q Q -> ord q p) -> pop_inv ord Q p h.
Proof.
  intros [S T L Top B Sub] Hp. split; try assumption.
  destruct h as [|b h']; [exact Top|].
  split.
  - apply Hp, Sub. now left.
  - intros q Hq Hbq. rewrite (ord_flat b q p); [lia| |]; auto.
Qed.

Lemma pop_inv_pop Q p e a h :
  pop_inv ord Q p (e :: a :: h) -> cross_product a e p <= 0 -> pop_inv ord Q p (a :: h).
Proof.
  intros [S T L Top B Sub] Hc.
  destruct S as [Sae S']. destruct L as [Lae L']. destruct Top as [Hep Hpq].
  split.
  - exact S'.
  - destruct h; [exact I|]. apply T.
  - exact L'.
  - split; [eauto|].
    intros q Hq Haq.
    apply (ord_replace a e p q); eauto.
  - intros q Hq. destruct (B q Hq) as (s & [Hs|Hs] & Hsq).
    + subst s. exists a. split; [now left|eauto].
    + exists s. split; assumption.
  - intros s Hs. apply Sub. now right.
Qed.

Lemma pop_while_inv Q p h :
  pop_inv ord Q p h -> pop_inv ord Q p (pop_while 2 p h) /\ stop_ok p (pop_while 2 p h).
Proof.
  induction h as [|e h IH]; intros Hinv; [now split|].
  destruct h as [|a h]; [now split|].
  cbn [pop_while].
  replace (2 <=? length (e :: a :: h))%nat with true
    by (symmetry; apply Nat.leb_le; cbn; lia).
  cbn [andb].
  destruct (Z.leb_spec (cross_product a e p) 0) as [Hle|Hgt].
  - apply IH. now apply pop_inv_pop with e.
  - split; [exact Hinv|exact Hgt].
Qed.

Lemma edges_left_new p h :
  chain_sorted ord h -> strict_turns h ->
  match h with
  | b :: a :: _ => ord b p /\ 0 <= cross_product a b p
  | _ => True
  end ->
  edges_left [p] h.
Proof.
  induction h as [|b h IH]; intros S T H; [exact I|].
  destruct h as [|a h]; [exact I|].
  destruct H as [Hbp Hc]. destruct S as [Sab S'].
  split.
  - intros q [<-|[]]. exact Hc.
  - apply IH; [exact S'| |].
    + destruct h; [exact I|apply T].
    + destruct h as [|a' h]; [exact I|].
      destruct T as [Tc T']. destruct S' as [Sa' S''].
      split; [eauto|].
      apply (ord_extend a' a b p); auto.
Qed.

Lemma edges_left_app Q1 Q2 h :
  edges_left Q1 h -> edges_left Q2 h -> edges_left (Q1 ++ Q2) h.
Proof.
  induction h as [|b h IH]; intros H1 H2; [exact I|].
  destruct h as [|a h]; [exact I|].
  destruct H1 as [H1 H1'], H2 as [H2 H2']. split.
  - intros q Hq. apply in_app_or in Hq. destruct Hq; auto.
  - now apply IH.
Qed.

Lemma push_inv Q p h :
  pop_inv ord Q p h -> stop_ok p h -> (forall q, In q Q -> ord q p) ->
  chain_inv ord (Q ++ [p]) (p :: h).
Proof.
  intros [S T L Top B Sub] Hstop Hp.
  assert (Hnew : edges_left [p] h).
  { apply edges_left_new; try assumption.
    destruct h as [|b [|a h]]; try exact I.
    destruct Top as [Hbp _]. cbn in Hstop. split; [assumption|lia]. }
  split.
  - destruct h as [|b h]; [exact I|]. split; [apply Top|exact S].
  - destruct h as [|b [|a h]]; try exact I. split; [exact Hstop|exact T].
  - destruct h as [|b h]; [exact I|].
    split; [|now apply edges_left_app].
    destruct Top as [Hbp Hpq].
    intros q Hq. apply in_app_or in Hq. destruct Hq as [Hq|[<-|[]]].
    + destruct h as [|a h].
      * destruct (B q Hq) as (s & [<-|[]] & Hsq). now apply Hpq.
      * destruct (ord_total b q) as [Hbq|Hqb]; [now apply Hpq|].
        destruct S as [Sab _]. destruct L as [Lab _].
        apply (ord_behind a b p q); auto.
    + rewrite cross_product_eq. lia.
  - intros q Hq. apply in_app_or in Hq. destruct Hq as [Hq|[<-|[]]]; auto.
  - intros q Hq. apply in_app_or in Hq. destruct Hq as [Hq|[<-|[]]].
    + destruct (B q Hq) as (s & Hs & Hsq). exists s. split; [now right|exact Hsq].
    + exists p. split; [now left|apply ord_refl].
  - intros s [<-|Hs]; apply in_or_app; [right; now left|left; auto].
Qed.

Lemma push_point_inv Q p h :
  chain_inv ord Q h -> (forall q, In q Q -> ord q p) ->
  chain_inv ord (Q ++ [p]) (push_point 2 h p).
Proof.
  intros Hinv Hp. unfold push_point.
  destruct (pop_while_inv Q p h (pop_inv_start Q p h Hinv Hp)) as [H1 H2].
  now apply push_inv.
Qed.

Lemma chain_inv_nil : chain_inv ord [] [].
Proof. split; cbn; auto; intros ? []. Qed.

Lemma build_inv rest : forall Q h,
  chain_inv ord Q h ->
  (forall q r, In q Q -> In r rest -> ord q r) ->
  StronglySorted ord rest ->
  chain_inv ord (Q ++ rest) (fold_left (push_point 2) rest h).
Proof.
  induction rest as [|p rest IH]; intros Q h Hinv Hlt Hs.
  - now rewrite app_nil_r.
  - cbn [fold_left]. inversion Hs as [|? ? Hs' Hall]; subst.
    replace (Q ++ p :: rest) with ((Q ++ [p]) ++ rest) by (now rewrite <- app_assoc).
    apply IH.
    + apply push_point_inv; [exact Hinv|]. intros q Hq. apply Hlt; [exact Hq|now left].
    + intros q r Hq Hr. apply in_app_or in Hq. destruct Hq as [Hq|[<-|[]]].
      * apply Hlt; [exact Hq|now right].
      * rewrite Forall_forall in Hall. now apply Hall.
    + exact Hs'.
Qed.

Theorem chain_inv_sorted pts :
  StronglySorted ord pts -> chain_inv ord pts (fold_left (push_point 2) pts []).
Proof.
  intros Hs. apply (build_inv pts [] []); [apply chain_inv_nil| |exact Hs].
  intros q r [].
Qed.

End ChainInvariant.

Lemma pop_while_app t p u r :
  pop_while (t + length r) p (u ++ r) = pop_while t p u ++ r \/ (t < 2)%nat.
Proof.
  destruct (Nat.lt_ge_cases t 2) as [Ht|Ht]; [now right|left].
  induction u as [|b u IH].
  - cbn. destruct r as [|b [|a r]]; try reflexivity.
    cbn [pop_while].
    replace (t + length (b :: a :: r) <=? length (b :: a :: r))%nat with false; [reflexivity|].
    symmetry. apply Nat.leb_gt. lia.
  - destruct u as [|a u].
    + cbn [app pop_while]. destruct r as [|a r]; [reflexivity|].
      replace (t + length (a :: r) <=? length (b :: a :: r))%nat with false; [reflexivity|].
      symmetry. apply Nat.leb_gt. cbn. lia.
    + cbn [app pop_while] in *.
      replace (length (b :: a :: u ++ r)) with (length (b :: a :: u) + length r)%nat
        by (cbn; rewrite length_app; lia).
      replace (t + length r <=? length (b :: a :: u) + length r)%nat
        with (t <=? length (b :: a :: u))%nat.
      2:{ destruct (Nat.leb_spec t (length (b :: a :: u)));
          symmetry; [apply Nat.leb_le|apply Nat.leb_gt]; lia. }
      destruct ((t <=? length (b :: a :: u))%nat && (cross_product a b p <=? 0)).
      * exact IH.
      * reflexivity.
Qed.

Lemma fold_push_app l : forall u r,
  fold_left (push_point (2 + length r)) l (u ++ r) = fold_left (push_point 2) l u ++ r.
Proof.
  induction l as [|p l IH]; intros u r; [reflexivity|].
  cbn [fold_left]. unfold push_point at 2 4.
  destruct (pop_while_app 2 p u r) as [E|E]; [|lia].
  rewrite E. apply (IH (p :: pop_while 2 p u) r).
Qed.

Lemma pop_while_last t p h d : last (pop_while t p h) d = last h d.
Proof.
  induction h as [|b h IH]; [reflexivity|].
  destruct h as [|a h]; [reflexivity|].
  cbn [pop_while].
  destruct ((t <=? length (b :: a :: h))%nat && (cross_product a b p <=? 0)).
  - change (last (b :: a :: h) d) with (last (a :: h) d). exact IH.
  - reflexivity.
Qed.

Lemma pop_while_nonempty t p h : h <> [] -> pop_while t p h <> [].
Proof.
  induction h as [|b h IH]; [congruence|]. intros _.
  destruct h as [|a h]; [cbn; congruence|].
  cbn [pop_while].
  destruct ((t <=? length (b :: a :: h))%nat && (cross_product a b p <=? 0)).
  - apply IH. congruence.
  - congruence.
Qed.

Lemma fold_push_last t l : forall h d, h <> [] ->
  last (fold_left (push_point t) l h) d = last h d.
Proof.
  induction l as [|p l IH]; intros h d Hne; [reflexivity|].
  cbn [fold_left]. rewrite IH by (unfold push_point; congruence).
  unfold push_point.
  pose proof (pop_while_nonempty t p h Hne) as Hn.
  pose proof (pop_while_last t p h d) as Hl.
  destruct (pop_while t p h); [congruence|]. exact Hl.
Qed.

Lemma fold_push_snoc t l p h :
  fold_left (push_point t) (l ++ [p]) h = p :: pop_while t p (fold_left (push_point t) l h).
Proof. rewrite fold_left_app. reflexivity. Qed.

Lemma fold_push_nonempty t l : forall h, h <> [] -> fold_left (push_point t) l h <> [].
Proof.
  induction l as [|p l IH]; intros h Hne; [exact Hne|].
  cbn [fold_left]. apply IH. unfold push_point. congruence.
Qed.

Lemma last_shape (l : list Point) d : l <> [] -> exists l', l = l' ++ [last l d].
Proof.
  intros Hne. exists (removelast l). now apply app_removelast_last.
Qed.

Lemma lower_chain_shape p0 mid pm :
  exists A, lower_chain (p0 :: mid ++ [pm]) = p0 :: A ++ [pm].
Proof.
  unfold lower_chain.
  change (p0 :: mid ++ [pm]) with ((p0 :: mid) ++ [pm]).
  rewrite fold_push_snoc. cbn [fold_left].
  change (push_point 2 [] p0) with [p0].
  set (h := fold_left (push_point 2) mid [p0]).
  assert (Hh : h <> []) by (apply fold_push_nonempty; congruence).
  assert (Hn : pop_while 2 pm h <> []) by now apply pop_while_nonempty.
  destruct (last_shape _ p0 Hn) as [l' E].
  rewrite pop_while_last in E. unfold h in E at 2.
  rewrite fold_push_last in E by congruence. cbn [last] in E.
  rewrite E. exists (rev l').
  cbn [rev]. rewrite rev_app_distr. reflexivity.
Qed.

Lemma hull_shape p0 mid pm :
  let s := p0 :: mid ++ [pm] in
  exists A B,
    hull_of_sorted s = p0 :: A ++ pm :: B /\
    lower_chain s = p0 :: A ++ [pm] /\
    lower_chain (rev s) = pm :: B ++ [p0].
Proof.
  intros s.
  destruct (lower_chain_shape p0 mid pm) as [A HA]. fold s in HA.
  assert (Hrev : rev s = pm :: rev mid ++ [p0]).
  { unfold s. change (p0 :: mid ++ [pm]) with ((p0 :: mid) ++ [pm]).
    rewrite rev_app_distr. reflexivity. }
  destruct (lower_chain_shape pm (rev mid) p0) as [B HB]. rewrite <- Hrev in HB.
  exists A, B. split; [|split; assumption].
  unfold hull_of_sorted.
  assert (EL : fold_left (push_point 2) s [] = [pm] ++ (rev A ++ [p0])).
  { unfold lower_chain in HA. apply (f_equal (@rev Point)) in HA.
    rewrite rev_involutive in HA. rewrite HA.
    change (p0 :: A ++ [pm]) with ((p0 :: A) ++ [pm]).
    rewrite rev_app_distr. reflexivity. }
  assert (EU : fold_left (push_point 2) (tl (rev s)) [pm] = p0 :: rev B ++ [pm]).
  { unfold lower_chain in HB. apply (f_equal (@rev Point)) in HB.
    rewrite rev_involutive in HB. rewrite Hrev in HB. cbn [fold_left] in HB.
    rewrite Hrev. cbn [tl]. change (push_point 2 [] pm) with [pm] in HB. rewrite HB.
    change (pm :: B ++ [p0]) with ((pm :: B) ++ [p0]).
    rewrite rev_app_distr. reflexivity. }
  rewrite EL.
  replace (length ([pm] ++ rev A ++ [p0]) + 1)%nat with (2 + length (rev A ++ [p0]))%nat
    by (cbn; lia).
  rewrite fold_push_app, EU. cbn [tl app].
  rewrite !rev_app_distr. cbn. rewrite !rev_involutive. reflexivity.
Qed.

Lemma adjacent_rev h a b :
  adjacent (rev h) a b -> exists l r, h = l ++ b :: a :: r.
Proof.
  intros (l1 & l2 & E). exists (rev l2), (rev l1).
  apply (f_equal (@rev Point)) in E. rewrite rev_involutive in E. rewrite E.
  rewrite rev_app_distr. cbn. rewrite <- !app_assoc. reflexivity.
Qed.

Lemma consecutive_rev h a b c :
  consecutive (rev h) a b c -> exists l r, h = l ++ c :: b :: a :: r.
Proof.
  intros (l1 & l2 & E). exists (rev l2), (rev l1).
  apply (f_equal (@rev Point)) in E. rewrite rev_involutive in E. rewrite E.
  rewrite rev_app_distr. cbn. rewrite <- !app_assoc. reflexivity.
Qed.

Lemma edges_left_at Q l : forall b a r,
  edges_left Q (l ++ b :: a :: r) -> forall q, In q Q -> 0 <= cross_product a b q.
Proof.
  induction l as [|c l IH]; intros b a r H.
  - apply H.
  - apply (IH b a r). destruct l; apply H.
Qed.

Lemma strict_turns_at l : forall c b a r,
  strict_turns (l ++ c :: b :: a :: r) -> 0 < cross_product a b c.
Proof.
  induction l as [|d l IH]; intros c b a r H.
  - apply H.
  - apply (IH c b a r). destruct l as [|? [|? ?]]; apply H.
Qed.

Lemma chain_sorted_at ord l : forall b a r,
  chain_sorted ord (l ++ b :: a :: r) -> ord a b.
Proof.
  induction l as [|c l IH]; intros b a r H.
  - apply H.
  - apply (IH b a r). destruct l; apply H.
Qed.

Lemma lower_chain_facts_lex s :
  StronglySorted lex_le s -> chain_facts lex_le s (lower_chain s).
Proof.
  intros Hs.
  pose proof (chain_inv_sorted lex_le lex_le_refl lex_le_trans lex_le_total
    (fun a b p H1 H2 => cross_same_place_r a b p (lex_le_antisym a b H1 H2))
    geo_extend geo_replace geo_behind s Hs) as [S T L _ _ Sub].
  unfold lower_chain. split.
  - intros a b q Hadj Hq. apply adjacent_rev in Hadj. destruct Hadj as (l & r & E).
    rewrite E in L. now apply (edges_left_at s l b a r).
  - intros a b c Hc. apply consecutive_rev in Hc. destruct Hc as (l & r & E).
    rewrite E in T. now apply (strict_turns_at l c b a r).
  - intros a b Hadj. apply adjacent_rev in Hadj. destruct Hadj as (l & r & E).
    rewrite E in S. now apply (chain_sorted_at lex_le l b a r).
  - intros v Hv. apply Sub. now apply in_rev.
Qed.

Lemma lex_ge_neg a b : lex_ge a b <-> lex_le (neg_point a) (neg_point b).
Proof. unfold lex_ge. now rewrite lex_le_neg. Qed.

Lemma lower_chain_facts_rev s :
  StronglySorted lex_ge s -> chain_facts lex_ge s (lower_chain s).
Proof.
  intros Hs.
  assert (Hinv : chain_inv lex_ge s (fold_left (push_point 2) s [])).
  { apply chain_inv_sorted; try exact Hs.
    - intros a. apply lex_le_refl.
    - intros a b c H1 H2. exact (lex_le_trans c b a H2 H1).
    - intros a b. destruct (lex_le_total a b); [right|left]; assumption.
    - intros a b p H1 H2. apply cross_same_place_r. now apply lex_le_antisym.
    - intros a b c d H1 H2 H3. rewrite lex_ge_neg in H1, H2, H3.
      rewrite <- (cross_product_neg a b c), <- (cross_product_neg b c d),
        <- (cross_product_neg a b d).
      now apply geo_extend.
    - intros a e p q H1 H2 H3 H4 H5 H6. rewrite lex_ge_neg in H1, H2, H3, H6.
      rewrite <- (cross_product_neg a e q) in H4.
      rewrite <- (cross_product_neg a e p) in H5.
      rewrite <- (cross_product_neg e p q) in H6.
      rewrite <- (cross_product_neg a p q).
      now apply (geo_replace _ (neg_point e)).
    - intros a b p q H1 H2 H3 H4 H5. rewrite lex_ge_neg in H1, H2, H3.
      rewrite <- (cross_product_neg a b q) in H4.
      rewrite <- (cross_product_neg a b p) in H5.
      rewrite <- (cross_product_neg b p q).
      now apply (geo_behind (neg_point a)). }
  destruct Hinv as [S T L _ _ Sub].
  unfold lower_chain. split.
  - intros a b q Hadj Hq. apply adjacent_rev in Hadj. destruct Hadj as (l & r & E).
    rewrite E in L. now apply (edges_left_at s l b a r).
  - intros a b c Hc. apply consecutive_rev in Hc. destruct Hc as (l & r & E).
    rewrite E in T. now apply (strict_turns_at l c b a r).
  - intros a b Hadj. apply adjacent_rev in Hadj. destruct Hadj as (l & r & E).
    rewrite E in S. now apply (chain_sorted_at lex_ge l b a r).
  - intros v Hv. apply Sub. now apply in_rev.
Qed.

Lemma StronglySorted_rev (R : Point -> Point -> Prop) l :
  StronglySorted R l -> StronglySorted (fun a b => R b a) (rev l).
Proof.
  induction 1 as [|a l Hs IH Hall]; [constructor|].
  cbn [rev]. 
  assert (G : forall l1 l2, StronglySorted (fun a b => R b a) l1 ->
              StronglySorted (fun a b => R b a) l2 ->
              (forall u v, In u l1 -> In v l2 -> R v u) ->
              StronglySorted (fun a b => R b a) (l1 ++ l2)).
  { induction l1 as [|c l1 IH1]; intros l2 H1 H2 H12; [exact H2|].
    cbn. inversion H1; subst. constructor.
    - apply IH1; auto. intros u v Hu Hv. apply H12; [now right|exact Hv].
    - apply Forall_app. split; [assumption|].
      apply Forall_forall. intros v Hv. apply H12; [now left|exact Hv]. }
  apply G; [exact IH|repeat constructor|].
  intros u v Hu [<-|[]]. rewrite Forall_forall in Hall. apply Hall. now apply in_rev.
Qed.

(** The two chains of the hull of a sorted point vector. *)
Theorem hull_chains p0 mid pm :
  let s := p0 :: mid ++ [pm] in
  StronglySorted lex_le s ->
  exists A B,
    hull_of_sorted s = p0 :: A ++ pm :: B /\
    chain_facts lex_le s (p0 :: A ++ [pm]) /\
    chain_facts lex_ge s (pm :: B ++ [p0]).
Proof.
  intros s Hs. destruct (hull_shape p0 mid pm) as (A & B & E & EL & EU). fold s in E, EL, EU.
  exists A, B. split; [exact E|]. split.
  - rewrite <- EL. now apply lower_chain_facts_lex.
  - rewrite <- EU.
    pose proof (lower_chain_facts_rev (rev s) (StronglySorted_rev lex_le s Hs)) as [F1 F2 F3 F4].
    split; auto.
    + intros a b q Hadj Hq. apply F1; [exact Hadj|]. now apply -> in_rev.
    + intros v Hv. apply in_rev. now apply F4.
Qed.

(** ** Point in polygon *)

Lemma vec_at_some v i : 0 <= i < size v -> exists p, vec_at v i = Some p.
Proof.
  intros H. unfold vec_at, size in *.
  destruct (Z.ltb_spec i 0); [lia|].
  destruct (nth_error v (Z.to_nat i)) eqn:E; [eauto|].
  apply nth_error_None in E. lia.
Qed.

Lemma vec_at_range v i p : vec_at v i = Some p -> 0 <= i < size v.
Proof.
  unfold vec_at, size. destruct (Z.ltb_spec i 0); [discriminate|].
  intros E. assert (N : nth_error v (Z.to_nat i) <> None) by congruence.
  apply nth_error_Some in N. lia.
Qed.

Lemma vec_at_In v i p : vec_at v i = Some p -> In p v.
Proof.
  unfold vec_at. destruct (i <? 0); [discriminate|]. apply nth_error_In.
Qed.

Lemma vec_at_nat v (k : nat) : vec_at v (Z.of_nat k) = nth_error v k.
Proof.
  unfold vec_at. destruct (Z.ltb_spec (Z.of_nat k) 0); [lia|]. now rewrite Nat2Z.id.
Qed.

Lemma fan_search_total poly p p0 n :
  n = size poly ->
  forall fuel l r, (Z.to_nat (r - l) <= fuel)%nat -> 1 <= l < r -> r <= n - 1 ->
  exists l', fan_search fuel poly p p0 l r = Some (l', l' + 1) /\ 1 <= l' /\ l' + 1 <= n - 1.
Proof.
  intros Hn. induction fuel as [|fuel IH]; intros l r Hf Hl Hr.
  - lia.
  - cbn [fan_search]. destruct (Z.ltb_spec (l + 1) r) as [Hlt|Hge].
    + rewrite Z.quot_div_nonneg by lia.
      assert (Hm : l < (l + r) / 2 < r).
      { pose proof (Z.div_mod (l + r) 2 ltac:(lia)) as D.
        pose proof (Z.mod_pos_bound (l + r) 2 ltac:(lia)) as M. lia. }
      destruct (vec_at_some poly ((l + r) / 2)) as [pm ->]; [lia|].
      destruct (cross_product p0 pm p >=? 0); apply IH; lia.
    + exists l. replace r with (l + 1) by lia. split; [reflexivity|lia].
Qed.

Lemma cross_product_swap o a b : cross_product o a b = - cross_product a o b.
Proof. rewrite !cross_product_eq. ring. Qed.

Lemma cross_product_rot o a b : cross_product o a b = cross_product a b o.
Proof. rewrite !cross_product_eq. ring. Qed.

(** A point on the left of (or on) every edge passes the fan test. *)
Lemma is_inside_of_edges poly q :
  3 <= size poly ->
  (forall i a b, vec_at poly i = Some a -> vec_at poly (i + 1) = Some b ->
                 0 <= cross_product a b q) ->
  (forall a b, vec_at poly (size poly - 1) = Some a -> vec_at poly 0 = Some b ->
               0 <= cross_product a b q) ->
  is_inside poly q = Some true.
Proof.
  intros Hn Hedge Hclose. unfold is_inside.
  destruct (Z.eqb_spec (size poly) 0); [lia|].
  destruct (Z.eqb_spec (size poly) 1); [lia|].
  destruct (Z.eqb_spec (size poly) 2); [lia|].
  destruct (vec_at_some poly 0) as [p0 E0]; [lia|].
  destruct (vec_at_some poly 1) as [p1 E1]; [lia|].
  destruct (vec_at_some poly (size poly - 1)) as [pl El]; [lia|].
  rewrite E0, E1, El.
  pose proof (Hedge 0 p0 p1 E0 E1) as H01.
  pose proof (Hclose pl p0 El E0) as Hl0.
  destruct (Z.ltb_spec (cross_product p0 p1 q) 0); [lia|].
  rewrite Z.gtb_ltb.
  destruct (Z.ltb_spec 0 (cross_product p0 pl q)) as [Hbad|_].
  { rewrite cross_product_swap in Hbad. lia. }
  destruct (fan_search_total poly q p0 (size poly) eq_refl (Z.to_nat (size poly)) 1
              (size poly - 1)) as (l & -> & Hl1 & Hl2); [lia|lia|lia|].
  cbn [fst snd].
  destruct (vec_at_some poly l) as [a Ea]; [lia|].
  destruct (vec_at_some poly (l + 1)) as [b Eb]; [lia|].
  rewrite Ea, Eb. f_equal. rewrite Z.geb_leb. apply Z.leb_le. eauto.
Qed.

(** ** Hull containment *)

Lemma insert_by_perm lt p l : Permutation (p :: l) (insert_by lt p l).
Proof.
  induction l as [|q l IH]; cbn; [reflexivity|].
  destruct (lt p q); [reflexivity|].
  rewrite perm_swap. now constructor.
Qed.

Lemma sort_by_perm lt l : Permutation l (sort_by lt l).
Proof.
  induction l as [|p l IH]; cbn; [constructor|].
  rewrite <- insert_by_perm. now constructor.
Qed.

Lemma insert_point_sorted p l :
  StronglySorted lex_le l -> StronglySorted lex_le (insert_by point_less p l).
Proof.
  induction 1 as [|q l Hs IH Hall]; cbn; [repeat constructor|].
  destruct (point_less p q) eqn:E.
  - constructor; [now constructor|].
    assert (Hpq : lex_le p q).
    { apply lex_le_iff. unfold point_less in E.
      destruct (Z.ltb_spec (x p) (x q)), (Z.eqb_spec (x p) (x q)), (Z.ltb_spec (y p) (y q));
        cbn in E; try discriminate; lia. }
    constructor; [exact Hpq|].
    eapply Forall_impl; [|exact Hall]. intros r Hr. now apply lex_le_trans with q.
  - constructor; [exact IH|].
    apply (Permutation_Forall (insert_by_perm point_less p l)).
    constructor; [exact E|exact Hall].
Qed.

Lemma insertion_sort_spec : sort_spec insertion_sort.
Proof.
  intros l. split; [apply sort_by_perm|].
  induction l as [|p l IH]; cbn; [constructor|].
  now apply insert_point_sorted.
Qed.

Lemma list_ends (l : list Point) :
  (2 <= length l)%nat -> exists p0 mid pm, l = p0 :: mid ++ [pm].
Proof.
  intros H. destruct l as [|p0 l]; [cbn in H; lia|].
  destruct (@exists_last _ l) as (mid & pm & ->).
  { intros ->. cbn in H. lia. }
  now exists p0, mid, pm.
Qed.

Lemma sorted_ends p0 mid pm q :
  StronglySorted lex_le (p0 :: mid ++ [pm]) -> In q (p0 :: mid ++ [pm]) ->
  lex_le p0 q /\ lex_le q pm.
Proof.
  intros Hs Hq. split.
  - inversion Hs as [|? ? _ Hall]; subst. destruct Hq as [<-|Hq]; [apply lex_le_refl|].
    rewrite Forall_forall in Hall. now apply Hall.
  - change (p0 :: mid ++ [pm]) with ((p0 :: mid) ++ [pm]) in *.
    revert Hs Hq. generalize (p0 :: mid). intros l. induction l as [|c l IH]; intros Hs Hq.
    + destruct Hq as [<-|[]]. apply lex_le_refl.
    + cbn in Hs. inversion Hs as [|? ? Hs' Hall]; subst.
      destruct Hq as [<-|Hq]; [|now apply IH].
      rewrite Forall_forall in Hall. apply Hall. apply in_or_app. right. now left.
Qed.

Lemma collinear_between_box a b p :
  lex_le a p -> lex_le p b -> cross_product a b p = 0 ->
  (Z.min (x a) (x b) <= x p <= Z.max (x a) (x b)) /\
  (Z.min (y a) (y b) <= y p <= Z.max (y a) (y b)).
Proof.
  intros H1 H2 Hc. coords.
  destruct a as [a1 a2 ?], b as [b1 b2 ?], p as [p1 p2 ?]; cbn in *.
  split; [lia|].
  destruct (Z.eq_dec a1 b1) as [E|N]; [lia|].
  destruct (Z.le_gt_cases a2 b2).
  - rewrite Z.min_l, Z.max_r by lia. split; nia.
  - rewrite Z.min_r, Z.max_l by lia. split; nia.
Qed.

Lemma adjacent_of_nth (l : list Point) : forall i a b,
  nth_error l i = Some a -> nth_error l (S i) = Some b -> adjacent l a b.
Proof.
  induction l as [|c l IH]; intros [|i] a b Ha Hb; cbn in *; try discriminate.
  - injection Ha as <-. destruct l as [|b' l]; [discriminate|]. injection Hb as <-.
    now exists [], l.
  - destruct (IH i a b Ha Hb) as (l1 & l2 & ->). now exists (c :: l1), l2.
Qed.

Lemma consecutive_of_nth (l : list Point) : forall i a b c,
  nth_error l i = Some a -> nth_error l (S i) = Some b -> nth_error l (S (S i)) = Some c ->
  consecutive l a b c.
Proof.
  induction l as [|e l IH]; intros [|i] a b c Ha Hb Hc; cbn in *; try discriminate.
  - injection Ha as <-. destruct l as [|b' [|c' l]]; try discriminate.
    injection Hb as <-. injection Hc as <-. now exists [], l.
  - destruct (IH i a b c Ha Hb Hc) as (l1 & l2 & ->). now exists (e :: l1), l2.
Qed.

Lemma adjacent_cons c l a b : adjacent l a b -> adjacent (c :: l) a b.
Proof. intros (l1 & l2 & ->). now exists (c :: l1), l2. Qed.

Lemma adjacent_cons_inv c l a b :
  adjacent (c :: l) a b -> (a = c /\ exists l', l = b :: l') \/ adjacent l a b.
Proof.
  intros ([|c' l1] & l2 & E); cbn in E; injection E as -> ->.
  - left. eauto.
  - right. now exists l1, l2.
Qed.

Lemma adjacent_app_mid X m Y a b :
  adjacent (X ++ m :: Y) a b -> adjacent (X ++ [m]) a b \/ adjacent (m :: Y) a b.
Proof.
  induction X as [|c X IH]; intros H; [now right|].
  cbn in H. apply adjacent_cons_inv in H. destruct H as [[-> [l' E]]|H].
  - left. destruct X as [|b' X]; cbn in E; injection E as E1 E2; subst.
    + now exists [], [].
    + now exists [], (X ++ [m]).
  - destruct (IH H) as [H'|H']; [left|right; exact H'].
    now apply adjacent_cons.
Qed.

Lemma adjacent_app_r l r a b : adjacent l a b -> adjacent (l ++ r) a b.
Proof.
  intros (l1 & l2 & ->). exists l1, (l2 ++ r). now rewrite <- app_assoc.
Qed.

Lemma consecutive_cons e l a b c : consecutive l a b c -> consecutive (e :: l) a b c.
Proof. intros (l1 & l2 & ->). now exists (e :: l1), l2. Qed.

Lemma consecutive_cons_inv e l a b c :
  consecutive (e :: l) a b c -> (a = e /\ exists l', l = b :: c :: l') \/ consecutive l a b c.
Proof.
  intros ([|e' l1] & l2 & E); cbn in E; injection E as -> ->.
  - left. eauto.
  - right. now exists l1, l2.
Qed.

Lemma consecutive_app_r l r a b c : consecutive l a b c -> consecutive (l ++ r) a b c.
Proof.
  intros (l1 & l2 & ->). exists l1, (l2 ++ r). now rewrite <- app_assoc.
Qed.

(** A triple of [X ++ m :: Y] lies in [X ++ [m]], in [m :: Y], or sits
    astride [m]. *)
Lemma consecutive_app_mid X m Y u v w :
  consecutive (X ++ m :: Y) u v w ->
  consecutive (X ++ [m]) u v w \/ consecutive (m :: Y) u v w \/
  (v = m /\ (exists X', X = X' ++ [u]) /\ (exists Y', Y = w :: Y')).
Proof.
  induction X as [|e X IH]; intros H; [now right; left|].
  cbn in H. apply consecutive_cons_inv in H. destruct H as [[-> [l' E]]|H].
  - destruct X as [|b' [|c' X]]; cbn in E.
    + injection E as E1 E2; subst. right. right.
      split; [reflexivity|]. split; [now exists []|eauto].
    + injection E as E1 E2 E3; subst. left. now exists [], [].
    + injection E as E1 E2 E3; subst. left. now exists [], (X ++ [m]).
  - destruct (IH H) as [H'|[H'|(-> & [X' ->] & HY)]].
    + left. now apply consecutive_cons.
    + right. now left.
    + right. right. split; [reflexivity|]. split; [now exists (e :: X')|exact HY].
Qed.

Lemma consecutive_snoc_inv l z u v w :
  consecutive (l ++ [z]) u v w ->
  consecutive l u v w \/ (w = z /\ exists K, l = K ++ [u; v]).
Proof.
  intros (l1 & l2 & E). destruct (@exists_last _ (w :: l2)) as (l2' & z' & E2); [discriminate|].
  destruct l2 as [|c l2].
  - right. replace (l1 ++ [u; v; w]) with ((l1 ++ [u; v]) ++ [w]) in E
      by (now rewrite <- app_assoc).
    apply app_inj_tail in E. destruct E as [-> ->]. split; [reflexivity|now exists l1].
  - left. destruct (@exists_last _ (c :: l2)) as (k & z'' & E3); [discriminate|].
    rewrite E3 in E.
    replace (l1 ++ u :: v :: w :: k ++ [z'']) with ((l1 ++ u :: v :: w :: k) ++ [z'']) in E
      by (now rewrite <- app_assoc).
    apply app_inj_tail in E. destruct E as [-> _]. now exists l1, k.
Qed.

(** Cyclic indexing unrolled: [H ++ firstn k H] holds [H[j mod n]] at [j]. *)
Lemma nth_error_wrap (H : list Point) (k j : nat) :
  (k <= length H)%nat -> (j < length H + k)%nat ->
  nth_error (H ++ firstn k H) j = nth_error H (j mod length H).
Proof.
  intros Hk Hj. destruct (Nat.lt_ge_cases j (length H)) as [Hlt|Hge].
  - rewrite nth_error_app1 by exact Hlt. now rewrite Nat.mod_small.
  - rewrite nth_error_app2 by exact Hge.
    assert (Hm : (j mod length H = j - length H)%nat).
    { symmetry. apply Nat.mod_unique with 1%nat; lia. }
    rewrite Hm, nth_error_firstn.
    destruct (Nat.ltb_spec (j - length H) k); [reflexivity|lia].
Qed.

Lemma vec_at_wrap (H : list Point) (k : nat) (i d : Z) :
  (k <= length H)%nat -> 0 <= i < size H -> 0 <= d <= Z.of_nat k ->
  vec_at H ((i + d) mod size H) = nth_error (H ++ firstn k H) (Z.to_nat i + Z.to_nat d).
Proof.
  intros Hk Hi Hd. unfold size in *.
  rewrite nth_error_wrap by lia.
  replace ((i + d) mod Z.of_nat (length H))
    with (Z.of_nat ((Z.to_nat i + Z.to_nat d) mod length H)).
  - apply vec_at_nat.
  - rewrite Nat2Z.inj_mod, Nat2Z.inj_add, !Z2Nat.id by lia. reflexivity.
Qed.

Lemma vec_at_nth (H : list Point) (i : Z) :
  0 <= i -> vec_at H i = nth_error H (Z.to_nat i).
Proof. intros Hi. unfold vec_at. destruct (Z.ltb_spec i 0); [lia|reflexivity]. Qed.

Lemma cyclic_edge_adjacent H a b :
  cyclic_edge H a b -> adjacent (H ++ firstn 1 H) a b.
Proof.
  intros (i & Ha & Hb). pose proof (vec_at_range _ _ _ Ha) as Hi.
  assert (Hk : (1 <= length H)%nat) by (unfold size in Hi; lia).
  rewrite (vec_at_wrap H 1 i 1) in Hb by lia.
  rewrite vec_at_nth in Ha by lia.
  apply (adjacent_of_nth _ (Z.to_nat i)).
  - rewrite nth_error_app1; [exact Ha|]. unfold size in Hi. lia.
  - replace (S (Z.to_nat i)) with (Z.to_nat i + Z.to_nat 1)%nat by lia. exact Hb.
Qed.

Lemma cyclic_triple_consecutive H a b c :
  (2 <= length H)%nat ->
  cyclic_triple H a b c -> consecutive (H ++ firstn 2 H) a b c.
Proof.
  intros Hk (i & Ha & Hb & Hc). pose proof (vec_at_range _ _ _ Ha) as Hi.
  rewrite (vec_at_wrap H 2 i 1) in Hb by lia.
  rewrite (vec_at_wrap H 2 i 2) in Hc by lia.
  rewrite vec_at_nth in Ha by lia.
  apply (consecutive_of_nth _ (Z.to_nat i)).
  - rewrite nth_error_app1; [exact Ha|]. unfold size in Hi. lia.
  - replace (S (Z.to_nat i)) with (Z.to_nat i + Z.to_nat 1)%nat by lia. exact Hb.
  - replace (S (S (Z.to_nat i))) with (Z.to_nat i + Z.to_nat 2)%nat by lia. exact Hc.
Qed.

Lemma adjacent_snoc_inv l z a b :
  adjacent (l ++ [z]) a b -> adjacent l a b \/ (b = z /\ exists K, l = K ++ [a]).
Proof.
  intros (l1 & l2 & E). destruct l2 as [|c l2].
  - right. replace (l1 ++ [a; b]) with ((l1 ++ [a]) ++ [b]) in E by (now rewrite <- app_assoc).
    apply app_inj_tail in E. destruct E as [-> ->]. split; [reflexivity|now exists l1].
  - left. destruct (@exists_last _ (c :: l2)) as (k & z' & E3); [discriminate|].
    rewrite E3 in E.
    replace (l1 ++ a :: b :: k ++ [z']) with ((l1 ++ a :: b :: k) ++ [z']) in E
      by (now rewrite <- app_assoc).
    apply app_inj_tail in E. destruct E as [-> _]. now exists l1, k.
Qed.

(** Every cyclic edge of [p0 :: A ++ pm :: B] is an edge of the lower chain
    [p0 :: A ++ [pm]] or of the upper chain [pm :: B ++ [p0]]. *)
Lemma hull_edge_cases p0 A pm B a b :
  cyclic_edge (p0 :: A ++ pm :: B) a b ->
  adjacent (p0 :: A ++ [pm]) a b \/ adjacent (pm :: B ++ [p0]) a b.
Proof.
  intros H. apply cyclic_edge_adjacent in H. cbn [firstn] in H.
  change ((p0 :: A ++ pm :: B) ++ [p0]) with (p0 :: (A ++ pm :: B) ++ [p0]) in H.
  rewrite <- app_assoc in H.
  change (p0 :: A ++ (pm :: B) ++ [p0]) with ((p0 :: A) ++ pm :: (B ++ [p0])) in H.
  apply adjacent_app_mid in H. exact H.
Qed.

Lemma hull_edges_left p0 mid pm A B q :
  let s := p0 :: mid ++ [pm] in
  chain_facts lex_le s (p0 :: A ++ [pm]) ->
  chain_facts lex_ge s (pm :: B ++ [p0]) ->
  In q s ->
  forall a b, cyclic_edge (p0 :: A ++ pm :: B) a b -> 0 <= cross_product a b q.
Proof.
  intros s FL FU Hq a b He.
  destruct (hull_edge_cases _ _ _ _ _ _ He) as [H|H].
  - now apply (cf_left _ _ _ FL).
  - now apply (cf_left _ _ _ FU).
Qed.

Lemma is_inside_small_hull p0 pm q :
  lex_le p0 q -> lex_le q pm ->
  0 <= cross_product p0 pm q -> 0 <= cross_product pm p0 q ->
  is_inside [p0; pm] q = Some true.
Proof.
  intros H1 H2 H3 H4. unfold is_inside.
  change (vec_at [p0; pm] 0) with (Some p0). change (vec_at [p0; pm] 1) with (Some pm).
  change (size [p0; pm]) with 2. cbn [Z.eqb Pos.eqb].
  assert (Hc : cross_product p0 pm q = 0).
  { rewrite (cross_product_swap pm p0 q) in H4. lia. }
  destruct (collinear_between_box p0 pm q H1 H2 Hc) as [[X1 X2] [Y1 Y2]].
  f_equal.
  repeat (apply andb_true_intro; split);
    try (apply Z.eqb_eq; assumption); try (apply Z.leb_le; assumption).
Qed.

Lemma is_inside_hull_of_sorted s q :
  (2 <= length s)%nat -> StronglySorted lex_le s -> In q s ->
  is_inside (hull_of_sorted s) q = Some true.
Proof.
  intros Hlen Hs Hq.
  destruct (list_ends s Hlen) as (p0 & mid & pm & ->).
  destruct (hull_chains p0 mid pm Hs) as (A & B & E & FL & FU).
  rewrite E.
  destruct (sorted_ends p0 mid pm q Hs Hq) as [Hlo Hhi].
  pose proof (hull_edges_left p0 mid pm A B q FL FU Hq) as Hedge.
  destruct (Nat.eq_dec (length A + length B) 0) as [Hz|Hnz].
  - assert (A = []) by (apply length_zero_iff_nil; lia).
    assert (B = []) by (apply length_zero_iff_nil; lia). subst A B.
    apply is_inside_small_hull; try assumption.
    + apply Hedge. exists 0. split; reflexivity.
    + apply Hedge. exists 1. split; reflexivity.
  - set (H := p0 :: A ++ pm :: B) in *.
    assert (Hsz : 3 <= size H).
    { unfold size, H. cbn [length]. rewrite length_app. cbn [length]. lia. }
    apply is_inside_of_edges.
    + exact Hsz.
    + intros i a b Ha Hb. apply Hedge. exists i. split; [exact Ha|].
      pose proof (vec_at_range _ _ _ Hb). pose proof (vec_at_range _ _ _ Ha).
      rewrite Z.mod_small by lia. exact Hb.
    + intros a b Ha Hb. apply Hedge. exists (size H - 1). split; [exact Ha|].
      rewrite Z.sub_add, Z.mod_same by lia. exact Hb.
Qed.

Lemma hull_of_sorted_sub s v :
  (2 <= length s)%nat -> StronglySorted lex_le s -> In v (hull_of_sorted s) -> In v s.
Proof.
  intros Hlen Hs Hv.
  destruct (list_ends s Hlen) as (p0 & mid & pm & ->).
  destruct (hull_chains p0 mid pm Hs) as (A & B & E & FL & FU).
  rewrite E in Hv.
  change (p0 :: A ++ pm :: B) with ((p0 :: A) ++ pm :: B) in Hv.
  apply in_app_or in Hv. destruct Hv as [Hv|Hv].
  - apply (cf_sub _ _ _ FL). change (p0 :: A ++ [pm]) with ((p0 :: A) ++ [pm]).
    apply in_or_app. now left.
  - apply (cf_sub _ _ _ FU). change (pm :: B ++ [p0]) with ((pm :: B) ++ [p0]).
    apply in_or_app. now left.
Qed.

Lemma is_inside_small pts q :
  (length pts <= 2)%nat -> In q pts -> is_inside pts q = Some true.
Proof.
  intros Hlen Hq. destruct pts as [|a [|b [|c pts]]]; cbn in Hlen; try lia.
  - destruct Hq.
  - destruct Hq as [<-|[]]. unfold is_inside, point_eqb.
    change (vec_at [a] 0) with (Some a). change (size [a]) with 1. cbn [Z.eqb Pos.eqb].
    now rewrite !Z.eqb_refl.
  - unfold is_inside.
    change (vec_at [a; b] 0) with (Some a). change (vec_at [a; b] 1) with (Some b).
    change (size [a; b]) with 2. cbn [Z.eqb Pos.eqb]. f_equal.
    assert (Ha : cross_product a b a = 0) by (rewrite cross_product_eq; ring).
    assert (Hb : cross_product a b b = 0) by (rewrite cross_product_eq; ring).
    destruct Hq as [<-|[<-|[]]];
      repeat (apply andb_true_intro; split);
      try (apply Z.eqb_eq; assumption); apply Z.leb_le; lia.
Qed.

(** C5. Hull containment: every input point passes [is_inside] against the
    polygon returned by [convex_hull], and every vertex of that polygon is
    one of the input points. *)
Theorem convex_hull_contains_input (sort : list Point -> list Point) (pts : list Point) :
  sort_spec sort ->
  (forall p, In p pts -> is_inside (snd (convex_hull sort pts)) p = Some true) /\
  (forall v, In v (snd (convex_hull sort pts)) -> In v pts).
Proof.
  intros Hsort. unfold convex_hull.
  destruct (Nat.leb_spec (length pts) 2) as [Hle|Hgt]; cbn [snd].
  - split; [intros p Hp; now apply is_inside_small|auto].
  - destruct (Hsort pts) as [Hperm Hsorted].
    assert (Hlen : (2 <= length (sort pts))%nat).
    { rewrite <- (Permutation_length Hperm). lia. }
    split.
    + intros p Hp. apply is_inside_hull_of_sorted; try assumption.
      now apply (Permutation_in _ Hperm).
    + intros v Hv. apply (Permutation_in _ (Permutation_sym Hperm)).
      now apply hull_of_sorted_sub.
Qed.

Lemma convex_hull_contains_input_witness :
  is_inside (snd (convex_hull insertion_sort
     [mkPoint 2 1 1; mkPoint 0 0 2; mkPoint 4 0 3; mkPoint 2 5 4; mkPoint 2 0 5]))
     (mkPoint 2 1 1) = Some true.
Proof.
  apply (convex_hull_contains_input insertion_sort _ insertion_sort_spec).
  now left.
Defined.

Lemma convex_hull_fst_perm sort pts :
  sort_spec sort -> Permutation pts (fst (convex_hull sort pts)).
Proof.
  intros Hsort. unfold convex_hull.
  destruct (length pts <=? 2)%nat; cbn [fst]; [reflexivity|apply Hsort].
Qed.

Lemma convex_hull_snd_sub sort pts v :
  sort_spec sort -> In v (snd (convex_hull sort pts)) -> In v pts.
Proof.
  intros Hsort. unfold convex_hull.
  destruct (Nat.leb_spec (length pts) 2) as [Hle|Hgt]; cbn [snd]; [auto|].
  destruct (Hsort pts) as [Hperm Hsorted]. intros Hv.
  apply (Permutation_in _ (Permutation_sym Hperm)).
  apply hull_of_sorted_sub; try assumption.
  rewrite <- (Permutation_length Hperm). lia.
Qed.

(** ** Strict convexity of the hull *)

Lemma geo_junction a b c q :
  lex_le a b -> lex_le c b -> ~ same_place a b -> ~ same_place c b ->
  cross_product a b c = 0 ->
  0 <= cross_product a b q -> 0 <= cross_product b c q ->
  cross_product a b q = 0 /\ cross_product b c q = 0.
Proof.
  intros H1 H2 N1 N2 Hc H3 H4. unfold same_place in *. coords.
  destruct a as [a1 a2 ?], b as [b1 b2 ?], c as [c1 c2 ?], q as [q1 q2 ?]; cbn in *.
  destruct (Z.eq_dec a1 b1) as [E|N].
  - subst a1. assert (a2 < b2) by lia. assert (c1 = b1) by nia. subst c1.
    assert (c2 < b2) by lia. split; nia.
  - assert (0 < b1 - a1) by lia.
    destruct (Z.eq_dec c1 b1) as [E'|N'].
    + subst c1. nia.
    + assert (0 < b1 - c1) by lia.
      assert (E : (b1 - c1) * ((b1 - a1) * (q2 - a2) - (b2 - a2) * (q1 - a1)) =
                  - (b1 - a1) * ((c1 - b1) * (q2 - b2) - (c2 - b2) * (q1 - b1))).
      { pose proof (f_equal (Z.mul (q1 - b1)) Hc) as Hq. lia. }
      split; nia.
Qed.

Lemma same_place_neg a b : same_place (neg_point a) (neg_point b) <-> same_place a b.
Proof. unfold same_place. cbn. lia. Qed.

Lemma geo_junction_rev a b c q :
  lex_ge a b -> lex_ge c b -> ~ same_place a b -> ~ same_place c b ->
  cross_product a b c = 0 ->
  0 <= cross_product a b q -> 0 <= cross_product b c q ->
  cross_product a b q = 0 /\ cross_product b c q = 0.
Proof.
  intros H1 H2 N1 N2 Hc H3 H4. rewrite lex_ge_neg in H1, H2.
  rewrite <- same_place_neg in N1, N2.
  rewrite <- (cross_product_neg a b c) in Hc.
  rewrite <- (cross_product_neg a b q) in H3 |- *.
  rewrite <- (cross_product_neg b c q) in H4 |- *.
  now apply (geo_junction _ _ (neg_point c)).
Qed.

Lemma cross_same_place_mid o a b : same_place a b -> cross_product o a b = 0.
Proof. intros [? ?]. rewrite cross_product_eq. nia. Qed.

Lemma cross_same_place_l o a b : same_place o a -> cross_product o a b = 0.
Proof. intros [? ?]. rewrite cross_product_eq. nia. Qed.

Lemma same_place_sym a b : same_place a b -> same_place b a.
Proof. unfold same_place. lia. Qed.

Lemma nil_dec (l : list Point) : l = [] \/ l <> [].
Proof. destruct l; [now left|right; discriminate]. Qed.

(** The turn at the vertex shared by the two chains is not tested by the
    code; it is strict because the hull has a third vertex. *)
Section Junction.
Variable ord : Point -> Point -> Prop.
Hypothesis ord_trans : forall a b c, ord a b -> ord b c -> ord a c.
Hypothesis ord_antisym : forall a b, ord a b -> ord b a -> same_place a b.
Hypothesis ord_same : forall a b, same_place a b -> ord a b.
Hypothesis ord_junction : forall a b c q,
  ord a b -> ord c b -> ~ same_place a b -> ~ same_place c b ->
  cross_product a b c = 0 ->
  0 <= cross_product a b q -> 0 <= cross_product b c q ->
  cross_product a b q = 0 /\ cross_product b c q = 0.
Variables (s : list Point) (q0 qm : Point) (A B : list Point).
Hypothesis ends : forall q, In q s -> ord q0 q /\ ord q qm.
Hypothesis first_chain : chain_facts ord s (q0 :: A ++ [qm]).
Hypothesis second_chain : chain_facts (fun a b => ord b a) s (qm :: B ++ [q0]).

Lemma squeeze q : In q s -> same_place q0 qm -> same_place q qm.
Proof.
  intros Hq Hsame. destruct (ends q Hq) as [H1 H2].
  apply ord_antisym; [exact H2|].
  apply ord_trans with q0; [|exact H1]. apply ord_same. now apply same_place_sym.
Qed.

Lemma junction_strict u w :
  A <> [] \/ B <> [] ->
  (exists K, q0 :: A = K ++ [u]) -> (exists B', B ++ [q0] = w :: B') ->
  0 < cross_product u qm w.
Proof.
  intros Hne [K EK] [B' EB].
  assert (Adj1 : adjacent (q0 :: A ++ [qm]) u qm).
  { exists K, []. change (q0 :: A ++ [qm]) with ((q0 :: A) ++ [qm]).
    rewrite EK, <- app_assoc. reflexivity. }
  assert (Adj2 : adjacent (qm :: B ++ [q0]) qm w).
  { exists [], B'. cbn. now rewrite EB. }
  assert (Hu : In u s).
  { apply (cf_sub _ _ _ first_chain). change (q0 :: A ++ [qm]) with ((q0 :: A) ++ [qm]).
    rewrite EK. apply in_or_app. left. apply in_or_app. right. now left. }
  assert (Hw : In w s).
  { apply (cf_sub _ _ _ second_chain). right. rewrite EB. now left. }
  pose proof (cf_left _ _ _ first_chain u qm w Adj1 Hw) as Hge.
  destruct (Z.eq_dec (cross_product u qm w) 0) as [Hz|]; [exfalso|lia].
  pose proof (cf_order _ _ _ first_chain u qm Adj1) as Ou.
  pose proof (cf_order _ _ _ second_chain qm w Adj2) as Ow. cbn beta in Ow.
  destruct (nil_dec A) as [EA|NA].
  - (* the first chain is the single edge [q0 -> qm] *)
    subst A. destruct Hne as [[]|NB]; [reflexivity|].
    destruct B as [|b0 B1]; [congruence|]. cbn in EB. injection EB as -> <-.
    destruct K as [|? [|? ?]]; cbn in EK; try discriminate. injection EK as <-.
    assert (Hex : exists w', consecutive (qm :: w :: B1 ++ [q0]) qm w w' /\ In w' s).
    { destruct B1 as [|b1 B1].
      - exists q0. split; [now exists [], []|].
        apply (cf_sub _ _ _ second_chain). right. right. now left.
      - exists b1. split; [now exists [], (B1 ++ [q0])|].
        apply (cf_sub _ _ _ second_chain). right. right. now left. }
    destruct Hex as (w' & Hcons & Hw').
    pose proof (cf_turn _ _ _ second_chain qm w w' Hcons) as Hturn.
    assert (Nw : ~ same_place w qm).
    { intros Hs. rewrite (cross_same_place_l qm w w') in Hturn; [lia|].
      now apply same_place_sym. }
    assert (Nu : ~ same_place q0 qm).
    { intros Hs. apply Nw. now apply squeeze. }
    destruct (ord_junction q0 qm w w' Ou Ow Nu Nw Hz) as [_ Hbad].
    + now apply (cf_left _ _ _ first_chain).
    + lia.
    + lia.
  - (* the first chain has an interior vertex before [u] *)
    assert (Hex : exists K' u', K = K' ++ [u']).
    { destruct (@exists_last _ K) as (K' & u' & ->); [|eauto].
      intros ->. cbn in EK. injection EK as _ EA. now apply NA. }
    destruct Hex as (K' & u' & ->).
    assert (Hcons : consecutive (q0 :: A ++ [qm]) u' u qm).
    { exists K', []. change (q0 :: A ++ [qm]) with ((q0 :: A) ++ [qm]).
      rewrite EK, <- !app_assoc. reflexivity. }
    pose proof (cf_turn _ _ _ first_chain u' u qm Hcons) as Hturn.
    assert (Hu' : In u' s).
    { apply (cf_sub _ _ _ first_chain). change (q0 :: A ++ [qm]) with ((q0 :: A) ++ [qm]).
      rewrite EK. apply in_or_app. left. apply in_or_app. left. apply in_or_app.
      right. now left. }
    assert (Nu : ~ same_place u qm).
    { intros Hs. rewrite (cross_same_place_mid u' u qm Hs) in Hturn. lia. }
    assert (Nw : ~ same_place w qm).
    { destruct B as [|b0 B1].
      - cbn in EB. injection EB as <- _. intros Hs. apply Nu. now apply squeeze.
      - cbn in EB. injection EB as -> <-.
        assert (Hex : exists w', consecutive (qm :: w :: B1 ++ [q0]) qm w w').
        { destruct B1 as [|b1 B1].
          - exists q0. now exists [], [].
          - exists b1. now exists [], (B1 ++ [q0]). }
        destruct Hex as (w' & Hc').
        pose proof (cf_turn _ _ _ second_chain qm w w' Hc') as Ht'.
        intros Hs. rewrite (cross_same_place_l qm w w') in Ht'; [lia|].
        now apply same_place_sym. }
    destruct (ord_junction u qm w u' Ou Ow Nu Nw Hz) as [Hbad _].
    + now apply (cf_left _ _ _ first_chain).
    + now apply (cf_left _ _ _ second_chain).
    + rewrite (cross_product_rot u' u qm) in Hturn. lia.
Qed.

End Junction.

Lemma lex_ge_trans a b c : lex_ge a b -> lex_ge b c -> lex_ge a c.
Proof. unfold lex_ge. intros H1 H2. now apply lex_le_trans with b. Qed.

Lemma lex_ge_antisym a b : lex_ge a b -> lex_ge b a -> same_place a b.
Proof. unfold lex_ge. intros H1 H2. now apply lex_le_antisym. Qed.

Lemma lex_le_same a b : same_place a b -> lex_le a b.
Proof. intros [? ?]. apply lex_le_iff. lia. Qed.

Lemma lex_ge_same a b : same_place a b -> lex_ge a b.
Proof. intros [? ?]. apply lex_le_iff. lia. Qed.

(** Strict left turns all around the hull of a sorted vector. *)
Lemma hull_of_sorted_turns s u v w :
  (2 <= length s)%nat -> StronglySorted lex_le s ->
  3 <= size (hull_of_sorted s) ->
  cyclic_triple (hull_of_sorted s) u v w -> 0 < cross_product u v w.
Proof.
  intros Hlen Hs Hsz Ht.
  destruct (list_ends s Hlen) as (p0 & mid & pm & ->).
  destruct (hull_chains p0 mid pm Hs) as (A & B & E & FL & FU).
  rewrite E in Hsz, Ht.
  assert (Hne : A <> [] \/ B <> []).
  { destruct A; [|left; discriminate]. destruct B; [|right; discriminate].
    unfold size in Hsz. cbn in Hsz. lia. }
  assert (Hends : forall q, In q (p0 :: mid ++ [pm]) -> lex_le p0 q /\ lex_le q pm).
  { intros q Hq. now apply sorted_ends with mid. }
  apply cyclic_triple_consecutive in Ht.
  2:{ cbn [length]. rewrite length_app. cbn. lia. }
  assert (Hfirst : exists h1 R, A ++ [pm] = h1 :: R /\
                   firstn 2 (p0 :: A ++ pm :: B) = [p0; h1]).
  { destruct A as [|a0 A'].
    - exists pm, []. split; reflexivity.
    - exists a0, (A' ++ [pm]). split; reflexivity. }
  destruct Hfirst as (h1 & R & Eh & Ef). rewrite Ef in Ht.
  replace ((p0 :: A ++ pm :: B) ++ [p0; h1])
    with (((p0 :: A) ++ pm :: (B ++ [p0])) ++ [h1]) in Ht
    by (cbn; rewrite <- !app_assoc; cbn; rewrite <- !app_assoc; reflexivity).
  apply consecutive_snoc_inv in Ht. destruct Ht as [Ht|[-> [K EK]]].
  - apply consecutive_app_mid in Ht. destruct Ht as [Ht|[Ht|(-> & HX & HY)]].
    + now apply (cf_turn _ _ _ FL).
    + now apply (cf_turn _ _ _ FU).
    + apply (junction_strict lex_le lex_le_trans lex_le_antisym lex_le_same geo_junction
               (p0 :: mid ++ [pm]) p0 pm A B Hends FL FU); assumption.
  - replace ((p0 :: A) ++ pm :: B ++ [p0]) with (((p0 :: A) ++ pm :: B) ++ [p0]) in EK
      by (now rewrite <- app_assoc).
    replace (K ++ [u; v]) with ((K ++ [u]) ++ [v]) in EK by (now rewrite <- app_assoc).
    apply app_inj_tail in EK. destruct EK as [EK <-].
    assert (HK : exists K', pm :: B = K' ++ [u]).
    { destruct (@exists_last _ (pm :: B)) as (K' & u' & EB); [discriminate|].
      exists K'. rewrite EB in EK |- *.
      replace ((p0 :: A) ++ K' ++ [u']) with (((p0 :: A) ++ K') ++ [u']) in EK
        by (now rewrite <- app_assoc).
      apply app_inj_tail in EK. destruct EK as [_ ->]. reflexivity. }
    apply (junction_strict lex_ge lex_ge_trans lex_ge_antisym lex_ge_same geo_junction_rev
             (p0 :: mid ++ [pm]) pm p0 B A).
    + intros q Hq. destruct (Hends q Hq). now split.
    + exact FU.
    + exact FL.
    + tauto.
    + exact HK.
    + now exists R.
Qed.

(** C6. Strict convexity of built hulls: when [convex_hull] returns a polygon
    with at least three vertices, every three cyclically consecutive vertices
    make a strict counter-clockwise turn. *)
Theorem convex_hull_strict_turns (sort : list Point -> list Point) (pts : list Point)
    (u v w : Point) :
  sort_spec sort ->
  3 <= size (snd (convex_hull sort pts)) ->
  cyclic_triple (snd (convex_hull sort pts)) u v w ->
  0 < cross_product u v w.
Proof.
  intros Hsort. unfold convex_hull.
  destruct (Nat.leb_spec (length pts) 2) as [Hle|Hgt]; cbn [snd].
  - unfold size. lia.
  - destruct (Hsort pts) as [Hperm Hsorted].
    apply hull_of_sorted_turns; [|exact Hsorted].
    rewrite <- (Permutation_length Hperm). lia.
Qed.

Lemma convex_hull_strict_turns_witness :
  0 < cross_product (mkPoint 0 0 2) (mkPoint 4 0 3) (mkPoint 2 5 4).
Proof.
  apply (convex_hull_strict_turns insertion_sort
    [mkPoint 2 1 1; mkPoint 0 0 2; mkPoint 4 0 3; mkPoint 2 5 4; mkPoint 2 0 5]).
  - exact insertion_sort_spec.
  - vm_compute. discriminate.
  - exists 0. vm_compute. repeat split.
Defined.

(** ** Distinct vertices; the vector after the call *)

Lemma ordpairs_nth (R : Point -> Point -> Prop) l :
  ForallOrdPairs R l ->
  forall i j a b, (i < j)%nat -> nth_error l i = Some a -> nth_error l j = Some b -> R a b.
Proof.
  induction 1 as [|c l Hall Hl IH]; intros i j a b Hij Ha Hb.
  - destruct i; discriminate.
  - destruct j as [|j]; [lia|]. cbn in Hb. destruct i as [|i]; cbn in Ha.
    + injection Ha as <-. rewrite Forall_forall in Hall. apply Hall.
      now apply nth_error_In with j.
    + apply (IH i j); [lia|assumption..].
Qed.

Lemma ordpairs_app (R : Point -> Point -> Prop) l1 l2 :
  ForallOrdPairs R l1 -> ForallOrdPairs R l2 ->
  (forall a b, In a l1 -> In b l2 -> R a b) ->
  ForallOrdPairs R (l1 ++ l2).
Proof.
  induction 1 as [|c l1 Hall Hl IH]; intros H2 H12; [exact H2|].
  cbn. constructor.
  - apply Forall_app. split; [exact Hall|].
    apply Forall_forall. intros b Hb. apply H12; [now left|exact Hb].
  - apply IH; [exact H2|]. intros a b Ha Hb. apply H12; [now right|exact Hb].
Qed.

Lemma ordpairs_of_sorted (R S : Point -> Point -> Prop) l :
  (forall a b, R a b -> S a b) -> StronglySorted R l -> ForallOrdPairs S l.
Proof.
  intros HRS. induction 1 as [|c l Hs IH Hall]; constructor.
  - eapply Forall_impl; [|exact Hall]. auto.
  - exact IH.
Qed.

Lemma ordpairs_prefix (R : Point -> Point -> Prop) l z :
  ForallOrdPairs R (l ++ [z]) -> ForallOrdPairs R l /\ Forall (fun a => R a z) l.
Proof.
  induction l as [|c l IH]; intros H; [split; constructor|].
  cbn in H. inversion H as [|? ? Hall Hl]; subst.
  destruct (IH Hl) as [H1 H2]. apply Forall_app in Hall. destruct Hall as [Ha Hz].
  split; constructor; auto. now inversion Hz.
Qed.

Lemma distinct_of_ordpairs H :
  ForallOrdPairs apart H -> distinct_places H.
Proof.
  intros HP i j a b Ha Hb Hij.
  pose proof (vec_at_range _ _ _ Ha). pose proof (vec_at_range _ _ _ Hb).
  rewrite vec_at_nth in Ha, Hb by lia.
  destruct (Z.lt_total i j) as [L|[L|L]]; [|lia|].
  - apply (ordpairs_nth apart H HP (Z.to_nat i) (Z.to_nat j)); [lia|assumption..].
  - intros Hs. apply same_place_sym in Hs. revert Hs.
    apply (ordpairs_nth apart H HP (Z.to_nat j) (Z.to_nat i)); [lia|assumption..].
Qed.

Lemma sorted_of_adjacent (R : Point -> Point -> Prop) l :
  (forall a b, adjacent l a b -> R a b) -> Sorted R l.
Proof.
  induction l as [|c l IH]; intros H; constructor.
  - apply IH. intros a b Hab. apply H. now apply adjacent_cons.
  - destruct l as [|d l]; constructor. apply H. now exists [], l.
Qed.

Lemma adjacent_extend l a b :
  adjacent l a b -> (3 <= length l)%nat ->
  (exists c, consecutive l c a b) \/ (exists c, consecutive l a b c).
Proof.
  intros (l1 & l2 & ->) Hlen.
  destruct l2 as [|c l2].
  - left. destruct (@exists_last _ l1) as (k & c & ->).
    { intros ->. cbn in Hlen. lia. }
    exists c, k, []. now rewrite <- app_assoc.
  - right. now exists c, l1, l2.
Qed.

Section StrictChain.
Variable ord : Point -> Point -> Prop.
Hypothesis ord_trans : forall a b c, ord a b -> ord b c -> ord a c.
Hypothesis ord_antisym : forall a b, ord a b -> ord b a -> same_place a b.
Hypothesis ord_same : forall a b, same_place a b -> ord a b.

Lemma strictly_trans a b c : strictly ord a b -> strictly ord b c -> strictly ord a c.
Proof.
  intros [H1 N1] [H2 N2]. split; [eauto|].
  intros Hs. apply N1. apply ord_antisym; [exact H1|].
  apply ord_trans with c; [exact H2|]. apply ord_same. now apply same_place_sym.
Qed.

Lemma chain_strictly_sorted s q0 A qm :
  chain_facts ord s (q0 :: A ++ [qm]) -> ~ same_place q0 qm ->
  StronglySorted (strictly ord) (q0 :: A ++ [qm]).
Proof.
  intros F Hne. apply Sorted_StronglySorted.
  { intros a b c. apply strictly_trans. }
  apply sorted_of_adjacent. intros a b Hab. split; [now apply (cf_order _ _ _ F)|].
  destruct A as [|a0 A].
  - destruct Hab as ([|? [|? ?]] & l2 & E); cbn in E; try discriminate.
    + injection E as -> -> _. exact Hne.
    + injection E as _ _ E. destruct l; discriminate.
  - destruct (adjacent_extend _ _ _ Hab) as [[c Hc]|[c Hc]].
    { cbn [length]. rewrite length_app. cbn. lia. }
    + pose proof (cf_turn _ _ _ F c a b Hc) as Ht.
      intros Hs. rewrite (cross_same_place_mid c a b Hs) in Ht. lia.
    + pose proof (cf_turn _ _ _ F a b c Hc) as Ht.
      intros Hs. rewrite (cross_same_place_l a b c Hs) in Ht. lia.
Qed.

End StrictChain.

Lemma geo_wedge am v ap bm v' :
  0 < cross_product am v ap -> same_place v v' ->
  lex_le am v -> lex_le v' bm -> ~ same_place v' bm ->
  0 <= cross_product am v bm -> 0 <= cross_product bm v' am ->
  0 <= cross_product v ap bm -> False.
Proof.
  intros Ht Hs H1 H2 N H3 H4 H5. unfold same_place in *. coords.
  destruct am as [a1 a2 ?], v as [v1 v2 ?], ap as [c1 c2 ?], bm as [b1 b2 ?],
    v' as [w1 w2 ?]; cbn in *.
  destruct Hs as [-> ->].
  assert (E : (w1 - a1) * (b2 - w2) = (w2 - a2) * (b1 - w1)) by nia.
  destruct (Z.eq_dec a1 w1) as [Ea|Na].
  - subst a1.
    assert (a2 < w2).
    { destruct (Z.eq_dec a2 w2) as [->|]; [|lia].
      ring_simplify in Ht. lia. }
    assert (b1 = w1) by nia. subst b1.
    assert (w2 < b2) by lia. nia.
  - assert (0 < w1 - a1) by lia.
    assert (0 <= b1 - w1) by lia.
    assert (P : (w1 - a1) * ((c1 - w1) * (b2 - w2) - (c2 - w2) * (b1 - w1)) =
                - (b1 - w1) * ((w1 - a1) * (c2 - a2) - (w2 - a2) * (c1 - a1))).
    { pose proof (f_equal (Z.mul (c1 - w1)) E) as Q. lia. }
    destruct (Z.eq_dec b1 w1) as [Eb|Nb].
    + subst b1. nia.
    + nia.
Qed.

Lemma consecutive_adjacent l a b c :
  consecutive l a b c -> adjacent l a b /\ adjacent l b c.
Proof.
  intros (l1 & l2 & ->). split.
  - now exists l1, (c :: l2).
  - exists (l1 ++ [a]), l2. now rewrite <- app_assoc.
Qed.

Lemma interior_neighbours q0 (A : list Point) qm a :
  In a A -> exists am ap, consecutive (q0 :: A ++ [qm]) am a ap.
Proof.
  intros Ha. apply in_split in Ha. destruct Ha as (A1 & A2 & ->).
  destruct (@exists_last _ (q0 :: A1)) as (K & am & EK); [discriminate|].
  assert (Hap : exists ap R, A2 ++ [qm] = ap :: R).
  { destruct A2 as [|a2 A2]; [now exists qm, []|now exists a2, (A2 ++ [qm])]. }
  destruct Hap as (ap & R & ER).
  exists am, ap, K, R.
  change (q0 :: (A1 ++ a :: A2) ++ [qm]) with ((q0 :: A1 ++ a :: A2) ++ [qm]).
  change (q0 :: A1 ++ a :: A2) with ((q0 :: A1) ++ a :: A2).
  rewrite EK, <- !app_assoc. cbn. now rewrite ER.
Qed.

Lemma hull_of_sorted_distinct s :
  (2 <= length s)%nat -> StronglySorted lex_le s ->
  (exists a b, In a s /\ In b s /\ ~ same_place a b) ->
  distinct_places (hull_of_sorted s).
Proof.
  intros Hlen Hs (a0 & b0 & Ha0 & Hb0 & Hab).
  destruct (list_ends s Hlen) as (p0 & mid & pm & ->).
  destruct (hull_chains p0 mid pm Hs) as (A & B & E & FL & FU).
  rewrite E.
  assert (Hends : forall q, In q (p0 :: mid ++ [pm]) -> lex_le p0 q /\ lex_le q pm).
  { intros q Hq. now apply sorted_ends with mid. }
  assert (Hne : ~ same_place p0 pm).
  { intros Hsame. apply Hab.
    assert (G : forall q, In q (p0 :: mid ++ [pm]) -> same_place q pm).
    { intros q Hq. destruct (Hends q Hq).
      apply lex_le_antisym; [assumption|].
      apply lex_le_trans with p0; [|assumption]. apply lex_le_same.
      now apply same_place_sym. }
    destruct (G a0 Ha0), (G b0 Hb0). split; congruence. }
  pose proof (chain_strictly_sorted lex_le lex_le_trans lex_le_antisym lex_le_same
                _ p0 A pm FL Hne) as SL.
  pose proof (chain_strictly_sorted lex_ge lex_ge_trans lex_ge_antisym lex_ge_same
                _ pm B p0 FU (fun H => Hne (same_place_sym _ _ H))) as SU.
  apply (ordpairs_of_sorted _ apart) in SL; [|now intros ? ? [_ ?]].
  apply (ordpairs_of_sorted _ apart) in SU; [|now intros ? ? [_ ?]].
  change (p0 :: A ++ [pm]) with ((p0 :: A) ++ [pm]) in SL.
  change (pm :: B ++ [p0]) with ((pm :: B) ++ [p0]) in SU.
  apply ordpairs_prefix in SL, SU. destruct SL as [SL1 SL2], SU as [SU1 SU2].
  rewrite Forall_forall in SL2, SU2.
  apply distinct_of_ordpairs.
  change (p0 :: A ++ pm :: B) with ((p0 :: A) ++ pm :: B).
  apply ordpairs_app; [exact SL1|exact SU1|].
  intros a b Ha Hb.
  destruct Hb as [<-|Hb]; [now apply SL2|].
  destruct Ha as [<-|Ha].
  { intros Hsame. apply (SU2 b); [now right|]. now apply same_place_sym. }
  destruct (interior_neighbours p0 A pm a Ha) as (am & ap & Hca).
  destruct (interior_neighbours pm B p0 b Hb) as (bm & bp & Hcb).
  destruct (consecutive_adjacent _ _ _ _ Hca) as [Ad1 Ad2].
  destruct (consecutive_adjacent _ _ _ _ Hcb) as [Ad3 Ad4].
  assert (Ham : In am (p0 :: mid ++ [pm])).
  { apply (cf_sub _ _ _ FL). destruct Hca as (l1 & l2 & ->). apply in_or_app. right. now left. }
  assert (Hbm : In bm (p0 :: mid ++ [pm])).
  { apply (cf_sub _ _ _ FU). destruct Hcb as (l1 & l2 & ->). apply in_or_app. right. now left. }
  intros Hsame.
  apply (geo_wedge am a ap bm b).
  - now apply (cf_turn _ _ _ FL).
  - exact Hsame.
  - now apply (cf_order _ _ _ FL).
  - exact (cf_order _ _ _ FU bm b Ad3).
  - pose proof (cf_turn _ _ _ FU bm b bp Hcb) as Ht. intros Hs'.
    rewrite (cross_same_place_l bm b bp) in Ht; [lia|]. now apply same_place_sym.
  - now apply (cf_left _ _ _ FL).
  - now apply (cf_left _ _ _ FU).
  - now apply (cf_left _ _ _ FL).
Qed.

(** C7 (as stated) fails: a two-point input with coincident points is
    returned as it is. *)
Lemma convex_hull_keeps_duplicates :
  ~ distinct_places (snd (convex_hull insertion_sort [mkPoint 0 0 1; mkPoint 0 0 2])).
Proof.
  intros H. apply (H 0 1 (mkPoint 0 0 1) (mkPoint 0 0 2)); try reflexivity.
  - discriminate.
  - split; reflexivity.
Qed.

(** Three coincident points also leave two equal vertices. *)
Lemma convex_hull_coincident_points :
  snd (convex_hull insertion_sort [mkPoint 0 0 1; mkPoint 0 0 2; mkPoint 0 0 3]) =
  [mkPoint 0 0 3; mkPoint 0 0 1].
Proof. reflexivity. Qed.

(** C7, amended. An input of at least three points that do not all coincide
    yields a polygon without two vertices at the same coordinates; an input
    of at most two points is returned unchanged. *)
Theorem convex_hull_distinct_vertices (sort : list Point -> list Point) (pts : list Point) :
  sort_spec sort ->
  ((3 <= length pts)%nat ->
   (exists a b, In a pts /\ In b pts /\ ~ same_place a b) ->
   distinct_places (snd (convex_hull sort pts))) /\
  ((length pts <= 2)%nat -> snd (convex_hull sort pts) = pts).
Proof.
  intros Hsort. unfold convex_hull. split.
  - intros Hlen (a & b & Ha & Hb & Hab).
    destruct (Nat.leb_spec (length pts) 2) as [Hle|Hgt]; [lia|]. cbn [snd].
    destruct (Hsort pts) as [Hperm Hsorted].
    apply hull_of_sorted_distinct; [|exact Hsorted|].
    + rewrite <- (Permutation_length Hperm). lia.
    + exists a, b. repeat split; try assumption; now apply (Permutation_in _ Hperm).
  - intros Hlen. destruct (Nat.leb_spec (length pts) 2) as [Hle|Hgt]; [reflexivity|lia].
Qed.

Lemma convex_hull_distinct_vertices_witness :
  distinct_places (snd (convex_hull insertion_sort
    [mkPoint 0 0 1; mkPoint 0 0 2; mkPoint 3 0 3; mkPoint 1 0 4; mkPoint 0 2 5])).
Proof.
  apply (convex_hull_distinct_vertices insertion_sort _ insertion_sort_spec).
  - cbn. lia.
  - exists (mkPoint 0 0 1), (mkPoint 3 0 3). unfold same_place. cbn.
    repeat split; try tauto. lia.
Defined.

(** C3 (as stated) fails: the caller's vector comes back reordered. *)
Lemma convex_hull_reorders_input :
  fst (convex_hull insertion_sort [mkPoint 1 0 1; mkPoint 0 0 2; mkPoint 0 1 3]) <>
  [mkPoint 1 0 1; mkPoint 0 0 2; mkPoint 0 1 3].
Proof. vm_compute. discriminate. Qed.

(** The reordering does not depend on the sorting algorithm. *)
Lemma convex_hull_reorders_input_any_sort sort :
  sort_spec sort ->
  fst (convex_hull sort [mkPoint 1 0 1; mkPoint 0 0 2; mkPoint 0 1 3]) <>
  [mkPoint 1 0 1; mkPoint 0 0 2; mkPoint 0 1 3].
Proof.
  intros Hsort E. unfold convex_hull in E. cbn [length Nat.leb fst] in E.
  destruct (Hsort [mkPoint 1 0 1; mkPoint 0 0 2; mkPoint 0 1 3]) as [_ Hs].
  rewrite E in Hs. inversion Hs as [|? ? _ Hall]; subst.
  inversion Hall as [|? ? Hbad _]; subst. discriminate Hbad.
Qed.

(** C3, amended. [convex_hull] leaves a vector of at most two points as it
    is; a longer vector is sorted in place: afterwards it holds the same
    points, ids included, in nondecreasing (x, y) order. *)
Theorem convex_hull_input_after (sort : list Point -> list Point) (pts : list Point) :
  sort_spec sort ->
  Permutation pts (fst (convex_hull sort pts)) /\
  ((length pts <= 2)%nat -> fst (convex_hull sort pts) = pts) /\
  ((3 <= length pts)%nat -> StronglySorted lex_le (fst (convex_hull sort pts))).
Proof.
  intros Hsort. unfold convex_hull. destruct (Hsort pts) as [Hperm Hsorted].
  destruct (Nat.leb_spec (length pts) 2) as [Hle|Hgt]; cbn [fst].
  - split; [reflexivity|]. split; [reflexivity|lia].
  - split; [exact Hperm|]. split; [lia|auto].
Qed.

Lemma convex_hull_input_after_witness :
  Permutation [mkPoint 1 0 1; mkPoint 0 0 2; mkPoint 0 1 3]
    (fst (convex_hull insertion_sort [mkPoint 1 0 1; mkPoint 0 0 2; mkPoint 0 1 3])).
Proof.
  apply (convex_hull_input_after insertion_sort _ insertion_sort_spec).
Defined.

(** ** Locator: soundness and termination *)

Lemma rem_range a n : 0 <= a -> 0 < n -> 0 <= Z.rem a n < n.
Proof. intros Ha Hn. apply Z.rem_bound_pos; lia. Qed.

Lemma rem_mod a n : 0 <= a -> 0 < n -> Z.rem a n = a mod n.
Proof. intros Ha Hn. apply Z.rem_mod_nonneg; lia. Qed.

Section LocatorTotal.
Variables (A B : Point) (poly : list Point).
Let n : Z := size poly.

Lemma dot_some i : 0 <= i < n -> exists v, dot A B poly i = Some v.
Proof.
  intros Hi. unfold dot. destruct (vec_at_some poly i Hi) as [p ->]. eauto.
Qed.

Lemma cp_some i : 0 <= i < n -> exists v, cp A B poly i = Some v.
Proof.
  intros Hi. unfold cp. destruct (vec_at_some poly i Hi) as [p ->]. eauto.
Qed.

Lemma sample_loop_total maximize step : 1 <= step ->
  forall fuel i best best_val,
    (Z.to_nat (n - i) <= fuel)%nat -> 0 <= i -> 0 <= best < n ->
    exists b v, sample_loop A B poly fuel maximize step i best best_val = Some (b, v) /\
                0 <= b < n.
Proof.
  intros Hstep. induction fuel as [|fuel IH]; intros i best best_val Hf Hi Hb;
    cbn [sample_loop]; fold n.
  - destruct (Z.ltb_spec i n); [lia|]. eauto.
  - destruct (Z.ltb_spec i n) as [Hlt|Hge]; [|eauto].
    destruct (dot_some i) as [v ->]; [lia|].
    destruct (better maximize v best_val); apply IH; lia.
Qed.

Lemma climb_loop_total maximize :
  forall fuel iter curr,
    (Z.to_nat (n - iter) <= fuel)%nat -> 0 <= iter -> 0 <= curr < n ->
    exists c k, climb_loop A B poly fuel maximize iter curr = Some (c, k) /\
                0 <= c < n /\ iter <= k <= Z.max iter n.
Proof.
  induction fuel as [|fuel IH]; intros iter curr Hf Hi Hc; cbn [climb_loop]; fold n.
  - destruct (Z.ltb_spec iter n); [lia|]. exists curr, iter. split; [reflexivity|lia].
  - destruct (Z.ltb_spec iter n) as [Hlt|Hge].
    2:{ exists curr, iter. split; [reflexivity|lia]. }
    pose proof (rem_range (curr + 1) n ltac:(lia) ltac:(lia)) as Hn.
    pose proof (rem_range (curr - 1 + n) n ltac:(lia) ltac:(lia)) as Hp.
    destruct (dot_some curr Hc) as [vc ->].
    destruct (dot_some _ Hn) as [vn ->].
    destruct (dot_some _ Hp) as [vp ->].
    destruct (better maximize vn vc).
    + destruct (IH (iter + 1) (Z.rem (curr + 1) n)) as (c & k & E & H1 & H2); try lia.
      exists c, k. split; [exact E|lia].
    + destruct (better maximize vp vc).
      * destruct (IH (iter + 1) (Z.rem (curr - 1 + n) n)) as (c & k & E & H1 & H2); try lia.
        exists c, k. split; [exact E|lia].
      * exists curr, iter. split; [reflexivity|lia].
Qed.

Lemma hill_climb_run_total maximize :
  1 <= n ->
  exists idx iters, hill_climb_run A B poly maximize = Some (idx, iters) /\
                    0 <= idx < n /\ 0 <= iters <= n.
Proof.
  intros Hn. unfold hill_climb_run. fold n.
  destruct (dot_some 0) as [v0 ->]; [lia|].
  destruct (sample_loop_total maximize (Z.max 1 (Z.quot n 20)) ltac:(lia)
              (Z.to_nat n) 0 0 v0) as (b & v & -> & Hb); try lia.
  cbn [fst].
  destruct (climb_loop_total maximize (Z.to_nat n) 0 b) as (c & k & -> & H1 & H2); try lia.
  exists c, k. split; [reflexivity|lia].
Qed.

Lemma chain_step_narrows start L R L' R' :
  0 <= L -> L + 1 < R ->
  chain_step A B poly start L R = Some (L', R') ->
  L <= L' /\ L' < R' /\ R' <= R /\ R' - L' < R - L.
Proof.
  intros HL HR. unfold chain_step.
  rewrite Z.quot_div_nonneg by lia.
  assert (Hm : L < (L + R) / 2 < R).
  { pose proof (Z.div_mod (L + R) 2 ltac:(lia)) as D.
    pose proof (Z.mod_pos_bound (L + R) 2 ltac:(lia)) as M. lia. }
  destruct (cp A B poly (Z.rem (start + (L + R) / 2) (size poly))); [|discriminate].
  destruct (cp A B poly start); [|discriminate].
  destruct (sign z =? sign z0); intros E; injection E as <- <-; lia.
Qed.

Lemma chain_step_total start L R :
  0 <= start < n -> 0 <= L -> L + 1 < R ->
  exists L' R', chain_step A B poly start L R = Some (L', R').
Proof.
  intros Hs HL HR. unfold chain_step. fold n.
  rewrite Z.quot_div_nonneg by lia.
  assert (Hm : L < (L + R) / 2 < R).
  { pose proof (Z.div_mod (L + R) 2 ltac:(lia)) as D.
    pose proof (Z.mod_pos_bound (L + R) 2 ltac:(lia)) as M. lia. }
  destruct (cp_some (Z.rem (start + (L + R) / 2) n)) as [ci ->].
  { apply rem_range; lia. }
  destruct (cp_some start Hs) as [cs ->].
  destruct (sign ci =? sign cs); eauto.
Qed.

Lemma chain_search_total start :
  0 <= start < n ->
  forall fuel L R, (Z.to_nat (R - L) <= fuel)%nat -> 0 <= L ->
    exists L' R', chain_search A B poly fuel start L R = Some (L', R') /\ 0 <= L'.
Proof.
  intros Hs. induction fuel as [|fuel IH]; intros L R Hf HL; cbn [chain_search].
  - destruct (Z.ltb_spec (L + 1) R); [lia|]. exists L, R. now split.
  - destruct (Z.ltb_spec (L + 1) R) as [Hlt|Hge]; [|exists L, R; now split].
    destruct (chain_step_total start L R Hs HL Hlt) as (L' & R' & E). rewrite E.
    cbn [fst snd].
    pose proof (chain_step_narrows start L R L' R' HL Hlt E).
    apply IH; lia.
Qed.

Lemma check_chain_total start end_ :
  0 <= start < n -> 0 <= end_ < n ->
  exists r, check_chain A B poly start end_ = Some r.
Proof.
  intros Hs He. unfold check_chain. fold n.
  destruct (cp_some start Hs) as [cs ->].
  destruct (vec_at_some poly start Hs) as [ps Eps].
  destruct (Z.eqb_spec cs 0).
  - rewrite Eps.
    destruct (vec_at_some poly (Z.rem (start + 1) n)) as [pn ->].
    { apply rem_range; lia. }
    destruct (segments_intersect A B ps pn); [eauto|].
    destruct (vec_at_some poly (Z.rem (start - 1 + n) n)) as [pp ->].
    { apply rem_range; lia. }
    destruct (segments_intersect A B pp ps); eauto.
  - destruct (cp_some end_ He) as [ce ->].
    destruct (sign cs =? sign ce); [eauto|].
    destruct (chain_search_total start Hs (Z.to_nat n) 0
                (Z.rem (end_ - start + n) n)) as (L & R & -> & HL); try lia.
    { pose proof (rem_range (end_ - start + n) n ltac:(lia) ltac:(lia)). lia. }
    cbn [fst].
    destruct (vec_at_some poly (Z.rem (start + L) n)) as [p1 ->].
    { apply rem_range; lia. }
    destruct (vec_at_some poly (Z.rem (start + L + 1) n)) as [p2 ->].
    { apply rem_range; lia. }
    destruct (segments_intersect A B p1 p2); eauto.
Qed.

Lemma locator_total : exists r, intersect_segment_convex_poly_log A B poly = Some r.
Proof.
  unfold intersect_segment_convex_poly_log. fold n.
  destruct (Z.ltb_spec n 2) as [Hlt|Hge]; [eauto|].
  destruct (Z.eqb_spec n 2) as [H2|H2].
  - destruct (vec_at_some poly 0) as [p0 ->]; [fold n; lia|].
    destruct (vec_at_some poly 1) as [p1 ->]; [fold n; lia|].
    destruct (segments_intersect A B p0 p1); eauto.
  - unfold hill_climb_extreme.
    destruct (hill_climb_run_total true ltac:(lia)) as (imax & k1 & -> & Hmax & _).
    destruct (hill_climb_run_total false ltac:(lia)) as (imin & k2 & -> & Hmin & _).
    cbn [fst].
    destruct (cp_some imax Hmax) as [cmax ->].
    destruct (cp_some imin Hmin) as [cmin ->].
    destruct ((cmax >? 0) && (cmin >? 0)); [eauto|].
    destruct ((cmax <? 0) && (cmin <? 0)); [eauto|].
    destruct (check_chain_total imax imin Hmax Hmin) as [[ids|] ->]; [eauto|].
    apply check_chain_total; assumption.
Qed.

End LocatorTotal.

(** *** Soundness *)

Lemma chain_search_lower A B poly start :
  forall fuel L R L' R', 0 <= L ->
    chain_search A B poly fuel start L R = Some (L', R') -> 0 <= L'.
Proof.
  induction fuel as [|fuel IH]; intros L R L' R' HL; cbn [chain_search].
  - destruct (L + 1 <? R); [discriminate|]. intros E. injection E as <- <-. exact HL.
  - destruct (Z.ltb_spec (L + 1) R) as [Hlt|Hge].
    + destruct (chain_step A B poly start L R) as [[a b]|] eqn:Es; [|discriminate].
      cbn [fst snd]. apply IH.
      pose proof (chain_step_narrows A B poly start L R a b HL Hlt Es). lia.
    + intros E. injection E as <- <-. exact HL.
Qed.

Lemma check_chain_sound A B poly s e r1 r2 :
  check_chain A B poly s e = Some (Some (r1, r2)) -> reports A B poly r1 r2.
Proof.
  unfold check_chain. set (n := size poly).
  destruct (cp A B poly s) as [cs|] eqn:Ecs; [|discriminate].
  assert (Hs : exists ps, vec_at poly s = Some ps /\ 0 <= s < n).
  { unfold cp in Ecs. destruct (vec_at poly s) as [ps|] eqn:Es; [|discriminate].
    exists ps. split; [reflexivity|]. now apply vec_at_range in Es. }
  destruct Hs as (ps & Es & Hr).
  destruct (cs =? 0).
  - rewrite Es.
    destruct (vec_at poly (Z.rem (s + 1) n)) as [pn|] eqn:En; [|discriminate].
    destruct (segments_intersect A B ps pn) eqn:S1.
    { intros H. injection H as <- <-. exists ps, pn. repeat split; [|exact S1].
      exists s. split; [exact Es|]. fold n. rewrite <- rem_mod by lia. exact En. }
    destruct (vec_at poly (Z.rem (s - 1 + n) n)) as [pp|] eqn:Ep; [|discriminate].
    destruct (segments_intersect A B pp ps) eqn:S2; [|discriminate].
    intros H. injection H as <- <-. exists pp, ps. repeat split; [|exact S2].
    exists (Z.rem (s - 1 + n) n). split; [exact Ep|]. fold n.
    rewrite rem_mod by lia. rewrite Zplus_mod_idemp_l.
    replace (s - 1 + n + 1) with (s + 1 * n) by ring.
    rewrite Z.mod_add by lia. rewrite Z.mod_small by lia. exact Es.
  - destruct (cp A B poly e) as [ce|]; [|discriminate].
    destruct (sign cs =? sign ce); [discriminate|].
    destruct (chain_search A B poly (Z.to_nat n) s 0 (Z.rem (e - s + n) n))
      as [[L R]|] eqn:El; [|discriminate].
    cbn [fst].
    pose proof (chain_search_lower A B poly s _ _ _ _ _ (Z.le_refl 0) El) as HL.
    destruct (vec_at poly (Z.rem (s + L) n)) as [p1|] eqn:E1; [|discriminate].
    destruct (vec_at poly (Z.rem (s + L + 1) n)) as [p2|] eqn:E2; [|discriminate].
    destruct (segments_intersect A B p1 p2) eqn:S1; [|discriminate].
    intros H. injection H as <- <-. exists p1, p2. repeat split; [|exact S1].
    exists (Z.rem (s + L) n). split; [exact E1|]. fold n.
    rewrite rem_mod by lia. rewrite Zplus_mod_idemp_l.
    rewrite <- rem_mod by lia. exact E2.
Qed.

(** A reported pair of ids is that of an edge of the polygon, and this edge
    passes [segments_intersect] against the segment. *)
Lemma locator_reports (A B : Point) (poly : list Point) (r1 r2 : Z) :
  intersect_segment_convex_poly_log A B poly = Some (Some (r1, r2)) ->
  reports A B poly r1 r2.
Proof.
  unfold intersect_segment_convex_poly_log. intros H.
  destruct (size poly <? 2); [discriminate|].
  destruct (Z.eqb_spec (size poly) 2) as [H2|H2].
  - destruct (vec_at poly 0) as [p0|] eqn:E0; [|discriminate].
    destruct (vec_at poly 1) as [p1|] eqn:E1; [|discriminate].
    destruct (segments_intersect A B p0 p1) eqn:S1; [|discriminate].
    injection H as <- <-. exists p0, p1. repeat split; [|exact S1].
    exists 0. split; [exact E0|]. rewrite H2. exact E1.
  - destruct (hill_climb_extreme A B poly true) as [imax|]; [|discriminate].
    destruct (hill_climb_extreme A B poly false) as [imin|]; [|discriminate].
    destruct (cp A B poly imax) as [cmax|]; [|discriminate].
    destruct (cp A B poly imin) as [cmin|]; [|discriminate].
    destruct ((cmax >? 0) && (cmin >? 0)); [discriminate|].
    destruct ((cmax <? 0) && (cmin <? 0)); [discriminate|].
    destruct (check_chain A B poly imax imin) as [[[a b]|]|] eqn:E1; [| |discriminate].
    + injection H as <- <-. now apply check_chain_sound in E1.
    + now apply check_chain_sound in H.
Qed.

Lemma cyclic_edge_In poly a b : cyclic_edge poly a b -> In a poly /\ In b poly.
Proof. intros (i & Ha & Hb). split; eauto using vec_at_In. Qed.

(** C1. Soundness of the locator: whenever it returns true with ids
    [(r1, r2)], the polygon has vertices carrying those ids whose segment
    satisfies [segments_intersect] with [(A, B)]. *)
Theorem locator_sound (A B : Point) (poly : list Point) (r1 r2 : Z) :
  intersect_segment_convex_poly_log A B poly = Some (Some (r1, r2)) ->
  exists e1 e2, In e1 poly /\ In e2 poly /\ id e1 = r1 /\ id e2 = r2 /\
                segments_intersect A B e1 e2 = true.
Proof.
  intros H. destruct (locator_reports A B poly r1 r2 H) as (e1 & e2 & He & H1 & H2 & Hs).
  destruct (cyclic_edge_In poly e1 e2 He) as [In1 In2].
  exists e1, e2. repeat split; assumption.
Qed.

Lemma locator_sound_witness :
  exists e1 e2,
    In e1 [mkPoint 0 0 1; mkPoint 4 0 2; mkPoint 4 4 3; mkPoint 0 4 4] /\
    In e2 [mkPoint 0 0 1; mkPoint 4 0 2; mkPoint 4 4 3; mkPoint 0 4 4] /\
    id e1 = 2 /\ id e2 = 3 /\
    segments_intersect (mkPoint 2 2 1) (mkPoint 6 2 2) e1 e2 = true.
Proof.
  apply (locator_sound (mkPoint 2 2 1) (mkPoint 6 2 2)
           [mkPoint 0 0 1; mkPoint 4 0 2; mkPoint 4 4 3; mkPoint 0 4 4] 2 3).
  vm_compute. reflexivity.
Defined.

(** C8. Termination of the locator: for every polygon and segment the
    function returns a result (true with an edge, or false) without leaving
    the vector or looping forever; each hill-climb stops with its counter
    [iter] at most [n]; each round of the binary search strictly narrows the
    range [L, R]. *)
Theorem locator_terminates (A B : Point) (poly : list Point) :
  (exists r, intersect_segment_convex_poly_log A B poly = Some r) /\
  (forall maximize, 1 <= size poly ->
     exists idx iters, hill_climb_run A B poly maximize = Some (idx, iters) /\
                       0 <= idx < size poly /\ 0 <= iters <= size poly) /\
  (forall start L R L' R', 0 <= L -> L + 1 < R ->
     chain_step A B poly start L R = Some (L', R') ->
     L <= L' /\ L' < R' /\ R' <= R /\ R' - L' < R - L).
Proof.
  split; [apply locator_total|]. split.
  - intros maximize Hn. now apply hill_climb_run_total.
  - intros start L R L' R'. apply chain_step_narrows.
Qed.

(** ** Hill-climb optimality *)

Lemma filter_length_le (f : Point -> bool) l : (length (filter f l) <= length l)%nat.
Proof. induction l as [|a l IH]; cbn; [lia|]. destruct (f a); cbn; lia. Qed.

Lemma filter_length_mono (f g : Point -> bool) l :
  (forall q, f q = true -> g q = true) ->
  (length (filter f l) <= length (filter g l))%nat.
Proof.
  intros Hfg. induction l as [|b l IH]; cbn; [lia|].
  destruct (f b) eqn:E; [rewrite (Hfg b E); cbn; lia|].
  destruct (g b); cbn; lia.
Qed.

Lemma filter_length_lt (f g : Point -> bool) l y :
  (forall q, f q = true -> g q = true) ->
  In y l -> g y = true -> f y = false ->
  (length (filter f l) < length (filter g l))%nat.
Proof.
  intros Hfg. induction l as [|a l IH]; intros Hy Hg Hf; [destruct Hy|].
  pose proof (filter_length_mono f g l Hfg) as Hle.
  cbn. destruct Hy as [->|Hy].
  - rewrite Hf, Hg. cbn. lia.
  - specialize (IH Hy Hg Hf).
    destruct (f a) eqn:E; [rewrite (Hfg a E); cbn; lia|].
    destruct (g a); cbn; lia.
Qed.

(** Every move of the climb strictly improves [dot], so the number of
    vertices that beat the current one drops: the loop returns at a vertex
    no neighbour beats before [iter] reaches [n]. *)
Section HillClimb.
Variables (A B : Point) (poly : list Point).
Let n : Z := size poly.
Variable maximize : bool.

Lemma beats_irrefl p : beats A B maximize p p = false.
Proof.
  unfold beats, better. destruct maximize; [rewrite Z.gtb_ltb|]; apply Z.ltb_irrefl.
Qed.

Lemma beats_trans q p r :
  beats A B maximize q p = true -> beats A B maximize p r = true ->
  beats A B maximize q r = true.
Proof.
  unfold beats, better. destruct maximize; rewrite ?Z.gtb_ltb, !Z.ltb_lt; lia.
Qed.

Lemma rank_bound p : In p poly -> rank_of A B poly maximize p < n.
Proof.
  intros Hp. unfold rank_of, n, size.
  assert (length (filter (fun q => beats A B maximize q p) poly) <
          length (filter (fun _ => true) poly))%nat.
  { apply filter_length_lt with p; auto using beats_irrefl. }
  pose proof (filter_length_le (fun _ => true) poly). lia.
Qed.

Lemma rank_drop p p' :
  In p' poly -> beats A B maximize p' p = true ->
  rank_of A B poly maximize p' < rank_of A B poly maximize p.
Proof.
  intros Hp' Hb. unfold rank_of.
  assert (length (filter (fun q => beats A B maximize q p') poly) <
          length (filter (fun q => beats A B maximize q p) poly))%nat; [|lia].
  apply filter_length_lt with p'; auto using beats_irrefl.
  intros q Hq. now apply beats_trans with p'.
Qed.

Lemma climb_loop_local :
  forall fuel iter curr pc c k,
    vec_at poly curr = Some pc -> rank_of A B poly maximize pc + iter < n -> 0 <= iter ->
    climb_loop A B poly fuel maximize iter curr = Some (c, k) ->
    local_opt A B poly maximize c.
Proof.
  induction fuel as [|fuel IH]; intros iter curr pc c k Hc Hr Hi; cbn [climb_loop]; fold n.
  - assert (0 <= rank_of A B poly maximize pc) by (unfold rank_of; lia).
    destruct (Z.ltb_spec iter n); [discriminate|lia].
  - assert (0 <= rank_of A B poly maximize pc) by (unfold rank_of; lia).
    destruct (Z.ltb_spec iter n) as [Hlt|Hge]; [|lia].
    unfold dot. rewrite Hc.
    destruct (vec_at poly (Z.rem (curr + 1) n)) as [pn|] eqn:En; [|discriminate].
    destruct (vec_at poly (Z.rem (curr - 1 + n) n)) as [pp|] eqn:Ep; [|discriminate].
    fold (beats A B maximize pn pc). fold (beats A B maximize pp pc).
    destruct (beats A B maximize pn pc) eqn:Bn.
    + apply (IH (iter + 1) _ pn c k En); [|lia].
      pose proof (rank_drop pc pn (vec_at_In _ _ _ En) Bn). lia.
    + destruct (beats A B maximize pp pc) eqn:Bp.
      * apply (IH (iter + 1) _ pp c k Ep); [|lia].
        pose proof (rank_drop pc pp (vec_at_In _ _ _ Ep) Bp). lia.
      * intros E. injection E as <- <-. now exists pc, pn, pp.
Qed.

Lemma hill_climb_local c k :
  hill_climb_run A B poly maximize = Some (c, k) -> local_opt A B poly maximize c.
Proof.
  unfold hill_climb_run. fold n. intros H.
  destruct (dot A B poly 0) as [v0|] eqn:E0; [|discriminate].
  assert (Hn : 1 <= n).
  { unfold dot in E0. destruct (vec_at poly 0) eqn:E; [|discriminate].
    apply vec_at_range in E. fold n in E. lia. }
  destruct (sample_loop_total A B poly maximize (Z.max 1 (Z.quot n 20)) ltac:(lia)
              (Z.to_nat n) 0 0 v0) as (b & v & Es & Hb); try (fold n; lia).
  fold n in Es, Hb. rewrite Es in H. cbn [fst] in H.
  destruct (vec_at_some poly b Hb) as [pb Epb].
  apply (climb_loop_local (Z.to_nat n) 0 b pb c k Epb); [|lia|exact H].
  pose proof (rank_bound pb (vec_at_In _ _ _ Epb)). lia.
Qed.

End HillClimb.

(** In the wedge of a strict left turn, a linear form that does not grow
    along either side does not grow anywhere. *)
Lemma wedge_max (A B pp pc pn q : Point) :
  0 < cross_product pp pc pn ->
  0 <= cross_product pp pc q -> 0 <= cross_product pc pn q ->
  dot_of A B pn <= dot_of A B pc -> dot_of A B pp <= dot_of A B pc ->
  dot_of A B q <= dot_of A B pc.
Proof.
  intros Ht H1 H2 Hn Hp.
  assert (E : cross_product pp pc pn * (dot_of A B q - dot_of A B pc) =
              cross_product pp pc q * (dot_of A B pn - dot_of A B pc) +
              cross_product pc pn q * (dot_of A B pp - dot_of A B pc)).
  { unfold dot_of. rewrite !cross_product_eq. ring. }
  nia.
Qed.

Lemma wedge_min (A B pp pc pn q : Point) :
  0 < cross_product pp pc pn ->
  0 <= cross_product pp pc q -> 0 <= cross_product pc pn q ->
  dot_of A B pc <= dot_of A B pn -> dot_of A B pc <= dot_of A B pp ->
  dot_of A B pc <= dot_of A B q.
Proof.
  intros Ht H1 H2 Hn Hp.
  assert (E : cross_product pp pc pn * (dot_of A B q - dot_of A B pc) =
              cross_product pp pc q * (dot_of A B pn - dot_of A B pc) +
              cross_product pc pn q * (dot_of A B pp - dot_of A B pc)).
  { unfold dot_of. rewrite !cross_product_eq. ring. }
  nia.
Qed.

Lemma neighbours_cyclic poly c pc pn pp :
  3 <= size poly ->
  vec_at poly c = Some pc ->
  vec_at poly (Z.rem (c + 1) (size poly)) = Some pn ->
  vec_at poly (Z.rem (c - 1 + size poly) (size poly)) = Some pp ->
  cyclic_triple poly pp pc pn /\ cyclic_edge poly pp pc /\ cyclic_edge poly pc pn.
Proof.
  intros Hn Hc Hnx Hpv. pose proof (vec_at_range _ _ _ Hc) as Hr.
  rewrite rem_mod in Hnx, Hpv by lia.
  set (n := size poly) in *.
  assert (E1 : ((c - 1 + n) mod n + 1) mod n = c).
  { rewrite Zplus_mod_idemp_l. replace (c - 1 + n + 1) with (c + 1 * n) by ring.
    rewrite Z.mod_add by lia. apply Z.mod_small. lia. }
  assert (E2 : ((c - 1 + n) mod n + 2) mod n = (c + 1) mod n).
  { rewrite Zplus_mod_idemp_l. replace (c - 1 + n + 2) with (c + 1 + 1 * n) by ring.
    now rewrite Z.mod_add by lia. }
  split; [|split].
  - exists ((c - 1 + n) mod n). fold n. rewrite E1, E2. auto.
  - exists ((c - 1 + n) mod n). fold n. rewrite E1. auto.
  - exists c. fold n. auto.
Qed.

Lemma local_opt_global_max A B poly c :
  3 <= size poly -> convex_ccw poly -> local_opt A B poly true c ->
  exists pc, vec_at poly c = Some pc /\
             forall q, In q poly -> dot_of A B q <= dot_of A B pc.
Proof.
  intros Hn [Hedge Hturn] (pc & pn & pp & Hc & Hnx & Hpv & Bn & Bp).
  destruct (neighbours_cyclic poly c pc pn pp Hn Hc Hnx Hpv) as (T & E1 & E2).
  exists pc. split; [exact Hc|]. intros q Hq.
  unfold beats, better in Bn, Bp. rewrite Z.gtb_ltb, Z.ltb_ge in Bn, Bp.
  apply (wedge_max A B pp pc pn q); auto.
Qed.

Lemma local_opt_global_min A B poly c :
  3 <= size poly -> convex_ccw poly -> local_opt A B poly false c ->
  exists pc, vec_at poly c = Some pc /\
             forall q, In q poly -> dot_of A B pc <= dot_of A B q.
Proof.
  intros Hn [Hedge Hturn] (pc & pn & pp & Hc & Hnx & Hpv & Bn & Bp).
  destruct (neighbours_cyclic poly c pc pn pp Hn Hc Hnx Hpv) as (T & E1 & E2).
  exists pc. split; [exact Hc|]. intros q Hq.
  unfold beats, better in Bn, Bp. rewrite Z.ltb_ge in Bn, Bp.
  apply (wedge_min A B pp pc pn q); auto.
Qed.

(** C9. Hill-climb optimality: on a strictly convex counter-clockwise
    polygon with at least three vertices, [hill_climb_extreme true] returns
    an index whose vertex maximises the projection [dot] over all vertices,
    and [hill_climb_extreme false] one that minimises it. *)
Theorem hill_climb_optimal (A B : Point) (poly : list Point) :
  3 <= size poly -> convex_ccw poly ->
  exists imax imin pmax pmin,
    hill_climb_extreme A B poly true = Some imax /\
    hill_climb_extreme A B poly false = Some imin /\
    vec_at poly imax = Some pmax /\ vec_at poly imin = Some pmin /\
    forall q, In q poly ->
      dot_of A B q <= dot_of A B pmax /\ dot_of A B pmin <= dot_of A B q.
Proof.
  intros Hn Hconv. unfold hill_climb_extreme.
  destruct (hill_climb_run_total A B poly true ltac:(lia)) as (imax & k1 & E1 & _).
  destruct (hill_climb_run_total A B poly false ltac:(lia)) as (imin & k2 & E2 & _).
  rewrite E1, E2. cbn [fst].
  destruct (local_opt_global_max A B poly imax Hn Hconv
              (hill_climb_local A B poly true imax k1 E1)) as (pmax & Hmax & Gmax).
  destruct (local_opt_global_min A B poly imin Hn Hconv
              (hill_climb_local A B poly false imin k2 E2)) as (pmin & Hmin & Gmin).
  exists imax, imin, pmax, pmin. repeat split; auto.
Qed.

(** ** The hull as input of the locator *)

Lemma hull_of_sorted_left s a b q :
  (2 <= length s)%nat -> StronglySorted lex_le s ->
  cyclic_edge (hull_of_sorted s) a b -> In q s -> 0 <= cross_product a b q.
Proof.
  intros Hlen Hs He Hq.
  destruct (list_ends s Hlen) as (p0 & mid & pm & ->).
  destruct (hull_chains p0 mid pm Hs) as (A & B & E & FL & FU).
  rewrite E in He. now apply (hull_edges_left p0 mid pm A B q FL FU Hq).
Qed.

(** The hulls handed to the locator meet the hypothesis of the hill-climb:
    a hull with at least three vertices is strictly convex and
    counter-clockwise. *)
Lemma convex_hull_convex_ccw sort pts :
  sort_spec sort -> 3 <= size (snd (convex_hull sort pts)) ->
  convex_ccw (snd (convex_hull sort pts)).
Proof.
  intros Hsort. unfold convex_hull.
  destruct (Nat.leb_spec (length pts) 2) as [Hle|Hgt]; cbn [snd].
  - unfold size. lia.
  - destruct (Hsort pts) as [Hperm Hsorted]. intros Hsz.
    assert (Hlen : (2 <= length (sort pts))%nat).
    { rewrite <- (Permutation_length Hperm). lia. }
    split.
    + intros a b q He Hq. apply (hull_of_sorted_left (sort pts)); try assumption.
      now apply hull_of_sorted_sub.
    + intros u v w Ht. now apply (hull_of_sorted_turns (sort pts)).
Qed.

Lemma hill_climb_optimal_witness :
  let A := mkPoint 2 2 1 in
  let B := mkPoint 6 2 2 in
  let poly := snd (convex_hull insertion_sort
                [mkPoint 0 0 1; mkPoint 4 0 2; mkPoint 4 4 3; mkPoint 0 4 4;
                 mkPoint 2 2 5]) in
  exists imax imin pmax pmin,
    hill_climb_extreme A B poly true = Some imax /\
    hill_climb_extreme A B poly false = Some imin /\
    vec_at poly imax = Some pmax /\ vec_at poly imin = Some pmin /\
    forall q, In q poly ->
      dot_of A B q <= dot_of A B pmax /\ dot_of A B pmin <= dot_of A B q.
Proof.
  cbv zeta. apply hill_climb_optimal.
  - vm_compute. discriminate.
  - apply convex_hull_convex_ccw; [exact insertion_sort_spec|].
    vm_compute. discriminate.
Defined.

(** ** Search strategy *)

Lemma is_inside_total poly p : exists b, is_inside poly p = Some b.
Proof.
  unfold is_inside.
  destruct (Z.eqb_spec (size poly) 0); [eauto|].
  assert (H0 : 0 <= size poly) by (unfold size; lia).
  destruct (vec_at_some poly 0) as [p0 ->]; [lia|].
  destruct (Z.eqb_spec (size poly) 1); [eauto|].
  destruct (vec_at_some poly 1) as [p1 ->]; [lia|].
  destruct (Z.eqb_spec (size poly) 2); [eauto|].
  destruct (cross_product p0 p1 p <? 0); [eauto|].
  destruct (vec_at_some poly (size poly - 1)) as [pl ->]; [lia|].
  destruct (cross_product p0 pl p >? 0); [eauto|].
  destruct (fan_search_total poly p p0 (size poly) eq_refl (Z.to_nat (size poly)) 1
              (size poly - 1)) as (l & -> & Hl1 & Hl2); [lia|lia|lia|].
  cbn [fst snd].
  destruct (vec_at_some poly l) as [a ->]; [lia|].
  destruct (vec_at_some poly (l + 1)) as [b ->]; [lia|].
  eauto.
Qed.

Lemma exact_angular_spec : angular_spec exact_angular.
Proof. intros hull l. apply sort_by_perm. Qed.

Section RunHSound.
Variables (P_pts R_hull : list Point) (p_is_pump : bool).

Lemma scan_offsets_sound i ks line :
  scan_offsets P_pts R_hull p_is_pump i ks = Some (Some line) ->
  found_by P_pts R_hull p_is_pump line.
Proof.
  induction ks as [|k ks IH]; cbn [scan_offsets]; [discriminate|].
  set (j := if Z.rem (i + k) (size P_pts) <? 0
            then Z.rem (i + k) (size P_pts) + size P_pts
            else Z.rem (i + k) (size P_pts)).
  destruct (i =? j); [exact IH|].
  destruct (vec_at P_pts i) as [A|] eqn:EA; [|discriminate].
  destruct (vec_at P_pts j) as [B|] eqn:EB; [|discriminate].
  destruct (intersect_segment_convex_poly_log A B R_hull) as [[[r1 r2]|]|] eqn:E;
    [| exact IH | discriminate].
  intros H. injection H as <-.
  exists A, B, r1, r2. repeat split; eauto using vec_at_In.
Qed.

Lemma scan_points_sound ks idxs line :
  scan_points P_pts R_hull p_is_pump ks idxs = Some (Some line) ->
  found_by P_pts R_hull p_is_pump line.
Proof.
  induction idxs as [|i idxs IH]; cbn [scan_points]; [discriminate|].
  destruct (scan_offsets P_pts R_hull p_is_pump i ks) as [[l|]|] eqn:E;
    [| exact IH | discriminate].
  intros H. injection H as <-. now apply scan_offsets_sound in E.
Qed.

End RunHSound.

Lemma run_h_sound angular rnd P_pts R_hull p_is_pump line :
  angular_spec angular ->
  run_h angular rnd P_pts R_hull p_is_pump = Some (Some line) ->
  found_by P_pts R_hull p_is_pump line.
Proof.
  intros Hang. unfold run_h.
  destruct (size (angular R_hull P_pts) =? 0); [discriminate|].
  intros H. apply scan_points_sound in H.
  destruct H as (A & B & r1 & r2 & HA & HB & E & Hl).
  exists A, B, r1, r2. repeat split; try assumption;
    eapply Permutation_in; try eassumption; apply Permutation_sym, Hang.
Qed.

Lemma fallback_hull_sound HR p qs line :
  fallback_hull HR p qs = Some (Some line) ->
  exists q r1 r2, In q qs /\ is_inside HR q = Some false /\
    intersect_segment_convex_poly_log p q HR = Some (Some (r1, r2)) /\
    line = (id p, id q, r1, r2).
Proof.
  induction qs as [|q qs IH]; cbn [fallback_hull]; [discriminate|].
  destruct (is_inside HR q) as [[|]|] eqn:Eq; cbn [negb]; [| |discriminate].
  - intros H. destruct (IH H) as (q' & r1 & r2 & Hq & ?). exists q', r1, r2.
    split; [now right|assumption].
  - destruct (intersect_segment_convex_poly_log p q HR) as [[[r1 r2]|]|] eqn:E;
      [| |discriminate].
    + intros H. injection H as <-. exists q, r1, r2. repeat split; auto. now left.
    + intros H. destruct (IH H) as (q' & r1 & r2 & Hq & ?). exists q', r1, r2.
      split; [now right|assumption].
Qed.

Lemma fallback_hull_complete HR p qs q r1 r2 :
  In q qs -> is_inside HR q = Some false ->
  intersect_segment_convex_poly_log p q HR = Some (Some (r1, r2)) ->
  exists line, fallback_hull HR p qs = Some (Some line).
Proof.
  induction qs as [|q' qs IH]; intros Hq Hin Hloc; [destruct Hq|].
  cbn [fallback_hull].
  destruct (is_inside_total HR q') as [b Eb]. rewrite Eb.
  destruct Hq as [->|Hq].
  - rewrite Hin in Eb. injection Eb as <-. cbn [negb]. rewrite Hloc. eauto.
  - destruct b; cbn [negb]; [now apply IH|].
    destruct (locator_total p q' HR) as [[[a b]|] ->]; [eauto|now apply IH].
Qed.

Lemma fallback_first HR HP ps p :
  first_inside HR ps p -> fallback HR HP ps = fallback_hull HR p HP.
Proof.
  intros (pre & post & -> & Hpre & Hp).
  induction pre as [|p' pre IH]; cbn [app fallback].
  - now rewrite Hp.
  - rewrite (Hpre p') by now left. apply IH. intros q Hq. apply Hpre. now right.
Qed.

Lemma fallback_none HR HP ps :
  (forall p, In p ps -> is_inside HR p = Some false) -> fallback HR HP ps = Some None.
Proof.
  induction ps as [|p ps IH]; intros H; [reflexivity|].
  cbn [fallback]. rewrite (H p) by now left. apply IH. intros q Hq. apply H. now right.
Qed.

Lemma first_inside_dec HR ps :
  (exists p, first_inside HR ps p) \/ (forall p, In p ps -> is_inside HR p = Some false).
Proof.
  induction ps as [|p ps IH]; [right; intros ? []|].
  destruct (is_inside_total HR p) as [[|] Ep].
  - left. exists p, [], ps. split; [reflexivity|]. split; [intros ? []|exact Ep].
  - destruct IH as [(q & pre & post & -> & Hpre & Hq)|Hnone].
    + left. exists q, (p :: pre), post. split; [reflexivity|]. split; [|exact Hq].
      intros p' [<-|Hp']; auto.
    + right. intros q [<-|Hq]; auto.
Qed.

Lemma check_R_in_HP_total HP rs : check_R_in_HP HP rs = Some tt.
Proof.
  induction rs as [|r rs IH]; [reflexivity|]. cbn [check_R_in_HP].
  destruct (is_inside_total HP r) as [[|] ->]; [reflexivity|exact IH].
Qed.

Lemma found_by_sides pts hull flag line :
  found_by pts hull flag line ->
  if flag then segment_ids_first pts hull line else edge_ids_first pts hull line.
Proof.
  intros (A & B & r1 & r2 & HA & HB & E & Hl).
  apply locator_reports in E. destruct E as (e1 & e2 & He & <- & <- & Hs).
  destruct flag; exists A, B, e1, e2; auto 10.
Qed.

Lemma solve_unfold sort angular rand P R :
  solve sort angular rand P R =
  let P' := fst (convex_hull sort P) in let HP := snd (convex_hull sort P) in
  let R' := fst (convex_hull sort R) in let HR := snd (convex_hull sort R) in
  r <- run_h angular (map rand (seq 0 10)) P' HR true ;;
  match r with
  | Some line => Some (Some line)
  | None =>
      r <- run_h angular (map rand (seq 10 10)) R' HP false ;;
      match r with
      | Some line => Some (Some line)
      | None =>
          r <- fallback HR HP P' ;;
          match r with
          | Some line => Some (Some line)
          | None => Some None
          end
      end
  end.
Proof.
  unfold solve. destruct (convex_hull sort P) as [P' HP].
  destruct (convex_hull sort R) as [R' HR]. cbn [fst snd].
  destruct (run_h angular (map rand (seq 0 10)) P' HR true) as [[l|]|]; try reflexivity.
  destruct (run_h angular (map rand (seq 10 10)) R' HP false) as [[l|]|]; try reflexivity.
  destruct (fallback HR HP P') as [[l|]|]; try reflexivity.
  now rewrite check_R_in_HP_total.
Qed.

(** C4 (as stated) fails: found in direction R-to-HP, the crossing is
    printed with the ids of the hull edge of [HP] first. *)
Lemma solve_prints_edge_first :
  let P := read_points [(4, 4); (6, 4); (5, 6)] in
  let R := read_points [(10, 0); (0, 10); (10, 10); (0, 0)] in
  solve insertion_sort exact_angular (fun _ => 0) P R = Some (Some (3, 1, 4, 3)) /\
  run_h exact_angular (map (fun _ => 0) (seq 0 10))
        (fst (convex_hull insertion_sort P)) (snd (convex_hull insertion_sort R)) true
    = Some None /\
  ~ segment_ids_first R (snd (convex_hull insertion_sort P)) (3, 1, 4, 3).
Proof.
  cbv zeta. split; [vm_compute; reflexivity|]. split; [vm_compute; reflexivity|].
  intros (A & B & e1 & e2 & _ & _ & He & _ & E).
  injection E as _ _ E3 _.
  apply cyclic_edge_In in He. destruct He as [H1 _].
  vm_compute in H1. destruct H1 as [<-|[<-|[<-|[]]]]; discriminate E3.
Qed.

(** C4, amended. Every printed line lists the two ids of the P side before
    the two ids of the R side.  Found in direction P-to-HR (or by the
    fallback), these are the endpoints of the segment, then those of the
    crossed edge of [HR]; found in direction R-to-HP, they are the endpoints
    of the crossed edge of [HP], then those of the segment. *)
Theorem solve_line_order (sort : list Point -> list Point)
    (angular : list Point -> list Point -> list Point) (rand : nat -> Z)
    (P R : list Point) (line : Line) :
  sort_spec sort -> angular_spec angular ->
  solve sort angular rand P R = Some (Some line) ->
  let HP := snd (convex_hull sort P) in
  let HR := snd (convex_hull sort R) in
  segment_ids_first P HR line \/
  (run_h angular (map rand (seq 0 10)) (fst (convex_hull sort P)) HR true = Some None /\
   edge_ids_first R HP line).
Proof.
  intros Hsort Hang. rewrite solve_unfold. cbv zeta.
  set (P' := fst (convex_hull sort P)). set (HP := snd (convex_hull sort P)).
  set (R' := fst (convex_hull sort R)). set (HR := snd (convex_hull sort R)).
  assert (HP' : forall v, In v P' -> In v P).
  { intros v. apply Permutation_in. apply Permutation_sym, convex_hull_fst_perm, Hsort. }
  assert (HR' : forall v, In v R' -> In v R).
  { intros v. apply Permutation_in. apply Permutation_sym, convex_hull_fst_perm, Hsort. }
  destruct (run_h angular (map rand (seq 0 10)) P' HR true) as [[l|]|] eqn:E1;
    [| |discriminate].
  - intros H. injection H as ->. left.
    apply run_h_sound in E1; [|exact Hang]. apply found_by_sides in E1.
    destruct E1 as (A & B & e1 & e2 & ? & ? & ? & ? & ?).
    exists A, B, e1, e2. auto 10.
  - destruct (run_h angular (map rand (seq 10 10)) R' HP false) as [[l|]|] eqn:E2;
      [| |discriminate].
    + intros H. injection H as ->. right. split; [reflexivity|].
      apply run_h_sound in E2; [|exact Hang]. apply found_by_sides in E2.
      destruct E2 as (A & B & e1 & e2 & ? & ? & ? & ? & ?).
      exists A, B, e1, e2. auto 10.
    + destruct (fallback HR HP P') as [[l|]|] eqn:E3; [|discriminate|discriminate].
      intros H. injection H as ->. left.
      destruct (first_inside_dec HR P') as [[p Hp]|Hnone].
      2:{ rewrite (fallback_none HR HP P' Hnone) in E3. discriminate. }
      rewrite (fallback_first HR HP P' p Hp) in E3.
      apply fallback_hull_sound in E3. destruct E3 as (q & r1 & r2 & Hq & _ & Hloc & ->).
      apply locator_reports in Hloc. destruct Hloc as (e1 & e2 & He & <- & <- & Hs).
      exists p, q, e1, e2. repeat split; auto.
      * apply HP'. destruct Hp as (pre & post & -> & _). apply in_or_app. right. now left.
      * apply (convex_hull_snd_sub sort P q Hsort Hq).
Qed.

Lemma solve_line_order_witness :
  let P := read_points [(4, 4); (6, 4); (5, 6)] in
  let R := read_points [(10, 0); (0, 10); (10, 10); (0, 0)] in
  segment_ids_first P (snd (convex_hull insertion_sort R)) (3, 1, 4, 3) \/
  (run_h exact_angular (map (fun _ => 0) (seq 0 10))
         (fst (convex_hull insertion_sort P)) (snd (convex_hull insertion_sort R)) true
     = Some None /\
   edge_ids_first R (snd (convex_hull insertion_sort P)) (3, 1, 4, 3)).
Proof.
  cbv zeta.
  apply (solve_line_order insertion_sort exact_angular (fun _ => 0)
           (read_points [(4, 4); (6, 4); (5, 6)])
           (read_points [(10, 0); (0, 10); (10, 10); (0, 0)]) (3, 1, 4, 3)
           insertion_sort_spec exact_angular_spec).
  vm_compute. reflexivity.
Defined.

Section RunHTotal.
Variables (P_pts R_hull : list Point) (p_is_pump : bool).

Lemma scan_offsets_total i ks :
  0 <= i < size P_pts ->
  exists r, scan_offsets P_pts R_hull p_is_pump i ks = Some r.
Proof.
  intros Hi. induction ks as [|k ks IH]; cbn [scan_offsets]; [eauto|].
  set (j := if Z.rem (i + k) (size P_pts) <? 0
            then Z.rem (i + k) (size P_pts) + size P_pts
            else Z.rem (i + k) (size P_pts)).
  assert (Hj : 0 <= j < size P_pts).
  { pose proof (Z.rem_bound_abs (i + k) (size P_pts) ltac:(lia)) as Hb.
    unfold j. destruct (Z.ltb_spec (Z.rem (i + k) (size P_pts)) 0); lia. }
  destruct (i =? j); [exact IH|].
  destruct (vec_at_some P_pts i Hi) as [A ->].
  destruct (vec_at_some P_pts j Hj) as [B ->].
  destruct (locator_total A B R_hull) as [[[r1 r2]|] ->]; [eauto|exact IH].
Qed.

Lemma scan_points_total ks idxs :
  (forall i, In i idxs -> 0 <= i < size P_pts) ->
  exists r, scan_points P_pts R_hull p_is_pump ks idxs = Some r.
Proof.
  induction idxs as [|i idxs IH]; intros Hin; cbn [scan_points]; [eauto|].
  destruct (scan_offsets_total i ks) as [[l|] ->]; [apply Hin; now left|eauto|].
  apply IH. intros i' Hi'. apply Hin. now right.
Qed.

End RunHTotal.

Lemma indices_range v i : In i (indices v) -> 0 <= i < size v.
Proof.
  unfold indices, size. intros Hi. apply in_map_iff in Hi.
  destruct Hi as (k & <- & Hk). apply in_seq in Hk. lia.
Qed.

Lemma run_h_total angular rnd P_pts R_hull p_is_pump :
  angular_spec angular -> P_pts <> [] ->
  exists r, run_h angular rnd P_pts R_hull p_is_pump = Some r.
Proof.
  intros Hang Hne. unfold run_h.
  destruct (Z.eqb_spec (size (angular R_hull P_pts)) 0) as [Hz|Hnz].
  - exfalso. apply Hne. unfold size in Hz.
    pose proof (Permutation_length (Hang R_hull P_pts)) as Hl.
    apply length_zero_iff_nil. lia.
  - apply scan_points_total. apply indices_range.
Qed.


(** The same holds whatever the angular order and the random offsets. *)
Lemma solve_enclosed_reports_none_any angular rand :
  angular_spec angular ->
  solve insertion_sort angular rand
    (read_points [(0, 0); (100, 0); (0, 100)])
    (read_points [(10, 10); (11, 10); (10, 11)]) = Some None.
Proof.
  intros Hang. rewrite solve_unfold. cbv zeta.
  set (P' := fst (convex_hull insertion_sort (read_points [(0, 0); (100, 0); (0, 100)]))).
  set (HP := snd (convex_hull insertion_sort (read_points [(0, 0); (100, 0); (0, 100)]))).
  set (R' := fst (convex_hull insertion_sort (read_points [(10, 10); (11, 10); (10, 11)]))).
  set (HR := snd (convex_hull insertion_sort (read_points [(10, 10); (11, 10); (10, 11)]))).
  assert (H1 : forall rnd, run_h angular rnd P' HR true = Some None).
  { intros rnd. destruct (run_h_total angular rnd P' HR true Hang) as [[l|] E];
      [vm_compute; discriminate| |exact E].
    exfalso. apply run_h_sound in E; [|exact Hang].
    destruct E as (A & B & r1 & r2 & HA & HB & E & _).
    vm_compute in HA, HB.
    destruct HA as [<-|[<-|[<-|[]]]]; destruct HB as [<-|[<-|[<-|[]]]];
      vm_compute in E; discriminate E. }
  assert (H2 : forall rnd, run_h angular rnd R' HP false = Some None).
  { intros rnd. destruct (run_h_total angular rnd R' HP false Hang) as [[l|] E];
      [vm_compute; discriminate| |exact E].
    exfalso. apply run_h_sound in E; [|exact Hang].
    destruct E as (A & B & r1 & r2 & HA & HB & E & _).
    vm_compute in HA, HB.
    destruct HA as [<-|[<-|[<-|[]]]]; destruct HB as [<-|[<-|[<-|[]]]];
      vm_compute in E; discriminate E. }
  rewrite H1, H2. vm_compute. reflexivity.
Qed.

(** Run on its own, the fallback loop finds a crossing on this input; in
    [solve] it is not reached there, the first search reports before. *)
Lemma fallback_example :
  let P := read_points [(0, 0); (4, 0); (4, 4); (0, 4)] in
  let R := read_points [(2, 2); (6, 2); (6, 6); (2, 6)] in
  fallback (snd (convex_hull insertion_sort R)) (snd (convex_hull insertion_sort P))
           (fst (convex_hull insertion_sort P)) = Some (Some (3, 1, 4, 1)) /\
  exists line,
    run_h exact_angular (map (fun _ => 0) (seq 0 10)) (fst (convex_hull insertion_sort P))
          (snd (convex_hull insertion_sort R)) true = Some (Some line).
Proof. cbv zeta. split; [vm_compute; reflexivity|]. eexists. vm_compute. reflexivity. Qed.

(** ** 64-bit arithmetic *)





(** ** Further properties: the segment test *)

(** ** Further properties of the primitives *)

Lemma boxes_meet_sym a b c d : boxes_meet a b c d -> boxes_meet c d a b.
Proof. unfold boxes_meet. tauto. Qed.

Lemma boxes_meet_swap a b c d : boxes_meet a b c d -> boxes_meet b a c d.
Proof. unfold boxes_meet. rewrite (Z.max_comm (x b)), (Z.min_comm (x b)),
  (Z.max_comm (y b)), (Z.min_comm (y b)). tauto. Qed.

Lemma straddles_opp u v : straddles u v -> straddles (- u) (- v).
Proof. unfold straddles. lia. Qed.

Lemma straddles_comm u v : straddles u v -> straddles v u.
Proof. unfold straddles. lia. Qed.

Lemma bool_eq_of_impl (b1 b2 : bool) :
  (b1 = true -> b2 = true) -> (b2 = true -> b1 = true) -> b1 = b2.
Proof.
  destruct b1, b2; intros H1 H2; try reflexivity.
  - symmetry. now apply H1.
  - now apply H2.
Qed.

(** X1. [segments_intersect] is symmetric: the answer does not depend on
    which segment is given first, nor on the order of the two endpoints of
    either segment. *)
Theorem segments_intersect_symmetric (a b c d : Point) :
  segments_intersect a b c d = segments_intersect c d a b /\
  segments_intersect a b c d = segments_intersect b a c d /\
  segments_intersect a b c d = segments_intersect a b d c.
Proof.
  assert (S1 : forall a b c d, segments_intersect a b c d = true ->
                               segments_intersect c d a b = true).
  { intros a' b' c' d' H. apply segments_intersect_true_iff in H.
    apply segments_intersect_true_iff. destruct H as (B & H1 & H2).
    split; [now apply boxes_meet_sym|]. now split. }
  assert (S2 : forall a b c d, segments_intersect a b c d = true ->
                               segments_intersect b a c d = true).
  { intros a' b' c' d' H. apply segments_intersect_true_iff in H.
    apply segments_intersect_true_iff. destruct H as (B & H1 & H2).
    split; [now apply boxes_meet_swap|]. split.
    - replace (cross_product b' a' c') with (- cross_product a' b' c')
        by (rewrite !cross_product_eq; ring).
      replace (cross_product b' a' d') with (- cross_product a' b' d')
        by (rewrite !cross_product_eq; ring).
      now apply straddles_opp.
    - now apply straddles_comm. }
  assert (S3 : forall a b c d, segments_intersect a b c d = true ->
                               segments_intersect a b d c = true).
  { intros a' b' c' d' H. apply S1, S2, S1. exact H. }
  split; [|split]; apply bool_eq_of_impl; auto.
Qed.

(** ** Further properties: [solve] on empty, crossing and separate sets *)

Lemma fallback_hull_total HR p qs : exists r, fallback_hull HR p qs = Some r.
Proof.
  induction qs as [|q qs IH]; cbn [fallback_hull]; [eauto|].
  destruct (is_inside_total HR q) as [b ->].
  destruct b; cbn [negb]; [exact IH|].
  destruct (locator_total p q HR) as [[[r1 r2]|] ->]; [eauto|exact IH].
Qed.

Lemma fallback_total HR HP ps : exists r, fallback HR HP ps = Some r.
Proof.
  induction ps as [|p ps IH]; cbn [fallback]; [eauto|].
  destruct (is_inside_total HR p) as [b ->].
  destruct b; [apply fallback_hull_total|exact IH].
Qed.

Lemma fallback_sound HR HP ps line :
  fallback HR HP ps = Some (Some line) ->
  exists p q r1 r2, In p ps /\ In q HP /\
    intersect_segment_convex_poly_log p q HR = Some (Some (r1, r2)) /\
    line = (id p, id q, r1, r2).
Proof.
  induction ps as [|p ps IH]; cbn [fallback]; [discriminate|].
  destruct (is_inside HR p) as [[|]|]; [| |discriminate].
  - intros H. apply fallback_hull_sound in H.
    destruct H as (q & r1 & r2 & Hq & _ & E & ->).
    exists p, q, r1, r2. repeat split; auto. now left.
  - intros H. destruct (IH H) as (p' & q & r1 & r2 & Hp & Hr).
    exists p', q, r1, r2. split; [now right|exact Hr].
Qed.

Lemma locator_empty A B : intersect_segment_convex_poly_log A B [] = Some None.
Proof. reflexivity. Qed.

Lemma run_h_empty_hull angular rnd P_pts flag :
  angular_spec angular -> P_pts <> [] ->
  run_h angular rnd P_pts [] flag = Some None.
Proof.
  intros Hang Hne. destruct (run_h_total angular rnd P_pts [] flag Hang Hne) as [[l|] E];
    [|exact E].
  apply run_h_sound in E; [|exact Hang].
  destruct E as (A & B & r1 & r2 & _ & _ & E & _).
  rewrite locator_empty in E. discriminate.
Qed.

Lemma run_h_no_points angular rnd hull flag :
  angular_spec angular -> run_h angular rnd [] hull flag = None.
Proof.
  intros Hang. unfold run_h.
  pose proof (Hang hull []) as Hp. apply Permutation_nil in Hp. now rewrite Hp.
Qed.

Lemma perm_nil_iff (l l' : list Point) : Permutation l l' -> l = [] <-> l' = [].
Proof.
  intros H. split; intros ->.
  - now apply Permutation_nil.
  - now apply Permutation_nil, Permutation_sym.
Qed.

Lemma convex_hull_nil sort : convex_hull sort [] = ([], []).
Proof. reflexivity. Qed.

(** For non-empty sets [solve] ends, with a line or with -1. *)
Lemma solve_total (sort : list Point -> list Point)
    (angular : list Point -> list Point -> list Point) (rand : nat -> Z)
    (P R : list Point) :
  sort_spec sort -> angular_spec angular -> P <> [] -> R <> [] ->
  exists r, solve sort angular rand P R = Some r.
Proof.
  intros Hsort Hang HP HR. rewrite solve_unfold. cbv zeta.
  assert (HP' : fst (convex_hull sort P) <> []).
  { intros E0. apply HP.
    apply (proj2 (perm_nil_iff _ _ (convex_hull_fst_perm sort P Hsort)) E0). }
  assert (HR' : fst (convex_hull sort R) <> []).
  { intros E0. apply HR.
    apply (proj2 (perm_nil_iff _ _ (convex_hull_fst_perm sort R Hsort)) E0). }
  destruct (run_h_total angular (map rand (seq 0 10)) _
              (snd (convex_hull sort R)) true Hang HP') as [[l|] ->]; [eauto|].
  destruct (run_h_total angular (map rand (seq 10 10)) _
              (snd (convex_hull sort P)) false Hang HR') as [[l|] ->]; [eauto|].
  destruct (fallback_total (snd (convex_hull sort R)) (snd (convex_hull sort P))
              (fst (convex_hull sort P))) as [[l|] ->]; eauto.
Qed.

(** X10. [solve] faults, by [rand() % n_p] with [n_p = 0], exactly when
    one of the two sets is empty; for non-empty sets it always ends, with a
    line or with -1. *)
Theorem solve_faults_iff_empty (sort : list Point -> list Point)
    (angular : list Point -> list Point -> list Point) (rand : nat -> Z)
    (P R : list Point) :
  sort_spec sort -> angular_spec angular ->
  (solve sort angular rand P R = None <-> P = [] \/ R = []).
Proof.
  intros Hsort Hang. rewrite solve_unfold. cbv zeta.
  pose proof (perm_nil_iff _ _ (convex_hull_fst_perm sort P Hsort)) as HP.
  pose proof (perm_nil_iff _ _ (convex_hull_fst_perm sort R Hsort)) as HR.
  split.
  - intros H.
    destruct P as [|p P]; [now left|]. destruct R as [|r R]; [now right|]. exfalso.
    assert (HP' : fst (convex_hull sort (p :: P)) <> [])
      by (intros E; apply (proj2 HP) in E; discriminate).
    assert (HR' : fst (convex_hull sort (r :: R)) <> [])
      by (intros E; apply (proj2 HR) in E; discriminate).
    destruct (run_h_total angular (map rand (seq 0 10)) _
                (snd (convex_hull sort (r :: R))) true Hang HP') as [[l|] E1];
      rewrite E1 in H; [discriminate|].
    destruct (run_h_total angular (map rand (seq 10 10)) _
                (snd (convex_hull sort (p :: P))) false Hang HR') as [[l|] E2];
      rewrite E2 in H; [discriminate|].
    destruct (fallback_total (snd (convex_hull sort (r :: R)))
                (snd (convex_hull sort (p :: P)))
                (fst (convex_hull sort (p :: P)))) as [[l|] E3];
      rewrite E3 in H; discriminate.
  - intros [->| ->].
    + rewrite convex_hull_nil. cbn [fst snd]. now rewrite run_h_no_points.
    + rewrite convex_hull_nil. cbn [fst snd].
      destruct P as [|p P].
      * rewrite convex_hull_nil. cbn [fst]. now rewrite run_h_no_points.
      * rewrite run_h_empty_hull; [|exact Hang|intros E; apply (proj2 HP) in E; discriminate].
        now rewrite run_h_no_points.
Qed.

Lemma reports_crossing poly A B r1 r2 :
  intersect_segment_convex_poly_log A B poly = Some (Some (r1, r2)) ->
  exists e1 e2, In e1 poly /\ In e2 poly /\ id e1 = r1 /\ id e2 = r2 /\
    segments_share_point A B e1 e2.
Proof.
  intros E. apply locator_reports in E.
  destruct E as (e1 & e2 & He & I1 & I2 & Hs).
  destruct (cyclic_edge_In _ _ _ He) as [H1 H2].
  exists e1, e2. repeat split; auto. now apply intersect_share_point.
Qed.

(** Every printed line names a true crossing. *)
Lemma solve_line_crossing (sort : list Point -> list Point)
    (angular : list Point -> list Point -> list Point) (rand : nat -> Z)
    (P R : list Point) (line : Line) :
  sort_spec sort -> angular_spec angular ->
  solve sort angular rand P R = Some (Some line) ->
  crossing_line P R line.
Proof.
  intros Hsort Hang. rewrite solve_unfold. cbv zeta.
  assert (inP : forall p, In p (fst (convex_hull sort P)) -> In p P).
  { intros p. apply Permutation_in, Permutation_sym, convex_hull_fst_perm, Hsort. }
  assert (inR : forall p, In p (fst (convex_hull sort R)) -> In p R).
  { intros p. apply Permutation_in, Permutation_sym, convex_hull_fst_perm, Hsort. }
  pose proof (fun v => convex_hull_snd_sub sort P v Hsort) as hP.
  pose proof (fun v => convex_hull_snd_sub sort R v Hsort) as hR.
  destruct (run_h angular (map rand (seq 0 10)) _ _ true) as [[l|]|] eqn:E1;
    [| |discriminate].
  - intros H. injection H as ->. apply run_h_sound in E1; [|exact Hang].
    destruct E1 as (A & B & r1 & r2 & HA & HB & E & ->).
    destruct (reports_crossing _ _ _ _ _ E) as (e1 & e2 & H1 & H2 & <- & <- & Hs).
    exists A, B, e1, e2. auto 10.
  - destruct (run_h angular (map rand (seq 10 10)) _ _ false) as [[l|]|] eqn:E2;
      [| |discriminate].
    + intros H. injection H as ->. apply run_h_sound in E2; [|exact Hang].
      destruct E2 as (A & B & r1 & r2 & HA & HB & E & ->).
      destruct (reports_crossing _ _ _ _ _ E) as (e1 & e2 & H1 & H2 & <- & <- & Hs).
      exists e1, e2, A, B. repeat split; auto. now apply share_point_sym.
    + destruct (fallback _ _ _) as [[l|]|] eqn:E3; [| discriminate | discriminate].
      intros H. injection H as ->. apply fallback_sound in E3.
      destruct E3 as (p & q & r1 & r2 & Hp & Hq & E & ->).
      destruct (reports_crossing _ _ _ _ _ E) as (e1 & e2 & H1 & H2 & <- & <- & Hs).
      exists p, q, e1, e2. repeat split; auto.
Qed.

(** X12. For non-empty sets in which no segment between two points of
    [P] shares a point with a segment between two points of [R], [solve]
    prints -1, whatever the angular order and the values of [rand]. *)
Theorem solve_none_when_apart (sort : list Point -> list Point)
    (angular : list Point -> list Point -> list Point) (rand : nat -> Z)
    (P R : list Point) :
  sort_spec sort -> angular_spec angular ->
  P <> [] -> R <> [] -> sets_apart P R ->
  solve sort angular rand P R = Some None.
Proof.
  intros Hsort Hang HP HR Hapart.
  destruct (solve sort angular rand P R) as [[line|]|] eqn:E.
  - exfalso. apply solve_line_crossing in E; [|exact Hsort|exact Hang].
    destruct E as (p1 & p2 & q1 & q2 & H1 & H2 & H3 & H4 & _ & Hs).
    exact (Hapart p1 p2 q1 q2 H1 H2 H3 H4 Hs).
  - reflexivity.
  - exfalso. assert (Hf : solve sort angular rand P R = None) by exact E.
    clear E. revert Hf. rewrite solve_unfold. cbv zeta.
    assert (HP' : fst (convex_hull sort P) <> []).
    { intros E0. apply HP.
      apply (proj2 (perm_nil_iff _ _ (convex_hull_fst_perm sort P Hsort)) E0). }
    assert (HR' : fst (convex_hull sort R) <> []).
    { intros E0. apply HR.
      apply (proj2 (perm_nil_iff _ _ (convex_hull_fst_perm sort R Hsort)) E0). }
    destruct (run_h_total angular (map rand (seq 0 10)) _
                (snd (convex_hull sort R)) true Hang HP') as [[l|] ->]; [discriminate|].
    destruct (run_h_total angular (map rand (seq 10 10)) _
                (snd (convex_hull sort P)) false Hang HR') as [[l|] ->]; [discriminate|].
    destruct (fallback_total (snd (convex_hull sort R)) (snd (convex_hull sort P))
                (fst (convex_hull sort P))) as [[l|] ->]; discriminate.
Qed.

Lemma solve_none_when_apart_witness :
  solve insertion_sort exact_angular (fun _ => 0)
    [mkPoint 0 0 1; mkPoint 1 0 2] [mkPoint 5 5 1; mkPoint 6 5 2] = Some None.
Proof.
  apply (solve_none_when_apart insertion_sort exact_angular (fun _ => 0)
           [mkPoint 0 0 1; mkPoint 1 0 2] [mkPoint 5 5 1; mkPoint 6 5 2]
           insertion_sort_spec exact_angular_spec).
  - discriminate.
  - discriminate.
  - intros p1 p2 q1 q2 H1 H2 H3 H4 Hs. apply share_point_intersect in Hs.
    destruct H1 as [<-|[<-|[]]]; destruct H2 as [<-|[<-|[]]];
      destruct H3 as [<-|[<-|[]]]; destruct H4 as [<-|[<-|[]]];
      vm_compute in Hs; discriminate.
Defined.

Lemma solve_faults_iff_empty_witness :
  solve insertion_sort exact_angular (fun _ => 0) [] [mkPoint 0 0 1] = None.
Proof.
  apply (solve_faults_iff_empty insertion_sort exact_angular (fun _ => 0) []
           [mkPoint 0 0 1] insertion_sort_spec exact_angular_spec).
  left. reflexivity.
Defined.

(** ** Further properties: the hill climb and the reading loops *)

(** ** Hill climb *)

Lemma climb_loop_exit A B poly maximize :
  forall fuel iter curr pc c k,
    vec_at poly curr = Some pc ->
    rank_of A B poly maximize pc + iter < size poly -> 0 <= iter ->
    climb_loop A B poly fuel maximize iter curr = Some (c, k) ->
    iter <= k < size poly.
Proof.
  induction fuel as [|fuel IH]; intros iter curr pc c k Hc Hr Hi; cbn [climb_loop].
  - assert (0 <= rank_of A B poly maximize pc) by (unfold rank_of; lia).
    destruct (Z.ltb_spec iter (size poly)); [discriminate|lia].
  - assert (0 <= rank_of A B poly maximize pc) by (unfold rank_of; lia).
    destruct (Z.ltb_spec iter (size poly)) as [Hlt|Hge]; [|lia].
    unfold dot. rewrite Hc.
    destruct (vec_at poly (Z.rem (curr + 1) (size poly))) as [pn|] eqn:En; [|discriminate].
    destruct (vec_at poly (Z.rem (curr - 1 + size poly) (size poly))) as [pp|] eqn:Ep;
      [|discriminate].
    fold (beats A B maximize pn pc). fold (beats A B maximize pp pc).
    destruct (beats A B maximize pn pc) eqn:Bn.
    + intros E. apply (IH (iter + 1) _ pn c k En) in E; [lia| |lia].
      pose proof (rank_drop A B poly maximize pc pn (vec_at_In _ _ _ En) Bn). lia.
    + destruct (beats A B maximize pp pc) eqn:Bp.
      * intros E. apply (IH (iter + 1) _ pp c k Ep) in E; [lia| |lia].
        pose proof (rank_drop A B poly maximize pc pp (vec_at_In _ _ _ Ep) Bp). lia.
      * intros E. injection E as <- <-. lia.
Qed.

(** X6. For every polygon with at least one vertex, convex or not, the
    hill climb leaves through [return curr] before its safety bound of [n]
    iterations is reached, at a vertex that neither cyclic neighbour
    beats. *)
Theorem hill_climb_leaves_before_bound (A B : Point) (poly : list Point)
    (maximize : bool) :
  1 <= size poly ->
  exists c iters,
    hill_climb_run A B poly maximize = Some (c, iters) /\
    0 <= iters < size poly /\ local_opt A B poly maximize c.
Proof.
  intros Hn.
  destruct (hill_climb_run_total A B poly maximize Hn) as (c & k & E & Hc & Hk).
  exists c, k. split; [exact E|]. split; [|now apply hill_climb_local with k].
  unfold hill_climb_run in E.
  destruct (dot A B poly 0) as [v0|] eqn:E0; [|discriminate].
  destruct (sample_loop_total A B poly maximize (Z.max 1 (Z.quot (size poly) 20))
              ltac:(lia) (Z.to_nat (size poly)) 0 0 v0)
    as (b & v & Es & Hb); try lia.
  rewrite Es in E. cbn [fst] in E.
  destruct (vec_at_some poly b Hb) as [pb Epb].
  apply (climb_loop_exit A B poly maximize _ 0 b pb c k Epb) in E; [lia| |lia].
  pose proof (rank_bound A B poly maximize pb (vec_at_In _ _ _ Epb)). lia.
Qed.

(** ** Reading *)

Lemma read_points_nth_aux (cs : list (Z * Z)) : forall (s i : nat),
  nth_error (map (fun ic => mkPoint (fst (snd ic)) (snd (snd ic)) (Z.of_nat (fst ic) + 1))
               (combine (seq s (length cs)) cs)) i =
  option_map (fun c => mkPoint (fst c) (snd c) (Z.of_nat (s + i) + 1)) (nth_error cs i).
Proof.
  induction cs as [|c cs IH]; intros s i; cbn [length seq combine map].
  - now destruct i.
  - destruct i as [|i]; cbn [nth_error option_map].
    + now rewrite Nat.add_0_r.
    + rewrite IH. now rewrite Nat.add_succ_comm.
Qed.

Lemma read_points_nth (cs : list (Z * Z)) (i : nat) :
  nth_error (read_points cs) i =
  option_map (fun c => mkPoint (fst c) (snd c) (Z.of_nat i + 1)) (nth_error cs i).
Proof. unfold read_points. now rewrite read_points_nth_aux. Qed.

(** X2. The reading loops number the points from 1 in input order: the
    point stored at index [i] has id [i + 1] and the coordinates of input
    line [i], so the ids of a set are pairwise distinct. *)
Theorem read_points_ids (cs : list (Z * Z)) :
  size (read_points cs) = Z.of_nat (length cs) /\
  (forall i p, vec_at (read_points cs) i = Some p ->
     id p = i + 1 /\ nth_error cs (Z.to_nat i) = Some (x p, y p)) /\
  NoDup (map id (read_points cs)).
Proof.
  assert (Hlen : length (read_points cs) = length cs).
  { unfold read_points. rewrite length_map, length_combine, length_seq. lia. }
  assert (Hat : forall i p, vec_at (read_points cs) i = Some p ->
     id p = i + 1 /\ nth_error cs (Z.to_nat i) = Some (x p, y p)).
  { intros i p H. pose proof (vec_at_range _ _ _ H) as Hr.
    rewrite vec_at_nth, read_points_nth in H by lia.
    destruct (nth_error cs (Z.to_nat i)) as [[cx cy]|]; [|discriminate].
    injection H as <-. cbn. split; [lia|reflexivity]. }
  split; [unfold size; now rewrite Hlen|]. split; [exact Hat|].
  apply (proj2 (NoDup_nth_error _)). intros i j Hi E.
  rewrite length_map in Hi. rewrite !nth_error_map in E.
  destruct (nth_error (read_points cs) i) as [p|] eqn:Ep;
    [|apply nth_error_None in Ep; lia].
  destruct (nth_error (read_points cs) j) as [q|] eqn:Eq; [|discriminate].
  cbn in E. injection E as E.
  rewrite <- vec_at_nat in Ep, Eq.
  apply Hat in Ep, Eq. lia.
Qed.

Lemma hill_climb_leaves_before_bound_witness :
  exists c iters,
    hill_climb_run (mkPoint 0 0 1) (mkPoint 1 0 2)
      [mkPoint 0 0 1; mkPoint 4 0 2; mkPoint 4 4 3; mkPoint 0 4 4] false = Some (c, iters) /\
    0 <= iters < size [mkPoint 0 0 1; mkPoint 4 0 2; mkPoint 4 4 3; mkPoint 0 4 4] /\
    local_opt (mkPoint 0 0 1) (mkPoint 1 0 2)
      [mkPoint 0 0 1; mkPoint 4 0 2; mkPoint 4 4 3; mkPoint 0 4 4] false c.
Proof.
  apply (hill_climb_leaves_before_bound (mkPoint 0 0 1) (mkPoint 1 0 2)
           [mkPoint 0 0 1; mkPoint 4 0 2; mkPoint 4 4 3; mkPoint 0 4 4] false).
  vm_compute. discriminate.
Defined.

(** ** Further properties: pairs tested by the heuristic *)

Lemma scan_offsets_none P_pts R_hull flag i ks :
  scan_offsets P_pts R_hull flag i ks = Some None ->
  forall k A B, In k ks -> 0 <= i + k ->
    Z.rem (i + k) (size P_pts) <> i ->
    vec_at P_pts i = Some A -> vec_at P_pts (Z.rem (i + k) (size P_pts)) = Some B ->
    intersect_segment_convex_poly_log A B R_hull = Some None.
Proof.
  induction ks as [|k0 ks IH]; cbn [scan_offsets]; intros H k A B Hk Hpos Hne EA EB;
    [destruct Hk|].
  assert (Hrest : scan_offsets P_pts R_hull flag i ks = Some None ->
                  k0 <> k -> intersect_segment_convex_poly_log A B R_hull = Some None).
  { intros H' Hk'. apply (IH H' k); auto. destruct Hk; congruence. }
  destruct (Z.eq_dec k0 k) as [->|Hk0].
  - pose proof (vec_at_range _ _ _ EB) as Hr.
    destruct (Z.ltb_spec (Z.rem (i + k) (size P_pts)) 0) as [Hneg|_]; [lia|].
    destruct (Z.eqb_spec i (Z.rem (i + k) (size P_pts))) as [E|_]; [congruence|].
    rewrite EA, EB in H.
    destruct (intersect_segment_convex_poly_log A B R_hull) as [[[r1 r2]|]|];
      [discriminate|reflexivity|discriminate].
  - revert H.
    set (j := if Z.rem (i + k0) (size P_pts) <? 0
              then Z.rem (i + k0) (size P_pts) + size P_pts
              else Z.rem (i + k0) (size P_pts)).
    destruct (i =? j); [auto|].
    destruct (vec_at P_pts i) as [A'|]; [|discriminate].
    destruct (vec_at P_pts j) as [B'|]; [|discriminate].
    destruct (intersect_segment_convex_poly_log A' B' R_hull) as [[[r1 r2]|]|];
      [discriminate|auto|discriminate].
Qed.

Lemma scan_points_none P_pts R_hull flag ks idxs :
  scan_points P_pts R_hull flag ks idxs = Some None ->
  forall i, In i idxs -> scan_offsets P_pts R_hull flag i ks = Some None.
Proof.
  induction idxs as [|i0 idxs IH]; cbn [scan_points]; intros H i Hi; [destruct Hi|].
  destruct (scan_offsets P_pts R_hull flag i0 ks) as [[l|]|] eqn:E; try discriminate.
  destruct Hi as [<-|Hi]; [exact E|now apply IH].
Qed.

Lemma indices_In v i : 0 <= i < size v -> In i (indices v).
Proof.
  intros Hi. unfold indices. apply in_map_iff. exists (Z.to_nat i).
  split; [lia|]. apply in_seq. unfold size in Hi. lia.
Qed.

Lemma offsets_near n_p rnd k : 1 <= k <= 10 -> In k (offsets n_p rnd).
Proof.
  intros Hk. unfold offsets. apply in_or_app. left. rewrite map_id.
  assert (k = 1 \/ k = 2 \/ k = 3 \/ k = 4 \/ k = 5 \/ k = 6 \/ k = 7 \/ k = 8 \/
          k = 9 \/ k = 10) as H by lia.
  cbn [In]. intuition.
Qed.

(** A failed run of the heuristic has tested every ordered pair whose
    second index is 1 to 10 positions after the first, cyclically. *)
Lemma run_h_near_pairs
    (angular : list Point -> list Point -> list Point) (rnd : list Z)
    (P_pts R_hull : list Point) (p_is_pump : bool) (i j : Z) (A B : Point) :
  angular_spec angular ->
  run_h angular rnd P_pts R_hull p_is_pump = Some None ->
  vec_at (angular R_hull P_pts) i = Some A ->
  vec_at (angular R_hull P_pts) j = Some B ->
  i <> j ->
  (j - i) mod size P_pts <= 10 ->
  intersect_segment_convex_poly_log A B R_hull = Some None.
Proof.
  intros Hang H EA EB Hij Hnear.
  assert (Hsz : size (angular R_hull P_pts) = size P_pts).
  { unfold size. now rewrite <- (Permutation_length (Hang R_hull P_pts)). }
  unfold run_h in H. rewrite <- Hsz in Hnear.
  set (Q := angular R_hull P_pts) in *.
  destruct (size Q =? 0); [discriminate|].
  pose proof (vec_at_range _ _ _ EA) as Hi. pose proof (vec_at_range _ _ _ EB) as Hj.
  apply scan_points_none with (i := i) in H; [|now apply indices_In].
  set (k := (j - i) mod size Q) in *.
  assert (Hk : 0 <= k < size Q) by (apply Z.mod_pos_bound; lia).
  assert (Hjk : Z.rem (i + k) (size Q) = j).
  { rewrite rem_mod by lia. unfold k. rewrite Zplus_mod_idemp_r.
    replace (i + (j - i)) with j by ring. apply Z.mod_small. lia. }
  assert (Hk1 : 1 <= k).
  { destruct (Z.eq_dec k 0) as [E|]; [|lia]. rewrite E, Z.add_0_r in Hjk.
    rewrite Z.rem_small in Hjk by lia. congruence. }
  apply (scan_offsets_none _ _ _ _ _ H k A B); try assumption.
  - apply offsets_near. lia.
  - lia.
  - congruence.
  - now rewrite Hjk.
Qed.

(** X9. A run of the heuristic that finds nothing has put to the locator
    every ordered pair of points whose second index, in the angular order,
    is 1 to 10 positions after the first, cyclically: all of these were
    rejected.  With at most 11 points these are all ordered pairs of
    distinct indices. *)
Theorem run_h_tests_near_pairs
    (angular : list Point -> list Point -> list Point) (rnd : list Z)
    (P_pts R_hull : list Point) (p_is_pump : bool) (i j : Z) (A B : Point) :
  angular_spec angular ->
  run_h angular rnd P_pts R_hull p_is_pump = Some None ->
  vec_at (angular R_hull P_pts) i = Some A ->
  vec_at (angular R_hull P_pts) j = Some B ->
  i <> j ->
  (j - i) mod size P_pts <= 10 \/ size P_pts <= 11 ->
  intersect_segment_convex_poly_log A B R_hull = Some None.
Proof.
  intros Hang H EA EB Hij Hnear.
  apply (run_h_near_pairs angular rnd P_pts R_hull p_is_pump i j A B); auto.
  destruct Hnear as [Hnear|Hsmall]; [exact Hnear|].
  pose proof (vec_at_range _ _ _ EA) as Hi.
  assert (Hsz : size (angular R_hull P_pts) = size P_pts).
  { unfold size. now rewrite <- (Permutation_length (Hang R_hull P_pts)). }
  pose proof (Z.mod_pos_bound (j - i) (size P_pts) ltac:(lia)). lia.
Qed.

Lemma run_h_tests_near_pairs_witness :
  intersect_segment_convex_poly_log (mkPoint 0 0 1) (mkPoint 1 0 2)
    [mkPoint 5 5 1; mkPoint 6 5 2; mkPoint 5 6 3] = Some None.
Proof.
  apply (run_h_tests_near_pairs exact_angular [] [mkPoint 0 0 1; mkPoint 1 0 2]
           [mkPoint 5 5 1; mkPoint 6 5 2; mkPoint 5 6 3] true 0 1).
  - apply exact_angular_spec.
  - vm_compute. reflexivity.
  - vm_compute. reflexivity.
  - vm_compute. reflexivity.
  - lia.
  - right. vm_compute. discriminate.
Defined.

(** ** Further properties: strictly convex polygons *)

(** [cp] and [dot] differ by a constant. *)
Lemma cp_dot A B p : cross_product A B p = dot_of A B p - dot_of A B A.
Proof. unfold dot_of. rewrite cross_product_eq. ring. Qed.

(** No vertex of a strict left turn lies strictly between two points that
    are both in the wedge of the turn. *)
Lemma geo_between P m N a b :
  0 < cross_product P m N ->
  0 <= cross_product P m a -> 0 <= cross_product P m b ->
  0 <= cross_product m N a -> 0 <= cross_product m N b ->
  cross_product a m b = 0 ->
  lex_le a m -> lex_le m b -> apart a m -> apart m b -> False.
Proof.
  intros Ht Pa Pb Na Nb Hc Lam Lmb Aam Amb.
  unfold apart, same_place in *. coords.
  destruct P as [P1 P2 ?], m as [m1 m2 ?], N as [N1 N2 ?], a as [a1 a2 ?], b as [b1 b2 ?];
    cbn in *.
  destruct (Z.eq_dec a1 m1) as [E|Ne].
  - subst a1. assert (a2 < m2) by lia.
    assert (b1 = m1) by nia. subst b1. assert (m2 < b2) by lia.
    assert (P1 = m1) by nia. assert (N1 = m1) by nia. subst. nia.
  - assert (a1 < m1) by lia.
    assert (m1 < b1).
    { destruct (Z.eq_dec m1 b1); [|lia]. subst b1. exfalso. nia. }
    set (f := fun v1 v2 => (m1 - P1) * v2 - (m2 - P2) * v1).
    set (g := fun v1 v2 => (N1 - m1) * v2 - (N2 - m2) * v1).
    assert (Fa : 0 <= f (a1 - m1) (a2 - m2)) by (unfold f; lia).
    assert (Fb : 0 <= f (b1 - m1) (b2 - m2)) by (unfold f; lia).
    assert (Ga : 0 <= g (a1 - m1) (a2 - m2)) by (unfold g; lia).
    assert (Gb : 0 <= g (b1 - m1) (b2 - m2)) by (unfold g; lia).
    assert (K : (m1 - a1) * (b2 - m2) - (b1 - m1) * (m2 - a2) = 0) by lia.
    assert (Ef : (m1 - a1) * f (b1 - m1) (b2 - m2) + (b1 - m1) * f (a1 - m1) (a2 - m2) = 0).
    { unfold f.
      replace ((m1 - a1) * ((m1 - P1) * (b2 - m2) - (m2 - P2) * (b1 - m1)) +
               (b1 - m1) * ((m1 - P1) * (a2 - m2) - (m2 - P2) * (a1 - m1)))
        with ((m1 - P1) * ((m1 - a1) * (b2 - m2) - (b1 - m1) * (m2 - a2))) by ring.
      rewrite K. ring. }
    assert (Eg : (m1 - a1) * g (b1 - m1) (b2 - m2) + (b1 - m1) * g (a1 - m1) (a2 - m2) = 0).
    { unfold g.
      replace ((m1 - a1) * ((N1 - m1) * (b2 - m2) - (N2 - m2) * (b1 - m1)) +
               (b1 - m1) * ((N1 - m1) * (a2 - m2) - (N2 - m2) * (a1 - m1)))
        with ((N1 - m1) * ((m1 - a1) * (b2 - m2) - (b1 - m1) * (m2 - a2))) by ring.
      rewrite K. ring. }
    assert (Fa0 : f (a1 - m1) (a2 - m2) = 0) by nia.
    assert (Ga0 : g (a1 - m1) (a2 - m2) = 0) by nia.
    unfold f in Fa0. unfold g in Ga0.
    assert ((a1 - m1) * ((m1 - P1) * (N2 - m2) - (m2 - P2) * (N1 - m1)) = 0).
    { replace ((a1 - m1) * ((m1 - P1) * (N2 - m2) - (m2 - P2) * (N1 - m1)))
        with ((N1 - m1) * ((m1 - P1) * (a2 - m2) - (m2 - P2) * (a1 - m1)) -
              (m1 - P1) * ((N1 - m1) * (a2 - m2) - (N2 - m2) * (a1 - m1))) by ring.
      rewrite Fa0, Ga0. ring. }
    nia.
Qed.

Lemma vertex_neighbours poly c pc :
  3 <= size poly -> vec_at poly c = Some pc ->
  exists pn pp,
    vec_at poly (Z.rem (c + 1) (size poly)) = Some pn /\
    vec_at poly (Z.rem (c - 1 + size poly) (size poly)) = Some pp /\
    cyclic_triple poly pp pc pn /\ cyclic_edge poly pp pc /\ cyclic_edge poly pc pn.
Proof.
  intros Hn Hc. pose proof (vec_at_range _ _ _ Hc) as Hr.
  destruct (vec_at_some poly (Z.rem (c + 1) (size poly))) as [pn En];
    [apply rem_range; lia|].
  destruct (vec_at_some poly (Z.rem (c - 1 + size poly) (size poly))) as [pp Ep];
    [apply rem_range; lia|].
  exists pn, pp. split; [exact En|]. split; [exact Ep|].
  now apply neighbours_cyclic with c.
Qed.

Lemma middle_not_collinear poly m pm lo hi :
  3 <= size poly -> convex_ccw poly ->
  vec_at poly m = Some pm -> In lo poly -> In hi poly ->
  cross_product lo pm hi = 0 ->
  lex_le lo pm -> lex_le pm hi -> apart lo pm -> apart pm hi -> False.
Proof.
  intros Hn [Hedge Hturn] Hm Hlo Hhi Hc L1 L2 A1 A2.
  destruct (vertex_neighbours poly m pm Hn Hm) as (pn & pp & _ & _ & T & E1 & E2).
  apply (geo_between pp pm pn lo hi); auto.
Qed.

(** No three vertices of a strictly convex polygon with distinct vertices
    are collinear. *)
Lemma no_three_collinear poly i j k a b c :
  3 <= size poly -> convex_ccw poly -> distinct_places poly ->
  vec_at poly i = Some a -> vec_at poly j = Some b -> vec_at poly k = Some c ->
  i <> j -> j <> k -> i <> k -> cross_product a b c <> 0.
Proof.
  intros Hn Hconv Hd Ha Hb Hc Hij Hjk Hik H0.
  pose proof (Hd i j a b Ha Hb Hij) as Aab.
  pose proof (Hd j k b c Hb Hc Hjk) as Abc.
  pose proof (Hd i k a c Ha Hc Hik) as Aac.
  pose proof (vec_at_In _ _ _ Ha) as Ia.
  pose proof (vec_at_In _ _ _ Hb) as Ib.
  pose proof (vec_at_In _ _ _ Hc) as Ic.
  assert (Aba : apart b a) by (intros [? ?]; apply Aab; split; congruence).
  assert (Acb : apart c b) by (intros [? ?]; apply Abc; split; congruence).
  assert (Aca : apart c a) by (intros [? ?]; apply Aac; split; congruence).
  assert (C1 : cross_product a b c = 0) by exact H0.
  assert (C2 : cross_product c b a = 0) by (rewrite cross_product_eq in *; lia).
  assert (C3 : cross_product b a c = 0) by (rewrite cross_product_eq in *; lia).
  assert (C4 : cross_product c a b = 0) by (rewrite cross_product_eq in *; lia).
  assert (C5 : cross_product a c b = 0) by (rewrite cross_product_eq in *; lia).
  assert (C6 : cross_product b c a = 0) by (rewrite cross_product_eq in *; lia).
  destruct (lex_le_total a b) as [Lab|Lba];
  destruct (lex_le_total b c) as [Lbc|Lcb];
  destruct (lex_le_total a c) as [Lac|Lca].
  - exact (middle_not_collinear poly j b a c Hn Hconv Hb Ia Ic C1 Lab Lbc Aab Abc).
  - exact (middle_not_collinear poly j b a c Hn Hconv Hb Ia Ic C1 Lab Lbc Aab Abc).
  - exact (middle_not_collinear poly k c a b Hn Hconv Hc Ia Ib C5 Lac Lcb Aac Acb).
  - exact (middle_not_collinear poly i a c b Hn Hconv Ha Ic Ib C4 Lca Lab Aca Aab).
  - exact (middle_not_collinear poly i a b c Hn Hconv Ha Ib Ic C3 Lba Lac Aba Aac).
  - exact (middle_not_collinear poly k c b a Hn Hconv Hc Ib Ia C6 Lbc Lca Abc Aca).
  - exact (middle_not_collinear poly j b c a Hn Hconv Hb Ic Ia C2 Lcb Lba Acb Aba).
  - exact (middle_not_collinear poly j b c a Hn Hconv Hb Ic Ia C2 Lcb Lba Acb Aba).
Qed.

(** Three points on the line through two distinct points are collinear. *)
Lemma collinear_on_line A B p q r :
  apart A B ->
  cross_product A B p = 0 -> cross_product A B q = 0 -> cross_product A B r = 0 ->
  cross_product p q r = 0.
Proof.
  unfold apart, same_place. intros HAB Hp Hq Hr. coords.
  destruct A as [A1 A2 ?], B as [B1 B2 ?], p as [p1 p2 ?], q as [q1 q2 ?], r as [r1 r2 ?];
    cbn in *.
  destruct (Z.eq_dec B1 A1) as [E|N].
  - assert (B2 - A2 <> 0) by lia. rewrite E in *.
    assert (p1 = A1) by nia. assert (q1 = A1) by nia. assert (r1 = A1) by nia.
    subst. ring.
  - assert (Hd : B1 - A1 <> 0) by lia.
    assert ((B1 - A1) * ((q1 - p1) * (r2 - p2) - (q2 - p2) * (r1 - p1)) = 0); [|nia].
    replace ((B1 - A1) * ((q1 - p1) * (r2 - p2) - (q2 - p2) * (r1 - p1)))
      with ((q1 - p1) * (((B1 - A1) * (r2 - A2) - (B2 - A2) * (r1 - A1)) -
                         ((B1 - A1) * (p2 - A2) - (B2 - A2) * (p1 - A1))) -
            (r1 - p1) * (((B1 - A1) * (q2 - A2) - (B2 - A2) * (q1 - A1)) -
                         ((B1 - A1) * (p2 - A2) - (B2 - A2) * (p1 - A1)))) by ring.
    rewrite Hp, Hq, Hr. ring.
Qed.

Lemma mul_cancel_nonzero (d v : Z) : d <> 0 -> d * v = 0 -> v = 0.
Proof. intros Hd H. apply Z.mul_eq_0 in H. tauto. Qed.

Lemma opposite_scalings (d v X Y cn cp : Z) :
  d <> 0 -> v <> 0 -> 0 <= X -> 0 <= Y ->
  d * X = - v * cn -> d * Y = v * cp -> 0 < cn * cp -> False.
Proof.
  intros Hd Hv HX HY E1 E2 Hs.
  assert (E : d * d * (X * Y) = - (v * v * (cn * cp))).
  { replace (d * d * (X * Y)) with ((d * X) * (d * Y)) by ring. rewrite E1, E2. ring. }
  assert (0 < d * d) by nia. assert (0 < v * v) by nia.
  assert (0 <= d * d * (X * Y)) by (apply Z.mul_nonneg_nonneg; nia).
  assert (0 < v * v * (cn * cp)) by (apply Z.mul_pos_pos; assumption).
  lia.
Qed.

(** A second vertex on a supporting line puts a neighbour on the line. *)
Lemma geo_adj A B pp pc pn e :
  apart A B -> apart pc e ->
  cross_product A B pc = 0 -> cross_product A B e = 0 ->
  0 <= cross_product pp pc e -> 0 <= cross_product pc pn e ->
  (cross_product A B pn <= 0 /\ cross_product A B pp <= 0) \/
  (0 <= cross_product A B pn /\ 0 <= cross_product A B pp) ->
  cross_product A B pn = 0 \/ cross_product A B pp = 0.
Proof.
  unfold apart, same_place. intros HAB Hce Hc He Hp Hn Hs.
  destruct (Z.eq_dec (cross_product A B pn) 0) as [|Nn]; [now left|].
  destruct (Z.eq_dec (cross_product A B pp) 0) as [|Np]; [now right|].
  exfalso. coords.
  destruct A as [A1 A2 ?], B as [B1 B2 ?], pp as [P1 P2 ?], pc as [c1 c2 ?],
    pn as [N1 N2 ?], e as [e1 e2 ?]; cbn in *.
  remember (B1 - A1) as d1 eqn:Ed1. remember (B2 - A2) as d2 eqn:Ed2.
  remember (e1 - c1) as v1 eqn:Ev1. remember (e2 - c2) as v2 eqn:Ev2.
  assert (Hv : d1 * v2 - d2 * v1 = 0) by (subst v1 v2; lia).
  remember (d1 * (N2 - c2) - d2 * (N1 - c1)) as cpn eqn:Ecpn.
  remember (d1 * (P2 - c2) - d2 * (P1 - c1)) as cpp eqn:Ecpp.
  assert (En : d1 * (N2 - A2) - d2 * (N1 - A1) = cpn) by (subst cpn; lia).
  assert (Ep : d1 * (P2 - A2) - d2 * (P1 - A1) = cpp) by (subst cpp; lia).
  rewrite En in Nn, Hs. rewrite Ep in Np, Hs.
  remember ((N1 - c1) * v2 - (N2 - c2) * v1) as X eqn:EX.
  remember ((c1 - P1) * v2 - (c2 - P2) * v1) as Y eqn:EY.
  assert (HX : 0 <= X) by (subst X v1 v2; lia).
  assert (HY : 0 <= Y) by (subst Y v1 v2; lia).
  assert (Hsame : 0 < cpn * cpp).
  { destruct Hs as [[? ?]|[? ?]].
    - replace (cpn * cpp) with ((- cpn) * (- cpp)) by ring. apply Z.mul_pos_pos; lia.
    - apply Z.mul_pos_pos; lia. }
  assert (Hd : d1 <> 0 \/ d2 <> 0) by (subst d1 d2; lia).
  assert (Hvn : v1 <> 0 \/ v2 <> 0) by (subst v1 v2; lia).
  destruct (Z.eq_dec d1 0) as [D0|D1].
  - assert (Hd2 : d2 <> 0) by tauto.
    assert (V1 : v1 = 0).
    { apply (mul_cancel_nonzero d2); [exact Hd2|]. rewrite D0 in Hv. lia. }
    assert (V2 : v2 <> 0) by tauto.
    apply (opposite_scalings d2 v2 X Y cpn cpp); auto.
    + subst X cpn. rewrite D0, V1. ring.
    + subst Y cpp. rewrite D0, V1. ring.
  - assert (V1 : v1 <> 0).
    { intros V0. rewrite V0 in Hv.
      assert (v2 = 0) by (apply (mul_cancel_nonzero d1); [exact D1|lia]). tauto. }
    apply (opposite_scalings d1 v1 X Y cpn cpp); auto.
    + subst X cpn.
      replace (d1 * ((N1 - c1) * v2 - (N2 - c2) * v1))
        with ((N1 - c1) * (d1 * v2 - d2 * v1) - v1 * (d1 * (N2 - c2) - d2 * (N1 - c1)))
        by ring.
      rewrite Hv. ring.
    + subst Y cpp.
      replace (d1 * ((c1 - P1) * v2 - (c2 - P2) * v1))
        with ((c1 - P1) * (d1 * v2 - d2 * v1) + v1 * (d1 * (P2 - c2) - d2 * (P1 - c1)))
        by ring.
      rewrite Hv. ring.
Qed.

Lemma next_index c n :
  0 <= c < n -> Z.rem (c + 1) n = if c + 1 =? n then 0 else c + 1.
Proof.
  intros Hc. destruct (Z.eqb_spec (c + 1) n) as [E|N].
  - rewrite E. apply Z.rem_same. lia.
  - apply Z.rem_small. lia.
Qed.

Lemma prev_index c n :
  0 <= c < n -> Z.rem (c - 1 + n) n = if c =? 0 then n - 1 else c - 1.
Proof.
  intros Hc. rewrite rem_mod by lia. destruct (Z.eqb_spec c 0) as [E|N].
  - subst c. replace (0 - 1 + n) with (n - 1) by ring. apply Z.mod_small. lia.
  - replace (c - 1 + n) with (c - 1 + 1 * n) by ring. rewrite Z.mod_add by lia.
    apply Z.mod_small. lia.
Qed.

Lemma share_start A B p q :
  on_segment A B (IZR (x p)) (IZR (y p)) -> segments_intersect A B p q = true.
Proof.
  intros H. apply share_point_intersect. exists (IZR (x p)), (IZR (y p)).
  split; [exact H|apply on_segment_start].
Qed.

Lemma share_end A B p q :
  on_segment A B (IZR (x q)) (IZR (y q)) -> segments_intersect A B p q = true.
Proof.
  intros H. apply share_point_intersect. exists (IZR (x q)), (IZR (y q)).
  split; [exact H|apply on_segment_end].
Qed.

Section SupportingLine.
Variables (A B : Point) (poly : list Point).
Hypothesis size_poly : 3 <= size poly.
Hypothesis convex : convex_ccw poly.
Hypothesis distinct : distinct_places poly.
Hypothesis HAB : apart A B.
Variables (c : Z) (pc pn pp : Point).
Hypothesis Hc : vec_at poly c = Some pc.
Hypothesis Hn : vec_at poly (Z.rem (c + 1) (size poly)) = Some pn.
Hypothesis Hp : vec_at poly (Z.rem (c - 1 + size poly) (size poly)) = Some pp.
Hypothesis on_line : cross_product A B pc = 0.
Hypothesis one_side :
  (forall q, In q poly -> cross_product A B q <= 0) \/
  (forall q, In q poly -> 0 <= cross_product A B q).

Lemma zero_vertex k w :
  vec_at poly k = Some w -> cross_product A B w = 0 ->
  on_segment A B (IZR (x w)) (IZR (y w)) ->
  segments_intersect A B pc pn = true \/ segments_intersect A B pp pc = true.
Proof.
  intros Hk Hw Hon.
  pose proof (vec_at_range _ _ _ Hc) as Rc.
  destruct (Z.eq_dec k c) as [->|Nkc].
  { left. rewrite Hc in Hk. injection Hk as ->. now apply share_start. }
  destruct (neighbours_cyclic poly c pc pn pp size_poly Hc Hn Hp) as (T & E1 & E2).
  destruct convex as [Hedge Hturn].
  pose proof (vec_at_In _ _ _ Hk) as Iw.
  pose proof (vec_at_In _ _ _ Hn) as In_n.
  pose proof (vec_at_In _ _ _ Hp) as In_p.
  assert (Hside : (cross_product A B pn <= 0 /\ cross_product A B pp <= 0) \/
                  (0 <= cross_product A B pn /\ 0 <= cross_product A B pp)).
  { destruct one_side as [H|H]; [left|right]; split; auto. }
  destruct (geo_adj A B pp pc pn w HAB (distinct c k pc w Hc Hk (not_eq_sym Nkc))
              on_line Hw (Hedge pp pc w E1 Iw) (Hedge pc pn w E2 Iw) Hside) as [Zn|Zp].
  - left. destruct (Z.eq_dec (Z.rem (c + 1) (size poly)) k) as [E|N].
    + rewrite E, Hk in Hn. injection Hn as <-. now apply share_end.
    + exfalso.
      apply (no_three_collinear poly c (Z.rem (c + 1) (size poly)) k pc pn w); auto.
      * rewrite next_index by lia. destruct (Z.eqb_spec (c + 1) (size poly)); lia.
      * now apply (collinear_on_line A B).
  - right. destruct (Z.eq_dec (Z.rem (c - 1 + size poly) (size poly)) k) as [E|N].
    + rewrite E, Hk in Hp. injection Hp as <-. now apply share_start.
    + exfalso.
      apply (no_three_collinear poly c (Z.rem (c - 1 + size poly) (size poly)) k pc pp w);
        auto.
      * rewrite prev_index by lia. destruct (Z.eqb_spec c 0); lia.
      * now apply (collinear_on_line A B).
Qed.

(** A second vertex on the line is a neighbour of [c]. *)
Lemma supporting_adjacent k w :
  vec_at poly k = Some w -> cross_product A B w = 0 -> k <> c ->
  k = Z.rem (c + 1) (size poly) \/ k = Z.rem (c - 1 + size poly) (size poly).
Proof.
  intros Hk Hw Nkc.
  pose proof (vec_at_range _ _ _ Hc) as Rc.
  destruct (neighbours_cyclic poly c pc pn pp size_poly Hc Hn Hp) as (T & E1 & E2).
  destruct convex as [Hedge Hturn].
  pose proof (vec_at_In _ _ _ Hk) as Iw.
  pose proof (vec_at_In _ _ _ Hn) as In_n.
  pose proof (vec_at_In _ _ _ Hp) as In_p.
  assert (Hside : (cross_product A B pn <= 0 /\ cross_product A B pp <= 0) \/
                  (0 <= cross_product A B pn /\ 0 <= cross_product A B pp)).
  { destruct one_side as [H|H]; [left|right]; split; auto. }
  destruct (geo_adj A B pp pc pn w HAB (distinct c k pc w Hc Hk (not_eq_sym Nkc))
              on_line Hw (Hedge pp pc w E1 Iw) (Hedge pc pn w E2 Iw) Hside) as [Zn|Zp].
  - left. destruct (Z.eq_dec (Z.rem (c + 1) (size poly)) k) as [E|N]; [now symmetry|].
    exfalso.
    apply (no_three_collinear poly c (Z.rem (c + 1) (size poly)) k pc pn w); auto.
    + rewrite next_index by lia. destruct (Z.eqb_spec (c + 1) (size poly)); lia.
    + now apply (collinear_on_line A B).
  - right. destruct (Z.eq_dec (Z.rem (c - 1 + size poly) (size poly)) k) as [E|N];
      [now symmetry|].
    exfalso.
    apply (no_three_collinear poly c (Z.rem (c - 1 + size poly) (size poly)) k pc pp w);
      auto.
    + rewrite prev_index by lia. destruct (Z.eqb_spec c 0); lia.
    + now apply (collinear_on_line A B).
Qed.

(** When the polygon lies on one side of the line [AB] and touches it at
    the vertex [c], a point that [AB] shares with an edge lies on one of
    the two edges at [c]. *)
Lemma zero_side e1 e2 :
  cyclic_edge poly e1 e2 -> segments_share_point A B e1 e2 ->
  segments_intersect A B pc pn = true \/ segments_intersect A B pp pc = true.
Proof.
  intros (i & Hi & Hi1) Hshare.
  pose proof (vec_at_range _ _ _ Hc) as Rc.
  pose proof (vec_at_range _ _ _ Hi) as Ri.
  pose proof (vec_at_In _ _ _ Hi) as I1. pose proof (vec_at_In _ _ _ Hi1) as I2.
  assert (Hcases : (cross_product A B e1 = 0 /\ cross_product A B e2 = 0) \/
                   (cross_product A B e1 = 0 /\ on_segment A B (IZR (x e1)) (IZR (y e1))) \/
                   (cross_product A B e2 = 0 /\ on_segment A B (IZR (x e2)) (IZR (y e2)))).
  { destruct Hshare as (u & v & Hab & Hcd).
    pose proof (on_segment_collinear A B u v Hab) as HL.
    destruct Hcd as (s & Hs & Eu & Ev).
    assert (Hcomb : ((1 - s) * IZR (cross_product A B e1) +
                     s * IZR (cross_product A B e2) = 0)%R).
    { rewrite !IZR_cross. rewrite <- HL. subst u v. unfold crossR. ring. }
    assert (Hsgn : (IZR (cross_product A B e1) <= 0 /\ IZR (cross_product A B e2) <= 0)%R \/
                   (0 <= IZR (cross_product A B e1) /\ 0 <= IZR (cross_product A B e2))%R).
    { destruct one_side as [H|H]; [left|right]; split;
        try (apply (IZR_le _ 0)); try (apply (IZR_le 0)); auto. }
    destruct (Z.eq_dec (cross_product A B e1) 0) as [Z1|N1];
      destruct (Z.eq_dec (cross_product A B e2) 0) as [Z2|N2].
    - now left.
    - right. left. split; [exact Z1|].
      assert (s = 0%R).
      { rewrite Z1 in Hcomb. apply (not_0_IZR) in N2. nra. }
      subst s. replace u with (IZR (x e1)) in Hab by (subst u; ring).
      replace v with (IZR (y e1)) in Hab by (subst v; ring). exact Hab.
    - right. right. split; [exact Z2|].
      assert (s = 1%R).
      { rewrite Z2 in Hcomb. apply (not_0_IZR) in N1. nra. }
      subst s. replace u with (IZR (x e2)) in Hab by (subst u; ring).
      replace v with (IZR (y e2)) in Hab by (subst v; ring). exact Hab.
    - exfalso. apply not_0_IZR in N1, N2. nra. }
  destruct Hcases as [[Z1 Z2]|[[Z1 On1]|[Z2 On2]]].
  - rewrite <- rem_mod in Hi1 by lia.
    destruct (Z.eq_dec c i) as [->|Nci].
    { left. rewrite Hc in Hi. injection Hi as ->. rewrite Hn in Hi1. injection Hi1 as ->.
      now apply share_point_intersect. }
    destruct (Z.eq_dec c (Z.rem (i + 1) (size poly))) as [Ec|Nc1].
    { right.
      assert (Ei : Z.rem (c - 1 + size poly) (size poly) = i).
      { rewrite prev_index by lia. rewrite Ec, next_index by lia.
        destruct (Z.eqb_spec (i + 1) (size poly)); cbn; [lia|].
        destruct (Z.eqb_spec (i + 1) 0); lia. }
      rewrite Ei, Hi in Hp. injection Hp as <-.
      rewrite <- Ec, Hc in Hi1. injection Hi1 as <-.
      now apply share_point_intersect. }
    exfalso.
    apply (no_three_collinear poly i (Z.rem (i + 1) (size poly)) c e1 e2 pc); auto.
    + rewrite next_index by lia. destruct (Z.eqb_spec (i + 1) (size poly)); lia.
    + now apply (collinear_on_line A B).
  - now apply (zero_vertex i e1).
  - now apply (zero_vertex ((i + 1) mod size poly) e2).
Qed.

End SupportingLine.

(** ** Further properties: a line across a convex polygon *)

(** The point of the line [AB] at parameter [t] lies on the edge [(p, q)]
    whose ends are on opposite sides, once it is on the line of the edge. *)
Lemma edge_on_line A B p q (t : R) :
  (0 <= t <= 1)%R ->
  straddles (cross_product A B p) (cross_product A B q) ->
  cross_product A B p <> cross_product A B q ->
  (crossR p q A + t * (crossR A B p - crossR A B q) = 0)%R ->
  segments_share_point A B p q.
Proof.
  intros Ht Hs Hne E.
  set (cp1 := cross_product A B p) in *. set (cp2 := cross_product A B q) in *.
  assert (HD : (IZR cp1 - IZR cp2 <> 0)%R).
  { intros H0. apply Hne. apply eq_IZR. lra. }
  assert (E1 : IZR cp1 = crossR A B p) by apply IZR_cross.
  assert (E2 : IZR cp2 = crossR A B q) by apply IZR_cross.
  exists (IZR (x A) + t * (IZR (x B) - IZR (x A)))%R,
         (IZR (y A) + t * (IZR (y B) - IZR (y A)))%R.
  split; [exists t; repeat split; lra|].
  exists (IZR cp1 / (IZR cp1 - IZR cp2))%R.
  assert (Hb : (0 <= IZR cp1 / (IZR cp1 - IZR cp2) <= 1)%R).
  { destruct Hs as [[H1 H2]|[H1 H2]]; apply IZR_le in H1, H2.
    - assert (0 < IZR cp1 - IZR cp2)%R by lra.
      split; [apply Rmult_le_pos; [lra|left; now apply Rinv_0_lt_compat]|].
      apply Rmult_le_reg_r with (IZR cp1 - IZR cp2)%R; [lra|].
      unfold Rdiv. rewrite Rmult_assoc, Rinv_l by lra. lra.
    - assert (0 < IZR cp2 - IZR cp1)%R by lra.
      replace (IZR cp1 / (IZR cp1 - IZR cp2))%R
        with ((- IZR cp1) / (IZR cp2 - IZR cp1))%R by (field; lra).
      split; [apply Rmult_le_pos; [lra|left; now apply Rinv_0_lt_compat]|].
      apply Rmult_le_reg_r with (IZR cp2 - IZR cp1)%R; [lra|].
      unfold Rdiv. rewrite Rmult_assoc, Rinv_l by lra. lra. }
  split; [exact Hb|].
  assert (ET : (t * (IZR cp1 - IZR cp2) = - crossR p q A)%R) by (rewrite E1, E2; lra).
  split.
  - apply Rmult_eq_reg_l with (IZR cp1 - IZR cp2)%R; [|exact HD].
    replace ((IZR cp1 - IZR cp2) *
             (IZR (x p) + IZR cp1 / (IZR cp1 - IZR cp2) * (IZR (x q) - IZR (x p))))%R
      with ((IZR cp1 - IZR cp2) * IZR (x p) + IZR cp1 * (IZR (x q) - IZR (x p)))%R
      by (field; exact HD).
    replace ((IZR cp1 - IZR cp2) * (IZR (x A) + t * (IZR (x B) - IZR (x A))))%R
      with ((IZR cp1 - IZR cp2) * IZR (x A) +
            (t * (IZR cp1 - IZR cp2)) * (IZR (x B) - IZR (x A)))%R by ring.
    rewrite ET, E1, E2. unfold crossR. ring.
  - apply Rmult_eq_reg_l with (IZR cp1 - IZR cp2)%R; [|exact HD].
    replace ((IZR cp1 - IZR cp2) *
             (IZR (y p) + IZR cp1 / (IZR cp1 - IZR cp2) * (IZR (y q) - IZR (y p))))%R
      with ((IZR cp1 - IZR cp2) * IZR (y p) + IZR cp1 * (IZR (y q) - IZR (y p)))%R
      by (field; exact HD).
    replace ((IZR cp1 - IZR cp2) * (IZR (y A) + t * (IZR (y B) - IZR (y A))))%R
      with ((IZR cp1 - IZR cp2) * IZR (y A) +
            (t * (IZR cp1 - IZR cp2)) * (IZR (y B) - IZR (y A)))%R by ring.
    rewrite ET, E1, E2. unfold crossR. ring.
Qed.

Lemma same_scalings (d D X Y cp cq : Z) :
  d <> 0 -> D <> 0 -> 0 <= X -> 0 <= Y ->
  d * X = D * cp -> d * Y = D * cq -> 0 < cp -> cq < 0 -> False.
Proof.
  intros Hd HD HX HY E1 E2 Hp Hq.
  assert (E : d * d * (X * Y) = D * D * (cp * cq)).
  { replace (d * d * (X * Y)) with ((d * X) * (d * Y)) by ring. rewrite E1, E2. ring. }
  assert (0 < D * D) by nia.
  assert (0 <= d * d * (X * Y)) by (apply Z.mul_nonneg_nonneg; nia).
  assert (0 < D * D * (cp * - cq)) by (apply Z.mul_pos_pos; [assumption|apply Z.mul_pos_pos; lia]).
  replace (D * D * (cp * - cq)) with (- (D * D * (cp * cq))) in * by ring.
  lia.
Qed.

(** An edge on the line [AB] with every vertex on its left leaves no two
    vertices strictly on opposite sides of the line. *)
Lemma geo_line_sides A B e1 e2 p q :
  apart A B -> apart e1 e2 ->
  cross_product A B e1 = 0 -> cross_product A B e2 = 0 ->
  0 <= cross_product e1 e2 p -> 0 <= cross_product e1 e2 q ->
  0 < cross_product A B p -> cross_product A B q < 0 -> False.
Proof.
  unfold apart, same_place. intros HAB He H1 H2 Hp Hq Cp Cq. coords.
  destruct A as [A1 A2 ?], B as [B1 B2 ?], e1 as [a1 a2 ?], e2 as [b1 b2 ?],
    p as [p1 p2 ?], q as [q1 q2 ?]; cbn in *.
  remember (B1 - A1) as d1 eqn:Ed1. remember (B2 - A2) as d2 eqn:Ed2.
  remember (b1 - a1) as D1 eqn:ED1. remember (b2 - a2) as D2 eqn:ED2.
  assert (Hpar : d1 * D2 - d2 * D1 = 0) by (subst D1 D2; lia).
  remember (d1 * (p2 - a2) - d2 * (p1 - a1)) as cpp eqn:Ecpp.
  remember (d1 * (q2 - a2) - d2 * (q1 - a1)) as cpq eqn:Ecpq.
  assert (Lp : d1 * (p2 - A2) - d2 * (p1 - A1) = cpp) by (subst cpp; lia).
  assert (Lq : d1 * (q2 - A2) - d2 * (q1 - A1) = cpq) by (subst cpq; lia).
  rewrite Lp in Cp. rewrite Lq in Cq.
  remember (D1 * (p2 - a2) - D2 * (p1 - a1)) as Xp eqn:EXp.
  remember (D1 * (q2 - a2) - D2 * (q1 - a1)) as Xq eqn:EXq.
  assert (Hd : d1 <> 0 \/ d2 <> 0) by (subst d1 d2; lia).
  assert (HD : D1 <> 0 \/ D2 <> 0) by (subst D1 D2; lia).
  destruct (Z.eq_dec d1 0) as [Z1|N1].
  - assert (Hd2 : d2 <> 0) by tauto.
    assert (D10 : D1 = 0).
    { apply (mul_cancel_nonzero d2); [exact Hd2|]. rewrite Z1 in Hpar. lia. }
    assert (HD2 : D2 <> 0) by tauto.
    apply (same_scalings d2 D2 Xp Xq cpp cpq); auto.
    + subst Xp cpp. rewrite Z1, D10. ring.
    + subst Xq cpq. rewrite Z1, D10. ring.
  - assert (HD1 : D1 <> 0).
    { intros Z0. rewrite Z0 in Hpar.
      assert (D2 = 0) by (apply (mul_cancel_nonzero d1); [exact N1|lia]). tauto. }
    apply (same_scalings d1 D1 Xp Xq cpp cpq); auto.
    + subst Xp cpp.
      replace (d1 * (D1 * (p2 - a2) - D2 * (p1 - a1)))
        with (D1 * (d1 * (p2 - a2) - d2 * (p1 - a1)) - (p1 - a1) * (d1 * D2 - d2 * D1))
        by ring.
      rewrite Hpar. ring.
    + subst Xq cpq.
      replace (d1 * (D1 * (q2 - a2) - D2 * (q1 - a1)))
        with (D1 * (d1 * (q2 - a2) - d2 * (q1 - a1)) - (q1 - a1) * (d1 * D2 - d2 * D1))
        by ring.
      rewrite Hpar. ring.
Qed.

(** For three lines [AB], [e] and [u]: the value of [u] at the meeting
    point of [AB] and [e], scaled. *)
Lemma three_lines A B e1 e2 u1 u2 :
  (crossR A B u1 * crossR e1 e2 u2 - crossR A B u2 * crossR e1 e2 u1 +
   (crossR A B e1 - crossR A B e2) * crossR u1 u2 A -
   (crossR A B u1 - crossR A B u2) * crossR e1 e2 A = 0)%R.
Proof. unfold crossR. ring. Qed.

Lemma crossR_nonneg o a b : 0 <= cross_product o a b -> (0 <= crossR o a b)%R.
Proof. intros H. rewrite <- IZR_cross. now apply (IZR_le 0). Qed.

Lemma Rzero_neg_scale (d e : R) : (d < 0 -> 0 <= e -> 0 <= d * e -> e = 0)%R.
Proof. intros. nra. Qed.

Lemma Rzero_pos_scale (d e : R) : (0 < d -> 0 <= e -> d * e <= 0 -> e = 0)%R.
Proof. intros. nra. Qed.

Lemma Rconvex_nonneg (s a b : R) :
  (0 <= s <= 1 -> 0 <= a -> 0 <= b -> 0 <= (1 - s) * a + s * b)%R.
Proof. intros. apply Rplus_le_le_0_compat; apply Rmult_le_pos; lra. Qed.

(** The line [AB] enters a convex polygon through one edge and leaves it
    through another: a point that the segment [AB] shares with any edge
    lies on the edge [u], where [cp] turns from positive to non-positive,
    or on the edge [w], where it turns from negative to non-negative. *)
Lemma crossing_edges A B poly u1 u2 w1 w2 e1 e2 :
  (forall a b q, cyclic_edge poly a b -> In q poly -> 0 <= cross_product a b q) ->
  apart A B -> apart e1 e2 ->
  cyclic_edge poly u1 u2 -> cyclic_edge poly w1 w2 -> cyclic_edge poly e1 e2 ->
  0 < cross_product A B u1 -> cross_product A B u2 <= 0 ->
  cross_product A B w1 < 0 -> 0 <= cross_product A B w2 ->
  segments_share_point A B e1 e2 ->
  segments_share_point A B u1 u2 \/ segments_share_point A B w1 w2.
Proof.
  intros Hedge HAB Hee Hu Hw He U1 U2 W1 W2 (zu & zv & Hab & Hze).
  destruct (cyclic_edge_In _ _ _ Hu) as [Iu1 Iu2].
  destruct (cyclic_edge_In _ _ _ Hw) as [Iw1 Iw2].
  destruct (cyclic_edge_In _ _ _ He) as [Ie1 Ie2].
  pose proof (on_segment_collinear e1 e2 zu zv Hze) as Ez.
  pose proof (on_segment_collinear A B zu zv Hab) as Lz.
  destruct (crossR_on_segment u1 u2 e1 e2 zu zv Hze) as (s1 & Hs1 & Eu).
  destruct (crossR_on_segment w1 w2 e1 e2 zu zv Hze) as (s2 & Hs2 & Ew).
  destruct (crossR_on_segment A B e1 e2 zu zv Hze) as (s3 & Hs3 & El).
  destruct Hab as (t & Ht & Zu & Zv).
  set (De := (crossR A B e1 - crossR A B e2)%R).
  set (Du := (crossR A B u1 - crossR A B u2)%R).
  set (Dw := (crossR A B w1 - crossR A B w2)%R).
  assert (Fe : (crossR e1 e2 A + t * De = 0)%R).
  { rewrite <- Ez. subst zu zv. unfold De, crossR. ring. }
  assert (Gu : (0 <= crossR u1 u2 A + t * Du)%R).
  { replace (crossR u1 u2 A + t * Du)%R
      with ((1 - s1) * crossR u1 u2 e1 + s1 * crossR u1 u2 e2)%R.
    - apply Rconvex_nonneg; [exact Hs1| |]; apply crossR_nonneg; auto.
    - rewrite <- Eu. subst zu zv. unfold Du, crossR. ring. }
  assert (Gw : (0 <= crossR w1 w2 A + t * Dw)%R).
  { replace (crossR w1 w2 A + t * Dw)%R
      with ((1 - s2) * crossR w1 w2 e1 + s2 * crossR w1 w2 e2)%R.
    - apply Rconvex_nonneg; [exact Hs2| |]; apply crossR_nonneg; auto.
    - rewrite <- Ew. subst zu zv. unfold Dw, crossR. ring. }
  pose proof (three_lines A B e1 e2 u1 u2) as Tu. fold De Du in Tu.
  pose proof (three_lines A B e1 e2 w1 w2) as Tw. fold De Dw in Tw.
  pose proof (crossR_nonneg _ _ _ (Hedge e1 e2 u1 He Iu1)) as Fu1.
  pose proof (crossR_nonneg _ _ _ (Hedge e1 e2 u2 He Iu2)) as Fu2.
  pose proof (crossR_nonneg _ _ _ (Hedge e1 e2 w1 He Iw1)) as Fw1.
  pose proof (crossR_nonneg _ _ _ (Hedge e1 e2 w2 He Iw2)) as Fw2.
  assert (Lu1 : (0 < crossR A B u1)%R) by (rewrite <- IZR_cross; now apply (IZR_lt 0)).
  assert (Lu2 : (crossR A B u2 <= 0)%R) by (rewrite <- IZR_cross; now apply (IZR_le _ 0)).
  assert (Lw1 : (crossR A B w1 < 0)%R) by (rewrite <- IZR_cross; now apply (IZR_lt _ 0)).
  assert (Lw2 : (0 <= crossR A B w2)%R) by (rewrite <- IZR_cross; now apply (IZR_le 0)).
  assert (Pu : (De * (crossR u1 u2 A + t * Du) <= 0)%R).
  { replace (De * (crossR u1 u2 A + t * Du))%R
      with (De * crossR u1 u2 A + Du * (t * De))%R by ring.
    replace (t * De)%R with (- crossR e1 e2 A)%R by lra.
    assert (0 <= crossR A B u1 * crossR e1 e2 u2)%R by (apply Rmult_le_pos; lra).
    assert (0 <= - crossR A B u2 * crossR e1 e2 u1)%R by (apply Rmult_le_pos; lra).
    lra. }
  assert (Pw : (0 <= De * (crossR w1 w2 A + t * Dw))%R).
  { replace (De * (crossR w1 w2 A + t * Dw))%R
      with (De * crossR w1 w2 A + Dw * (t * De))%R by ring.
    replace (t * De)%R with (- crossR e1 e2 A)%R by lra.
    assert (0 <= - crossR A B w1 * crossR e1 e2 w2)%R by (apply Rmult_le_pos; lra).
    assert (0 <= crossR A B w2 * crossR e1 e2 w1)%R by (apply Rmult_le_pos; lra).
    lra. }
  destruct (Rtotal_order De 0) as [Dneg|[Dz|Dpos]].
  - right. apply (edge_on_line A B w1 w2 t Ht).
    + right. lia.
    + lia.
    + fold Dw. now apply (Rzero_neg_scale De).
  - exfalso. unfold De in Dz. rewrite <- !IZR_cross in Dz.
    assert (Ecp : cross_product A B e1 = cross_product A B e2) by (apply eq_IZR; lra).
    assert (Z1 : cross_product A B e1 = 0).
    { apply eq_IZR. rewrite IZR_cross.
      assert (crossR A B e2 = crossR A B e1) by (rewrite <- !IZR_cross; now rewrite Ecp).
      rewrite Lz, H in El.
      replace (crossR A B e1) with ((1 - s3) * crossR A B e1 + s3 * crossR A B e1)%R by ring.
      now rewrite <- El. }
    apply (geo_line_sides A B e1 e2 u1 w1); auto. lia.
  - left. apply (edge_on_line A B u1 u2 t Ht).
    + left. lia.
    + lia.
    + fold Du. now apply (Rzero_pos_scale De).
Qed.

(** ** Further properties: completeness of the locator *)

Lemma sign_cases v :
  (0 < v /\ sign v = 1) \/ (v = 0 /\ sign v = 0) \/ (v < 0 /\ sign v = -1).
Proof.
  unfold sign. rewrite Z.gtb_ltb.
  destruct (Z.ltb_spec v 0); [right; right; now split|].
  destruct (Z.ltb_spec 0 v); [left; now split|right; left; split; [lia|reflexivity]].
Qed.



(** The binary search of [check_chain] keeps a vertex on the side of
    [start] at [L] and one off that side at [R]. *)
Lemma chain_search_sign A B poly start cs :
  cp A B poly start = Some cs ->
  forall fuel L R L' R',
    0 <= L < R -> (Z.to_nat (R - L) <= fuel)%nat ->
    same_side A B poly start cs L -> other_side A B poly start cs R ->
    chain_search A B poly fuel start L R = Some (L', R') ->
    R' = L' + 1 /\ 0 <= L' /\
    same_side A B poly start cs L' /\ other_side A B poly start cs R'.
Proof.
  intros cp_start.
  induction fuel as [|fuel IH]; intros L R L' R' HLR Hf HL HR; cbn [chain_search].
  - lia.
  - destruct (Z.ltb_spec (L + 1) R) as [Hlt|Hge].
    + destruct (chain_step A B poly start L R) as [[a b]|] eqn:Es; [|discriminate].
      cbn [fst snd].
      pose proof (chain_step_narrows A B poly start L R a b ltac:(lia) Hlt Es) as Hn.
      apply IH; try lia.
      * unfold chain_step in Es.
        destruct (cp A B poly (Z.rem (start + Z.quot (L + R) 2) (size poly)))
          as [ci|] eqn:Ei; [|discriminate].
        rewrite cp_start in Es.
        destruct (Z.eqb_spec (sign ci) (sign cs)) as [E|N]; injection Es as <- <-.
        -- exists ci. now split.
        -- exact HL.
      * unfold chain_step in Es.
        destruct (cp A B poly (Z.rem (start + Z.quot (L + R) 2) (size poly)))
          as [ci|] eqn:Ei; [|discriminate].
        rewrite cp_start in Es.
        destruct (Z.eqb_spec (sign ci) (sign cs)) as [E|N]; injection Es as <- <-.
        -- exact HR.
        -- exists ci. now split.
    + intros E. injection E as <- <-. repeat split; try lia; assumption.
Qed.

Lemma cp_vertex A B poly i c :
  cp A B poly i = Some c ->
  exists p, vec_at poly i = Some p /\ c = cross_product A B p.
Proof.
  unfold cp. destruct (vec_at poly i) as [p|]; [|discriminate].
  intros E. injection E as <-. now exists p.
Qed.

(** With [cp(start)] non-zero and of a sign other than that of [cp(end)],
    [check_chain] tests one edge, whose first vertex is on the side of
    [start] and whose second is not. *)
Lemma check_chain_edge A B poly s e ps pe :
  vec_at poly s = Some ps -> vec_at poly e = Some pe ->
  cross_product A B ps <> 0 ->
  sign (cross_product A B ps) <> sign (cross_product A B pe) ->
  exists p1 p2,
    cyclic_edge poly p1 p2 /\
    sign (cross_product A B p1) = sign (cross_product A B ps) /\
    sign (cross_product A B p2) <> sign (cross_product A B ps) /\
    check_chain A B poly s e =
      Some (if segments_intersect A B p1 p2 then Some (id p1, id p2) else None).
Proof.
  intros Hs He Hnz Hsg.
  pose proof (vec_at_range _ _ _ Hs) as Rs. pose proof (vec_at_range _ _ _ He) as Re.
  set (n := size poly) in *.
  assert (Hcs : cp A B poly s = Some (cross_product A B ps)) by (unfold cp; now rewrite Hs).
  assert (Hce : cp A B poly e = Some (cross_product A B pe)) by (unfold cp; now rewrite He).
  assert (Hse : s <> e).
  { intros ->. rewrite Hs in He. injection He as ->. now apply Hsg. }
  set (len := Z.rem (e - s + n) n).
  assert (Hlen : 1 <= len < n /\ Z.rem (s + len) n = e).
  { unfold len. rewrite !rem_mod by lia.
    pose proof (Z.mod_pos_bound (e - s + n) n ltac:(lia)) as Hb.
    assert (Em : (s + (e - s + n) mod n) mod n = e).
    { rewrite Zplus_mod_idemp_r. replace (s + (e - s + n)) with (e + 1 * n) by ring.
      rewrite Z.mod_add by lia. apply Z.mod_small. lia. }
    rewrite rem_mod; [|lia|lia]. split; [|exact Em].
    destruct (Z.eq_dec ((e - s + n) mod n) 0) as [E0|]; [|lia].
    rewrite E0, Z.add_0_r, Z.mod_small in Em by lia. congruence. }
  destruct Hlen as [Hlen Eend].
  destruct (chain_search_total A B poly s Rs (Z.to_nat n) 0 len) as (L & R & El & HL0);
    [lia|lia|].
  destruct (chain_search_sign A B poly s (cross_product A B ps) Hcs (Z.to_nat n) 0 len L R)
    as (ER & HL & (c1 & E1 & S1) & (c2 & E2 & S2)); try lia.
  { exists (cross_product A B ps). rewrite Z.add_0_r, Z.rem_small by lia. now split. }
  { exists (cross_product A B pe). fold n. rewrite Eend. split; [exact Hce|].
    intros E. apply Hsg. now symmetry. }
  { exact El. }
  fold n in E1, E2.
  destruct (cp_vertex _ _ _ _ _ E1) as (p1 & V1 & ->).
  destruct (cp_vertex _ _ _ _ _ E2) as (p2 & V2 & ->).
  subst R. rewrite Z.add_assoc in V2.
  exists p1, p2. split; [|split; [exact S1|split; [exact S2|]]].
  - exists (Z.rem (s + L) n). split; [exact V1|]. fold n.
    rewrite rem_mod by lia. rewrite Zplus_mod_idemp_l.
    rewrite <- rem_mod by lia. exact V2.
  - unfold check_chain. fold n. rewrite Hcs.
    destruct (Z.eqb_spec (cross_product A B ps) 0); [contradiction|].
    rewrite Hce.
    destruct (Z.eqb_spec (sign (cross_product A B ps)) (sign (cross_product A B pe)));
      [contradiction|].
    fold len. rewrite El. cbn [fst]. rewrite V1, V2.
    destruct (segments_intersect A B p1 p2); reflexivity.
Qed.

(** With [cp(start)] zero, [check_chain] tests the two edges at [start]. *)
Lemma check_chain_zero A B poly s e ps pn pp :
  vec_at poly s = Some ps ->
  vec_at poly (Z.rem (s + 1) (size poly)) = Some pn ->
  vec_at poly (Z.rem (s - 1 + size poly) (size poly)) = Some pp ->
  cross_product A B ps = 0 ->
  segments_intersect A B ps pn = true \/ segments_intersect A B pp ps = true ->
  exists ids, check_chain A B poly s e = Some (Some ids).
Proof.
  intros Hs Hn Hp Hz Hor. unfold check_chain, cp. rewrite Hs, Hz. cbn [Z.eqb].
  rewrite Hn. destruct (segments_intersect A B ps pn); [eauto|].
  rewrite Hp. destruct Hor as [Hor|Hor]; [discriminate|]. rewrite Hor. eauto.
Qed.

(** The two hill climbs bracket [cp] over the polygon. *)
Lemma extremes_bracket A B poly :
  3 <= size poly -> convex_ccw poly ->
  exists imax imin pmax pmin,
    hill_climb_extreme A B poly true = Some imax /\
    hill_climb_extreme A B poly false = Some imin /\
    vec_at poly imax = Some pmax /\ vec_at poly imin = Some pmin /\
    forall q, In q poly ->
      cross_product A B pmin <= cross_product A B q <= cross_product A B pmax.
Proof.
  intros Hn Hconv. unfold hill_climb_extreme.
  destruct (hill_climb_run_total A B poly true ltac:(lia)) as (imax & k1 & E1 & _).
  destruct (hill_climb_run_total A B poly false ltac:(lia)) as (imin & k2 & E2 & _).
  rewrite E1, E2. cbn [fst].
  destruct (local_opt_global_max A B poly imax Hn Hconv
              (hill_climb_local A B poly true imax k1 E1)) as (pmax & Hmax & Gmax).
  destruct (local_opt_global_min A B poly imin Hn Hconv
              (hill_climb_local A B poly false imin k2 E2)) as (pmin & Hmin & Gmin).
  exists imax, imin, pmax, pmin. repeat split; auto;
    rewrite !cp_dot; specialize (Gmax q H); specialize (Gmin q H); lia.
Qed.

Lemma edge_apart poly e1 e2 :
  2 <= size poly -> distinct_places poly -> cyclic_edge poly e1 e2 -> apart e1 e2.
Proof.
  intros Hn Hd (i & H1 & H2). pose proof (vec_at_range _ _ _ H1) as Hr.
  apply (Hd i ((i + 1) mod size poly) e1 e2 H1 H2).
  rewrite <- rem_mod, next_index by lia.
  destruct (Z.eqb_spec (i + 1) (size poly)); lia.
Qed.

(** On a strictly convex polygon with distinct vertices, the locator
    finds an edge whenever the segment [AB], with [A] and [B] apart,
    shares a point with an edge. *)
Lemma locator_finds A B poly e1 e2 :
  3 <= size poly -> convex_ccw poly -> distinct_places poly -> apart A B ->
  cyclic_edge poly e1 e2 -> segments_share_point A B e1 e2 ->
  exists ids, intersect_segment_convex_poly_log A B poly = Some (Some ids).
Proof.
  intros Hn Hconv Hd HAB He Hsh.
  destruct (extremes_bracket A B poly Hn Hconv)
    as (imax & imin & pmax & pmin & Emax & Emin & Vmax & Vmin & Hbr).
  destruct (cyclic_edge_In _ _ _ He) as [I1 I2].
  assert (Hstr : straddles (cross_product A B e1) (cross_product A B e2)).
  { destruct Hsh as (u & v & Hab & Hcd).
    pose proof (on_segment_collinear A B u v Hab) as HL.
    destruct (crossR_on_segment A B e1 e2 u v Hcd) as (s & Hs & El).
    apply (straddles_of_combination _ _ s Hs). rewrite !IZR_cross. lra. }
  assert (HM : 0 <= cross_product A B pmax).
  { pose proof (Hbr e1 I1). pose proof (Hbr e2 I2). unfold straddles in Hstr. lia. }
  assert (Hm : cross_product A B pmin <= 0).
  { pose proof (Hbr e1 I1). pose proof (Hbr e2 I2). unfold straddles in Hstr. lia. }
  pose proof (vec_at_range _ _ _ Vmax) as Rmax.
  pose proof (vec_at_range _ _ _ Vmin) as Rmin.
  unfold intersect_segment_convex_poly_log.
  destruct (Z.ltb_spec (size poly) 2); [lia|].
  destruct (Z.eqb_spec (size poly) 2); [lia|].
  rewrite Emax, Emin. unfold cp at 1 2. rewrite Vmax, Vmin.
  replace ((cross_product A B pmax >? 0) && (cross_product A B pmin >? 0)) with false
    by (symmetry; apply andb_false_iff; right; rewrite Z.gtb_ltb; apply Z.ltb_ge; lia).
  replace ((cross_product A B pmax <? 0) && (cross_product A B pmin <? 0)) with false
    by (symmetry; apply andb_false_iff; left; apply Z.ltb_ge; lia).
  destruct (vertex_neighbours poly imax pmax Hn Vmax) as (xn & xp & Xn & Xp & _).
  destruct (vertex_neighbours poly imin pmin Hn Vmin) as (mn & mp & Mn & Mp & _).
  destruct (Z.eq_dec (cross_product A B pmax) 0) as [M0|MN].
  { (* the polygon touches the line from the non-positive side *)
    destruct (check_chain_zero A B poly imax imin pmax xn xp Vmax Xn Xp M0) as [ids ->];
      [|eauto].
    apply (zero_side A B poly Hn Hconv Hd HAB imax pmax xn xp Vmax Xn Xp M0) with e1 e2;
      auto.
    left. intros q Hq. specialize (Hbr q Hq). lia. }
  assert (Zeromin : cross_product A B pmin = 0 ->
                    exists ids, check_chain A B poly imin imax = Some (Some ids)).
  { intros m0.
    apply (check_chain_zero A B poly imin imax pmin mn mp Vmin Mn Mp m0).
    apply (zero_side A B poly Hn Hconv Hd HAB imin pmin mn mp Vmin Mn Mp m0) with e1 e2;
      auto.
    right. intros q Hq. specialize (Hbr q Hq). lia. }
  assert (SM : sign (cross_product A B pmax) = 1).
  { destruct (sign_cases (cross_product A B pmax)) as [[? ?]|[[? ?]|[? ?]]]; lia. }
  destruct (check_chain_edge A B poly imax imin pmax pmin Vmax Vmin MN)
    as (u1 & u2 & Hu & Su1 & Su2 & ->).
  { rewrite SM. destruct (sign_cases (cross_product A B pmin)) as [[? ?]|[[? ?]|[? ?]]]; lia. }
  destruct (segments_intersect A B u1 u2) eqn:Tu; [eauto|].
  destruct (Z.eq_dec (cross_product A B pmin) 0) as [m0|mN].
  { destruct (Zeromin m0) as [ids ->]. eauto. }
  assert (Sm : sign (cross_product A B pmin) = -1).
  { destruct (sign_cases (cross_product A B pmin)) as [[? ?]|[[? ?]|[? ?]]]; lia. }
  destruct (check_chain_edge A B poly imin imax pmin pmax Vmin Vmax mN)
    as (w1 & w2 & Hw & Sw1 & Sw2 & ->).
  { rewrite SM, Sm. lia. }
  rewrite SM in Su1, Su2. rewrite Sm in Sw1, Sw2.
  assert (U1 : 0 < cross_product A B u1).
  { destruct (sign_cases (cross_product A B u1)) as [[? ?]|[[? ?]|[? ?]]]; lia. }
  assert (U2 : cross_product A B u2 <= 0).
  { destruct (sign_cases (cross_product A B u2)) as [[? ?]|[[? ?]|[? ?]]]; lia. }
  assert (W1 : cross_product A B w1 < 0).
  { destruct (sign_cases (cross_product A B w1)) as [[? ?]|[[? ?]|[? ?]]]; lia. }
  assert (W2 : 0 <= cross_product A B w2).
  { destruct (sign_cases (cross_product A B w2)) as [[? ?]|[[? ?]|[? ?]]]; lia. }
  destruct (crossing_edges A B poly u1 u2 w1 w2 e1 e2 (proj1 Hconv) HAB
              (edge_apart poly e1 e2 ltac:(lia) Hd He) Hu Hw He U1 U2 W1 W2 Hsh)
    as [S|S]; apply share_point_intersect in S.
  - congruence.
  - rewrite S. eauto.
Qed.

(** A hull with at least three vertices is a strictly convex polygon with
    distinct vertices. *)
Lemma convex_hull_polygon sort pts :
  sort_spec sort -> 3 <= size (snd (convex_hull sort pts)) ->
  convex_ccw (snd (convex_hull sort pts)) /\ distinct_places (snd (convex_hull sort pts)).
Proof.
  intros Hsort Hsz.
  pose proof (convex_hull_convex_ccw sort pts Hsort Hsz) as Hconv.
  split; [exact Hconv|].
  destruct (vec_at_some (snd (convex_hull sort pts)) 0 ltac:(lia)) as [u Hu].
  destruct (vertex_neighbours _ 0 u Hsz Hu) as (v & w & _ & _ & T & E1 & _).
  pose proof (proj2 Hconv _ _ _ T) as Hturn.
  destruct (cyclic_edge_In _ _ _ E1) as [Iw Iu].
  revert Hsz Iw Iu. unfold convex_hull.
  destruct (Nat.leb_spec (length pts) 2) as [Hle|Hgt]; cbn [snd].
  - unfold size. lia.
  - intros Hsz Iw Iu. destruct (Hsort pts) as [Hperm Hsorted].
    assert (Hlen : (2 <= length (sort pts))%nat).
    { rewrite <- (Permutation_length Hperm). lia. }
    apply hull_of_sorted_distinct; [exact Hlen|exact Hsorted|].
    exists w, u. split; [now apply hull_of_sorted_sub|].
    split; [now apply hull_of_sorted_sub|].
    intros [Ex Ey]. rewrite cross_product_eq in Hturn. nia.
Qed.

(** X7. Exactness of the locator: on a strictly convex counter-clockwise
    polygon with at least three distinct vertices, and for [A] and [B] at
    different places, [intersect_segment_convex_poly_log] returns true
    exactly when the closed segment [AB] shares a point with some edge, and
    false exactly when it shares a point with none. *)
Theorem locator_exact (A B : Point) (poly : list Point) :
  3 <= size poly -> convex_ccw poly -> distinct_places poly -> apart A B ->
  ((exists ids, intersect_segment_convex_poly_log A B poly = Some (Some ids)) <->
   (exists e1 e2, cyclic_edge poly e1 e2 /\ segments_share_point A B e1 e2)) /\
  (intersect_segment_convex_poly_log A B poly = Some None <->
   (forall e1 e2, cyclic_edge poly e1 e2 -> ~ segments_share_point A B e1 e2)).
Proof.
  intros Hn Hconv Hd HAB.
  assert (Hiff : (exists ids, intersect_segment_convex_poly_log A B poly = Some (Some ids)) <->
                 (exists e1 e2, cyclic_edge poly e1 e2 /\ segments_share_point A B e1 e2)).
  { split.
    - intros [[r1 r2] H]. apply locator_reports in H.
      destruct H as (e1 & e2 & He & _ & _ & Hs).
      exists e1, e2. split; [exact He|now apply intersect_share_point].
    - intros (e1 & e2 & He & Hs). now apply (locator_finds A B poly e1 e2). }
  split; [exact Hiff|]. split.
  - intros H e1 e2 He Hs.
    destruct (proj2 Hiff (ex_intro _ e1 (ex_intro _ e2 (conj He Hs)))) as [ids E].
    congruence.
  - intros H. destruct (locator_total A B poly) as [[ids|] E]; [|exact E].
    exfalso. destruct (proj1 Hiff (ex_intro _ ids E)) as (e1 & e2 & He & Hs).
    exact (H e1 e2 He Hs).
Qed.

Lemma locator_two A B p0 p1 :
  intersect_segment_convex_poly_log A B [p0; p1] =
  Some (if segments_intersect A B p0 p1 then Some (id p0, id p1) else None).
Proof.
  unfold intersect_segment_convex_poly_log.
  change (size [p0; p1]) with 2. change (2 <? 2) with false. change (2 =? 2) with true.
  change (vec_at [p0; p1] 0) with (Some p0). change (vec_at [p0; p1] 1) with (Some p1).
  cbv iota beta. now destruct (segments_intersect A B p0 p1).
Qed.

Lemma cyclic_edge_two p0 p1 a b :
  cyclic_edge [p0; p1] a b -> (a = p0 /\ b = p1) \/ (a = p1 /\ b = p0).
Proof.
  intros (i & Hi & Hj). pose proof (vec_at_range _ _ _ Hi) as Hr.
  change (size [p0; p1]) with 2 in *.
  assert (i = 0 \/ i = 1) as [-> | ->] by lia.
  - change ((0 + 1) mod 2) with 1 in Hj.
    change (vec_at [p0; p1] 0) with (Some p0) in Hi.
    change (vec_at [p0; p1] 1) with (Some p1) in Hj. left. split; congruence.
  - change ((1 + 1) mod 2) with 0 in Hj.
    change (vec_at [p0; p1] 1) with (Some p1) in Hi.
    change (vec_at [p0; p1] 0) with (Some p0) in Hj. right. split; congruence.
Qed.

Lemma share_point_flip a b c d :
  segments_share_point a b c d -> segments_share_point a b d c.
Proof.
  intros (u & v & H1 & (t & Ht & Eu & Ev)). exists u, v. split; [exact H1|].
  exists (1 - t)%R. split; [lra|]. split; [rewrite Eu|rewrite Ev]; ring.
Qed.

(** On a hull returned by [convex_hull] with at least two vertices, the
    locator finds an edge whenever the segment meets one. *)
Lemma locator_finds_on_hull sort pts A B e1 e2 :
  sort_spec sort -> apart A B ->
  2 <= size (snd (convex_hull sort pts)) ->
  cyclic_edge (snd (convex_hull sort pts)) e1 e2 -> segments_share_point A B e1 e2 ->
  exists ids, intersect_segment_convex_poly_log A B (snd (convex_hull sort pts)) =
              Some (Some ids).
Proof.
  intros Hsort HAB Hsz He Hs.
  destruct (Z_lt_le_dec (size (snd (convex_hull sort pts))) 3) as [Hlt|Hge].
  - destruct (snd (convex_hull sort pts)) as [|p0 [|p1 [|p2 l]]] eqn:E;
      try (unfold size in *; cbn [length] in *; lia).
    rewrite locator_two.
    destruct (cyclic_edge_two _ _ _ _ He) as [[-> ->]|[-> ->]].
    + rewrite (share_point_intersect _ _ _ _ Hs). eauto.
    + rewrite (share_point_intersect _ _ _ _ (share_point_flip _ _ _ _ Hs)). eauto.
  - destruct (convex_hull_polygon sort pts Hsort Hge) as [Hc Hd].
    now apply (locator_finds A B _ e1 e2).
Qed.

Lemma locator_exact_witness :
  exists ids,
    intersect_segment_convex_poly_log (mkPoint 2 2 1) (mkPoint 6 2 2)
      (snd (convex_hull insertion_sort
              [mkPoint 0 0 1; mkPoint 4 0 2; mkPoint 4 4 3; mkPoint 0 4 4])) =
    Some (Some ids).
Proof.
  assert (H3 : 3 <= size (snd (convex_hull insertion_sort
              [mkPoint 0 0 1; mkPoint 4 0 2; mkPoint 4 4 3; mkPoint 0 4 4])))
    by (vm_compute; discriminate).
  apply (locator_exact (mkPoint 2 2 1) (mkPoint 6 2 2) _ H3
           (proj1 (convex_hull_polygon _ _ insertion_sort_spec H3))
           (proj2 (convex_hull_polygon _ _ insertion_sort_spec H3))).
  - unfold apart, same_place. cbn. lia.
  - exists (mkPoint 4 0 2), (mkPoint 4 4 3). split.
    + exists 1. split; vm_compute; reflexivity.
    + apply intersect_share_point. vm_compute. reflexivity.
Defined.

(** X8. On the polygon returned by [convex_hull], when it has at least
    two vertices, the locator reports an edge exactly when the segment
    [AB], with [A] and [B] at different places, shares a point with an
    edge of that polygon. *)
Theorem locator_exact_on_hull (sort : list Point -> list Point) (pts : list Point)
    (A B : Point) :
  sort_spec sort -> apart A B ->
  2 <= size (snd (convex_hull sort pts)) ->
  ((exists ids, intersect_segment_convex_poly_log A B (snd (convex_hull sort pts)) =
                Some (Some ids)) <->
   (exists e1 e2, cyclic_edge (snd (convex_hull sort pts)) e1 e2 /\
                  segments_share_point A B e1 e2)).
Proof.
  intros Hsort HAB Hsz. split.
  - intros [[r1 r2] H]. apply locator_reports in H.
    destruct H as (e1 & e2 & He & _ & _ & Hs).
    exists e1, e2. split; [exact He|now apply intersect_share_point].
  - intros (e1 & e2 & He & Hs). now apply (locator_finds_on_hull sort pts A B e1 e2).
Qed.

Lemma locator_exact_on_hull_witness :
  exists e1 e2,
    cyclic_edge (snd (convex_hull insertion_sort [mkPoint 0 0 1; mkPoint 4 0 2])) e1 e2 /\
    segments_share_point (mkPoint 2 2 1) (mkPoint 2 (-2) 2) e1 e2.
Proof.
  apply (locator_exact_on_hull insertion_sort [mkPoint 0 0 1; mkPoint 4 0 2]
           (mkPoint 2 2 1) (mkPoint 2 (-2) 2) insertion_sort_spec).
  - unfold apart, same_place. cbn. lia.
  - vm_compute. discriminate.
  - eexists. vm_compute. reflexivity.
Defined.

Lemma In_vec_at (l : list Point) p : In p l -> exists i, vec_at l i = Some p.
Proof.
  intros H. apply In_nth_error in H. destruct H as [k Hk].
  exists (Z.of_nat k). now rewrite vec_at_nat.
Qed.

(** A run of the heuristic on at most 11 points finds a crossing whenever
    the locator accepts some pair of points at different places. *)
Lemma run_h_small_finds angular rnd pts hull flag A B ids :
  angular_spec angular -> size pts <= 11 ->
  In A pts -> In B pts -> apart A B ->
  intersect_segment_convex_poly_log A B hull = Some (Some ids) ->
  exists line, run_h angular rnd pts hull flag = Some (Some line).
Proof.
  intros Hang Hsz HA HB HAB Hloc.
  assert (Hne : pts <> []) by (intros ->; destruct HA).
  destruct (run_h_total angular rnd pts hull flag Hang Hne) as [[line|] E]; [eauto|].
  exfalso.
  destruct (In_vec_at (angular hull pts) A) as [i Hi].
  { apply (Permutation_in _ (Hang hull pts) HA). }
  destruct (In_vec_at (angular hull pts) B) as [j Hj].
  { apply (Permutation_in _ (Hang hull pts) HB). }
  assert (Hij : i <> j).
  { intros ->. rewrite Hi in Hj. injection Hj as ->. apply HAB. now split. }
  pose proof (vec_at_range _ _ _ Hi) as Ri.
  assert (Hs : size (angular hull pts) = size pts).
  { unfold size. now rewrite <- (Permutation_length (Hang hull pts)). }
  rewrite (run_h_near_pairs angular rnd pts hull flag i j A B Hang E Hi Hj Hij) in Hloc.
  - discriminate.
  - pose proof (Z.mod_pos_bound (j - i) (size pts) ltac:(lia)). lia.
Qed.




Lemma pair_accepted_perm pts pts' hull :
  Permutation pts pts' -> pair_accepted pts hull -> pair_accepted pts' hull.
Proof.
  intros Hp (A & B & ids & HA & HB & H). exists A, B, ids.
  split; [now apply (Permutation_in _ Hp)|]. split; [now apply (Permutation_in _ Hp)|].
  exact H.
Qed.

(** With at most 11 points in a set, [solve] prints a crossing as soon as
    the locator accepts some pair of points of that set at different
    places. *)
Lemma solve_small_accepts (sort : list Point -> list Point)
    (angular : list Point -> list Point -> list Point) (rand : nat -> Z)
    (P R : list Point) :
  sort_spec sort -> angular_spec angular ->
  (size P <= 11 /\ pair_accepted P (snd (convex_hull sort R))) \/
  (size R <= 11 /\ P <> [] /\ pair_accepted R (snd (convex_hull sort P))) ->
  exists line, solve sort angular rand P R = Some (Some line).
Proof.
  intros Hsort Hang Hcase. rewrite solve_unfold. cbv zeta.
  pose proof (convex_hull_fst_perm sort P Hsort) as PP.
  pose proof (convex_hull_fst_perm sort R Hsort) as PR.
  assert (SP : size (fst (convex_hull sort P)) = size P).
  { unfold size. now rewrite <- (Permutation_length PP). }
  assert (SR : size (fst (convex_hull sort R)) = size R).
  { unfold size. now rewrite <- (Permutation_length PR). }
  destruct Hcase as [(Hsz & Hm)|(Hsz & Hne & Hm)].
  - apply (pair_accepted_perm _ _ _ PP) in Hm.
    destruct Hm as (A & B & ids & HA & HB & HAB & Hloc).
    assert (Hsz' : size (fst (convex_hull sort P)) <= 11) by lia.
    destruct (run_h_small_finds angular (map rand (seq 0 10)) _ _ true A B ids Hang
                Hsz' HA HB HAB Hloc) as [line ->].
    eauto.
  - assert (HP' : fst (convex_hull sort P) <> []).
    { intros E0. now apply (proj2 (perm_nil_iff _ _ PP)) in E0. }
    destruct (run_h_total angular (map rand (seq 0 10)) _
                (snd (convex_hull sort R)) true Hang HP') as [[l|] ->]; [eauto|].
    apply (pair_accepted_perm _ _ _ PR) in Hm.
    destruct Hm as (A & B & ids & HA & HB & HAB & Hloc).
    assert (Hsz' : size (fst (convex_hull sort R)) <= 11) by lia.
    destruct (run_h_small_finds angular (map rand (seq 10 10)) _ _ false A B ids Hang
                Hsz' HA HB HAB Hloc) as [line ->].
    eauto.
Qed.

Lemma meets_accepted sort pts hull_pts :
  sort_spec sort -> 2 <= size (snd (convex_hull sort hull_pts)) ->
  segment_meets_hull pts (snd (convex_hull sort hull_pts)) ->
  pair_accepted pts (snd (convex_hull sort hull_pts)).
Proof.
  intros Hsort H2 (A & B & e1 & e2 & HA & HB & HAB & He & Hs).
  destruct (locator_finds_on_hull sort hull_pts A B e1 e2 Hsort HAB H2 He Hs) as [ids Hloc].
  now exists A, B, ids.
Qed.

(** X13. For a set of at most 11 points the search is exhaustive: when
    some segment between two points of [P] at different places shares a
    point with an edge of the hull of [R] (of at least two vertices), or
    the same with [P] and [R] exchanged, [solve] prints a crossing. *)
Theorem solve_finds_small (sort : list Point -> list Point)
    (angular : list Point -> list Point -> list Point) (rand : nat -> Z)
    (P R : list Point) :
  sort_spec sort -> angular_spec angular ->
  (size P <= 11 /\ 2 <= size (snd (convex_hull sort R)) /\
   segment_meets_hull P (snd (convex_hull sort R))) \/
  (size R <= 11 /\ 2 <= size (snd (convex_hull sort P)) /\
   segment_meets_hull R (snd (convex_hull sort P))) ->
  exists line, solve sort angular rand P R = Some (Some line).
Proof.
  intros Hsort Hang Hcase.
  apply (solve_small_accepts sort angular rand P R Hsort Hang).
  destruct Hcase as [(Hsz & H2 & Hm)|(Hsz & H2 & Hm)].
  - left. split; [exact Hsz|]. now apply meets_accepted.
  - right. split; [exact Hsz|]. split; [|now apply meets_accepted].
    intros ->. rewrite convex_hull_nil in H2. cbn in H2. lia.
Qed.

Lemma solve_finds_small_witness :
  exists line,
    solve insertion_sort exact_angular (fun _ => 0)
      (read_points [(2, 2); (6, 2)])
      (read_points [(0, 0); (4, 0); (4, 4); (0, 4)]) = Some (Some line).
Proof.
  apply (solve_finds_small insertion_sort exact_angular (fun _ => 0)
           (read_points [(2, 2); (6, 2)])
           (read_points [(0, 0); (4, 0); (4, 4); (0, 4)])
           insertion_sort_spec exact_angular_spec).
  left. split; [vm_compute; discriminate|]. split; [vm_compute; discriminate|].
  exists (mkPoint 2 2 1), (mkPoint 6 2 2), (mkPoint 4 0 2), (mkPoint 4 4 3).
  split; [vm_compute; tauto|]. split; [vm_compute; tauto|].
  split; [unfold apart, same_place; cbn; lia|]. split.
  - exists 1. split; vm_compute; reflexivity.
  - apply intersect_share_point. vm_compute. reflexivity.
Defined.

(** ** Further properties: exactness of [is_inside] *)

(** The binary search of [is_inside] keeps [p] between the rays from
    [poly[0]] through [poly[l]] and through [poly[r]]. *)
Lemma fan_search_bracket poly p p0 :
  forall fuel l r l' r',
    fan_search fuel poly p p0 l r = Some (l', r') ->
    fan_bracket poly p p0 l r -> fan_bracket poly p p0 l' r'.
Proof.
  induction fuel as [|fuel IH]; intros l r l' r'; cbn [fan_search].
  - destruct (l + 1 <? r); [discriminate|]. intros E. now injection E as <- <-.
  - destruct (l + 1 <? r).
    + destruct (vec_at poly (Z.quot (l + r) 2)) as [pm|] eqn:Em; [|discriminate].
      destruct (Z.geb_spec (cross_product p0 pm p) 0) as [Hge|Hlt].
      * intros E (pl & pr & Hl & Hr & Cl & Cr). apply (IH _ _ _ _ E).
        exists pm, pr. repeat split; auto; lia.
      * intros E (pl & pr & Hl & Hr & Cl & Cr). apply (IH _ _ _ _ E).
        exists pl, pm. repeat split; auto; lia.
    + intros E. now injection E as <- <-.
Qed.

(** A point of a non-degenerate triangle is on the left of every line
    that has the three corners on its left. *)
Lemma geo_triangle a b p0 pl pr p :
  0 < cross_product p0 pl pr ->
  0 <= cross_product pl pr p -> cross_product p0 pr p <= 0 -> 0 <= cross_product p0 pl p ->
  0 <= cross_product a b p0 -> 0 <= cross_product a b pl -> 0 <= cross_product a b pr ->
  0 <= cross_product a b p.
Proof.
  intros HT H0 Hl Hr C0 Cl Cr.
  assert (E : cross_product p0 pl pr * cross_product a b p =
              cross_product pl pr p * cross_product a b p0 +
              (- cross_product p0 pr p) * cross_product a b pl +
              cross_product p0 pl p * cross_product a b pr).
  { rewrite !cross_product_eq. ring. }
  assert (0 <= cross_product pl pr p * cross_product a b p0) by (apply Z.mul_nonneg_nonneg; lia).
  assert (0 <= (- cross_product p0 pr p) * cross_product a b pl)
    by (apply Z.mul_nonneg_nonneg; lia).
  assert (0 <= cross_product p0 pl p * cross_product a b pr) by (apply Z.mul_nonneg_nonneg; lia).
  destruct (Z_lt_le_dec (cross_product a b p) 0) as [Hneg|]; [|assumption].
  exfalso.
  assert (cross_product p0 pl pr * cross_product a b p < 0) by (apply Z.mul_pos_neg; lia).
  lia.
Qed.

Lemma cyclic_edge_succ poly i a b :
  vec_at poly i = Some a -> vec_at poly (i + 1) = Some b -> cyclic_edge poly a b.
Proof.
  intros Ha Hb. pose proof (vec_at_range _ _ _ Ha). pose proof (vec_at_range _ _ _ Hb).
  exists i. split; [exact Ha|]. now rewrite Z.mod_small by lia.
Qed.

Lemma cyclic_edge_close poly a b :
  1 <= size poly ->
  vec_at poly (size poly - 1) = Some a -> vec_at poly 0 = Some b -> cyclic_edge poly a b.
Proof.
  intros Hn Ha Hb. exists (size poly - 1). split; [exact Ha|].
  replace (size poly - 1 + 1) with (size poly) by ring. now rewrite Z.mod_same by lia.
Qed.

(** A point accepted by [is_inside] lies in a triangle of the fan around
    [poly[0]]. *)
Lemma is_inside_fan poly p :
  3 <= size poly -> is_inside poly p = Some true ->
  exists l p0 pl pr,
    1 <= l /\ l + 1 <= size poly - 1 /\
    vec_at poly 0 = Some p0 /\ vec_at poly l = Some pl /\ vec_at poly (l + 1) = Some pr /\
    0 <= cross_product pl pr p /\ cross_product p0 pr p <= 0 /\ 0 <= cross_product p0 pl p.
Proof.
  intros Hn. unfold is_inside.
  destruct (Z.eqb_spec (size poly) 0); [lia|].
  destruct (Z.eqb_spec (size poly) 1); [lia|].
  destruct (Z.eqb_spec (size poly) 2); [lia|].
  destruct (vec_at poly 0) as [p0|] eqn:E0; [|discriminate].
  destruct (vec_at poly 1) as [p1|] eqn:E1; [|discriminate].
  destruct (Z.ltb_spec (cross_product p0 p1 p) 0) as [|C1]; [discriminate|].
  destruct (vec_at poly (size poly - 1)) as [plast|] eqn:El; [|discriminate].
  rewrite Z.gtb_ltb.
  destruct (Z.ltb_spec 0 (cross_product p0 plast p)) as [|Cl]; [discriminate|].
  destruct (fan_search (Z.to_nat (size poly)) poly p p0 1 (size poly - 1))
    as [[l r]|] eqn:Ef; [|discriminate].
  cbn [fst snd].
  destruct (fan_search_total poly p p0 (size poly) eq_refl (Z.to_nat (size poly)) 1
              (size poly - 1)) as (l' & Ef' & Hl1 & Hl2); [lia|lia|lia|].
  rewrite Ef in Ef'. injection Ef' as -> ->.
  destruct (fan_search_bracket poly p p0 _ _ _ _ _ Ef) as (pl & pr & Vl & Vr & Bl & Br).
  { exists p1, plast. repeat split; auto. }
  rewrite Vl, Vr. intros H. injection H as H.
  rewrite Z.geb_leb in H. apply Z.leb_le in H.
  exists l', p0, pl, pr. repeat split; auto.
Qed.

Lemma fan_triangle_positive poly l p0 pl pr :
  3 <= size poly -> convex_ccw poly -> distinct_places poly ->
  1 <= l -> vec_at poly 0 = Some p0 -> vec_at poly l = Some pl ->
  vec_at poly (l + 1) = Some pr -> 0 < cross_product p0 pl pr.
Proof.
  intros Hn Hconv Hd Hl E0 Vl Vr.
  pose proof (cyclic_edge_succ poly l pl pr Vl Vr) as Hedge.
  pose proof (proj1 Hconv pl pr p0 Hedge (vec_at_In _ _ _ E0)) as T0.
  assert (TN : cross_product p0 pl pr <> 0).
  { apply (no_three_collinear poly 0 l (l + 1)); auto; lia. }
  assert (cross_product pl pr p0 = cross_product p0 pl pr)
    by (rewrite !cross_product_eq; ring).
  lia.
Qed.

(** A point accepted by [is_inside] on a strictly convex polygon is on the
    left of every line that has all the vertices on its left: no line
    separates it from the polygon. *)
Lemma is_inside_spans poly p a b :
  3 <= size poly -> convex_ccw poly -> distinct_places poly ->
  is_inside poly p = Some true ->
  (forall h, In h poly -> 0 <= cross_product a b h) -> 0 <= cross_product a b p.
Proof.
  intros Hn Hconv Hd H Hall.
  destruct (is_inside_fan poly p Hn H)
    as (l & p0 & pl & pr & Hl1 & Hl2 & E0 & Vl & Vr & C0 & Cr & Cl).
  apply (geo_triangle a b p0 pl pr p); auto.
  - now apply (fan_triangle_positive poly l).
  - apply Hall. exact (vec_at_In _ _ _ E0).
  - apply Hall. exact (vec_at_In _ _ _ Vl).
  - apply Hall. exact (vec_at_In _ _ _ Vr).
Qed.

Lemma is_inside_true_iff poly p :
  3 <= size poly -> convex_ccw poly -> distinct_places poly ->
  (is_inside poly p = Some true <->
   forall a b, cyclic_edge poly a b -> 0 <= cross_product a b p).
Proof.
  intros Hn Hconv Hd. split.
  - intros H a b Hab. apply (is_inside_spans poly p a b Hn Hconv Hd H).
    intros h Hh. now apply (proj1 Hconv).
  - intros H. apply is_inside_of_edges; [exact Hn| |].
    + intros i a b Ha Hb. apply H. now apply (cyclic_edge_succ poly i).
    + intros a b Ha Hb. apply H. apply cyclic_edge_close; auto. lia.
Qed.

(** Either some edge has [p] strictly on its right, or none has. *)
Lemma right_of_some_edge_dec poly p :
  (exists a b, cyclic_edge poly a b /\ cross_product a b p < 0) \/
  (forall a b, cyclic_edge poly a b -> 0 <= cross_product a b p).
Proof.
  assert (Hdec : forall k : nat,
            (exists i a b, 0 <= i < Z.of_nat k /\ vec_at poly i = Some a /\
               vec_at poly ((i + 1) mod size poly) = Some b /\ cross_product a b p < 0) \/
            (forall i a b, 0 <= i < Z.of_nat k -> vec_at poly i = Some a ->
               vec_at poly ((i + 1) mod size poly) = Some b -> 0 <= cross_product a b p)).
  { induction k as [|k IH]; [right; intros; lia|].
    destruct IH as [(i & a & b & Hi & Ha & Hb & Hc)|IH].
    - left. exists i, a, b. repeat split; auto; lia.
    - destruct (vec_at poly (Z.of_nat k)) as [a|] eqn:Ea;
        [destruct (vec_at poly ((Z.of_nat k + 1) mod size poly)) as [b|] eqn:Eb|].
      + destruct (Z_lt_le_dec (cross_product a b p) 0) as [Hneg|Hpos].
        * left. exists (Z.of_nat k), a, b. repeat split; auto; lia.
        * right. intros i a' b' Hi Ha' Hb'.
          destruct (Z.eq_dec i (Z.of_nat k)) as [->|]; [|apply (IH i); auto; lia].
          congruence.
      + right. intros i a' b' Hi Ha' Hb'.
        destruct (Z.eq_dec i (Z.of_nat k)) as [->|]; [|apply (IH i a' b'); auto; lia].
        congruence.
      + right. intros i a' b' Hi Ha' Hb'.
        destruct (Z.eq_dec i (Z.of_nat k)) as [->|]; [|apply (IH i a' b'); auto; lia].
        congruence. }
  destruct (Hdec (length poly)) as [(i & a & b & Hi & Ha & Hb & Hc)|Hall].
  - left. exists a, b. split; [now exists i|exact Hc].
  - right. intros a b (i & Ha & Hb).
    apply (Hall i a b); auto. apply vec_at_range in Ha. exact Ha.
Qed.

Lemma is_inside_false_iff poly p :
  3 <= size poly -> convex_ccw poly -> distinct_places poly ->
  (is_inside poly p = Some false <->
   exists a b, cyclic_edge poly a b /\ cross_product a b p < 0).
Proof.
  intros Hn Hconv Hd.
  pose proof (is_inside_true_iff poly p Hn Hconv Hd) as Htrue. split.
  - intros H. destruct (right_of_some_edge_dec poly p) as [Hex|Hall]; [exact Hex|].
    pose proof (proj2 Htrue Hall). congruence.
  - intros (a & b & Hab & Hc).
    destruct (is_inside_total poly p) as [[|] E]; [|exact E].
    pose proof (proj1 Htrue E a b Hab). lia.
Qed.

(** X4. On a strictly convex counter-clockwise polygon with distinct
    vertices, [is_inside] is exact: it returns true for the points on the
    left of, or on, every edge, and false for the points strictly on the
    right of some edge. *)
Theorem is_inside_exact (poly : list Point) (p : Point) :
  3 <= size poly -> convex_ccw poly -> distinct_places poly ->
  (is_inside poly p = Some true <->
   forall a b, cyclic_edge poly a b -> 0 <= cross_product a b p) /\
  (is_inside poly p = Some false <->
   exists a b, cyclic_edge poly a b /\ cross_product a b p < 0).
Proof.
  intros Hn Hconv Hd. split.
  - now apply is_inside_true_iff.
  - now apply is_inside_false_iff.
Qed.

Lemma is_inside_exact_witness :
  exists a b,
    cyclic_edge (snd (convex_hull insertion_sort
                   [mkPoint 0 0 1; mkPoint 4 0 2; mkPoint 4 4 3; mkPoint 0 4 4])) a b /\
    cross_product a b (mkPoint 2 5 9) < 0.
Proof.
  assert (H3 : 3 <= size (snd (convex_hull insertion_sort
              [mkPoint 0 0 1; mkPoint 4 0 2; mkPoint 4 4 3; mkPoint 0 4 4])))
    by (vm_compute; discriminate).
  apply (is_inside_exact _ (mkPoint 2 5 9) H3
           (proj1 (convex_hull_polygon _ _ insertion_sort_spec H3))
           (proj2 (convex_hull_polygon _ _ insertion_sort_spec H3))).
  vm_compute. reflexivity.
Defined.

Lemma is_inside_single_iff a p : is_inside [a] p = Some true <-> same_place p a.
Proof.
  unfold is_inside, point_eqb, same_place.
  change (size [a]) with 1. change (vec_at [a] 0) with (Some a).
  change (1 =? 0) with false. change (1 =? 1) with true. cbv iota beta.
  split.
  - intros H. injection H as H. apply andb_true_iff in H. destruct H as [H1 H2].
    now apply Z.eqb_eq in H1, H2.
  - intros [-> ->]. now rewrite !Z.eqb_refl.
Qed.

Lemma is_inside_pair_iff a b p :
  is_inside [a; b] p = Some true <-> on_segment a b (IZR (x p)) (IZR (y p)).
Proof.
  unfold is_inside.
  change (size [a; b]) with 2. change (vec_at [a; b] 0) with (Some a).
  change (vec_at [a; b] 1) with (Some b).
  change (2 =? 0) with false. change (2 =? 1) with false. change (2 =? 2) with true.
  cbv iota beta. split.
  - intros H. injection H as H.
    repeat (apply andb_true_iff in H; destruct H as [H ?]).
    apply Z.eqb_eq in H.
    repeat match goal with Hb : (_ <=? _) = true |- _ => apply Z.leb_le in Hb end.
    apply on_segment_collinear_box; [exact H|lia|lia].
  - intros Hon.
    pose proof (on_segment_collinear a b _ _ Hon) as Hc.
    destruct (on_segment_box a b _ _ Hon) as [[Hx1 Hx2] [Hy1 Hy2]].
    apply le_IZR in Hx1, Hx2, Hy1, Hy2.
    assert (C0 : cross_product a b p = 0).
    { apply eq_IZR. rewrite IZR_cross. unfold crossR. exact Hc. }
    f_equal. repeat (apply andb_true_intro; split);
      try (apply Z.eqb_eq; exact C0); apply Z.leb_le; assumption.
Qed.

(** X5. On polygons of fewer than three vertices [is_inside] tests
    membership in the closed segment (two vertices), equality of
    coordinates with the single vertex, and rejects every point for the
    empty polygon. *)
Theorem is_inside_small_exact (a b p : Point) :
  is_inside [] p = Some false /\
  (is_inside [a] p = Some true <-> same_place p a) /\
  (is_inside [a; b] p = Some true <-> on_segment a b (IZR (x p)) (IZR (y p))).
Proof.
  split; [reflexivity|]. split; [apply is_inside_single_iff|apply is_inside_pair_iff].
Qed.

(** ** Further properties: the hull and the order of the input *)

Lemma place_eq a b : place a = place b <-> same_place a b.
Proof. unfold place, same_place. split; [intros E; injection E; auto|intros [-> ->]; auto]. Qed.

Lemma cross_product_place o a b o' a' b' :
  place o = place o' -> place a = place a' -> place b = place b' ->
  cross_product o a b = cross_product o' a' b'.
Proof.
  unfold place. intros Eo Ea Eb. injection Eo as Eo1 Eo2. injection Ea as Ea1 Ea2.
  injection Eb as Eb1 Eb2. rewrite !cross_product_eq. congruence.
Qed.

Lemma cons_eq_inv {T : Type} (a a' : T) l l' : a :: l = a' :: l' -> a = a' /\ l = l'.
Proof. intros E. now injection E. Qed.

Lemma map_place_length (l l' : list Point) :
  map place l = map place l' -> length l = length l'.
Proof. intros E. rewrite <- (length_map place l), E. apply length_map. Qed.

Lemma pop_while_cons2 t p b a h :
  pop_while t p (b :: a :: h) =
  if (t <=? length (b :: a :: h))%nat && (cross_product a b p <=? 0)
  then pop_while t p (a :: h) else b :: a :: h.
Proof. reflexivity. Qed.

Lemma pop_while_place t p p' :
  place p = place p' ->
  forall h h', map place h = map place h' ->
    map place (pop_while t p h) = map place (pop_while t p' h').
Proof.
  intros Ep. induction h as [|b h IH]; intros h' E.
  - destruct h'; [reflexivity|discriminate].
  - destruct h' as [|b' h']; [discriminate|].
    cbn [map] in E. destruct (cons_eq_inv _ _ _ _ E) as [Eb Eh].
    destruct h as [|a h]; destruct h' as [|a' h']; try discriminate.
    + cbn [pop_while map]. now rewrite Eb.
    + rewrite !pop_while_cons2.
      pose proof (map_place_length _ _ Eh) as El.
      cbn [map] in Eh. destruct (cons_eq_inv _ _ _ _ Eh) as [Ea Eh'].
      replace (length (b' :: a' :: h')) with (length (b :: a :: h)) by (cbn in *; lia).
      rewrite (cross_product_place a b p a' b' p' Ea Eb Ep).
      destruct ((t <=? length (b :: a :: h))%nat && (cross_product a' b' p' <=? 0)).
      * apply IH. cbn [map]. now rewrite Ea, Eh'.
      * cbn [map]. now rewrite Eb, Ea, Eh'.
Qed.

Lemma fold_push_place t :
  forall s s' h h', map place s = map place s' -> map place h = map place h' ->
    map place (fold_left (push_point t) s h) = map place (fold_left (push_point t) s' h').
Proof.
  induction s as [|p s IH]; intros s' h h' Es Eh.
  - destruct s'; [exact Eh|discriminate].
  - destruct s' as [|p' s']; [discriminate|].
    cbn [map] in Es. destruct (cons_eq_inv _ _ _ _ Es) as [Ep Es']. cbn [fold_left].
    apply IH; [exact Es'|]. unfold push_point. cbn [map].
    now rewrite Ep, (pop_while_place t p p' Ep h h' Eh).
Qed.

Lemma map_tl {A B : Type} (f : A -> B) l : map f (tl l) = tl (map f l).
Proof. now destruct l. Qed.

(** The scan reads coordinates only. *)
Lemma hull_of_sorted_place s s' :
  map place s = map place s' ->
  map place (hull_of_sorted s) = map place (hull_of_sorted s').
Proof.
  intros E. unfold hull_of_sorted.
  assert (E1 : map place (fold_left (push_point 2) s []) =
               map place (fold_left (push_point 2) s' [])) by now apply fold_push_place.
  rewrite (map_place_length _ _ E1).
  rewrite !map_rev, !map_tl. f_equal. f_equal.
  apply fold_push_place; [|exact E1].
  now rewrite !map_tl, !map_rev, E.
Qed.

Lemma lex_le_place a b a' b' :
  place a = place a' -> place b = place b' -> lex_le a b -> lex_le a' b'.
Proof.
  unfold place. intros Ea Eb. injection Ea as Ea1 Ea2. injection Eb as Eb1 Eb2.
  rewrite !lex_le_iff. lia.
Qed.

Lemma sorted_head_least a s q :
  StronglySorted lex_le (a :: s) -> In (place q) (map place (a :: s)) -> lex_le a q.
Proof.
  intros Hs Hq. apply in_map_iff in Hq. destruct Hq as (r & Er & Hr).
  apply StronglySorted_inv in Hs. destruct Hs as [_ Hall].
  apply (lex_le_place a r a q eq_refl Er).
  destruct Hr as [<-|Hr]; [apply lex_le_refl|].
  rewrite Forall_forall in Hall. now apply Hall.
Qed.

(** Two sorted vectors with the same coordinates, counted with
    multiplicity, list them in the same order. *)
Lemma sorted_places_unique :
  forall s s', StronglySorted lex_le s -> StronglySorted lex_le s' ->
    Permutation (map place s) (map place s') -> map place s = map place s'.
Proof.
  induction s as [|a s IH]; intros s' Hs Hs' Hp.
  - apply Permutation_nil in Hp. now rewrite Hp.
  - destruct s' as [|a' s'].
    { apply Permutation_sym, Permutation_nil in Hp. discriminate. }
    assert (Ea : place a = place a').
    { apply place_eq, lex_le_antisym.
      - apply (sorted_head_least a s a' Hs).
        apply (Permutation_in _ (Permutation_sym Hp)). now left.
      - apply (sorted_head_least a' s' a Hs').
        apply (Permutation_in _ Hp). now left. }
    cbn [map] in *. rewrite Ea in *. f_equal.
    apply IH.
    + now apply StronglySorted_inv in Hs.
    + now apply StronglySorted_inv in Hs'.
    + now apply Permutation_cons_inv in Hp.
Qed.

(** X3. The hull of three or more points, as a sequence of coordinates,
    depends neither on the order of the input nor on how [std::sort]
    orders points with equal coordinates. *)
Theorem convex_hull_order_independent (sort sort' : list Point -> list Point)
    (pts pts' : list Point) :
  sort_spec sort -> sort_spec sort' ->
  Permutation (map place pts) (map place pts') ->
  (3 <= length pts)%nat ->
  map place (snd (convex_hull sort pts)) = map place (snd (convex_hull sort' pts')).
Proof.
  intros Hsort Hsort' Hp Hlen.
  assert (Hlen' : length pts' = length pts).
  { pose proof (Permutation_length Hp) as E. now rewrite !length_map in E. }
  unfold convex_hull. rewrite Hlen'.
  destruct (Nat.leb_spec (length pts) 2) as [|_]; [lia|]. cbn [snd].
  destruct (Hsort pts) as [P1 S1]. destruct (Hsort' pts') as [P2 S2].
  apply hull_of_sorted_place, sorted_places_unique; try assumption.
  rewrite <- (Permutation_map place P1), <- (Permutation_map place P2). exact Hp.
Qed.

Lemma convex_hull_order_independent_witness :
  map place (snd (convex_hull insertion_sort
     [mkPoint 0 0 1; mkPoint 4 0 2; mkPoint 0 0 3; mkPoint 0 4 4])) =
  map place (snd (convex_hull insertion_sort
     [mkPoint 0 4 1; mkPoint 0 0 2; mkPoint 0 0 3; mkPoint 4 0 4])).
Proof.
  apply (convex_hull_order_independent insertion_sort insertion_sort _ _
           insertion_sort_spec insertion_sort_spec).
  - vm_compute.
    apply (perm_trans (l' := [(0, 0); (0, 0); (4, 0); (0, 4)])).
    + apply perm_skip, perm_swap.
    + apply (perm_trans (l' := [(0, 0); (0, 0); (0, 4); (4, 0)])).
      * do 2 apply perm_skip. apply perm_swap.
      * apply (perm_trans (l' := [(0, 0); (0, 4); (0, 0); (4, 0)])).
        -- apply perm_skip, perm_swap.
        -- apply perm_swap.
  - cbn. lia.
Defined.

(** ** Further properties: end to end, and 64-bit arithmetic *)



Lemma read_points_In cs p :
  In p (read_points cs) ->
  vec_at (read_points cs) (id p - 1) = Some p /\
  nth_error cs (Z.to_nat (id p - 1)) = Some (x p, y p).
Proof.
  intros H. apply In_nth_error in H. destruct H as [k Hk].
  pose proof Hk as Hk'. rewrite read_points_nth in Hk'.
  destruct (nth_error cs k) as [[cx cy]|] eqn:Ec; [|discriminate].
  cbn in Hk'. injection Hk' as <-. cbn [id x y].
  replace (Z.of_nat k + 1 - 1) with (Z.of_nat k) by lia.
  rewrite vec_at_nat, Nat2Z.id. split; [exact Hk|exact Ec].
Qed.

(** X11. End to end: a line [i1 i2 j1 j2] printed for an input read by
    the reading loops names, by their 1-based positions in the input, two
    points of the first set and two points of the second set whose closed
    segments share a point. *)
Theorem solve_output_valid (sort : list Point -> list Point)
    (angular : list Point -> list Point -> list Point) (rand : nat -> Z)
    (cp cr : list (Z * Z)) (i1 i2 j1 j2 : Z) :
  sort_spec sort -> angular_spec angular ->
  solve sort angular rand (read_points cp) (read_points cr) = Some (Some (i1, i2, j1, j2)) ->
  exists p1 p2 q1 q2,
    nth_error cp (Z.to_nat (i1 - 1)) = Some (x p1, y p1) /\
    nth_error cp (Z.to_nat (i2 - 1)) = Some (x p2, y p2) /\
    nth_error cr (Z.to_nat (j1 - 1)) = Some (x q1, y q1) /\
    nth_error cr (Z.to_nat (j2 - 1)) = Some (x q2, y q2) /\
    1 <= i1 <= Z.of_nat (length cp) /\ 1 <= i2 <= Z.of_nat (length cp) /\
    1 <= j1 <= Z.of_nat (length cr) /\ 1 <= j2 <= Z.of_nat (length cr) /\
    segments_share_point p1 p2 q1 q2.
Proof.
  intros Hsort Hang H. apply solve_line_crossing in H; [|exact Hsort|exact Hang].
  destruct H as (p1 & p2 & q1 & q2 & H1 & H2 & H3 & H4 & E & Hs).
  injection E as -> -> -> ->.
  exists p1, p2, q1, q2.
  destruct (read_points_In _ _ H1) as [V1 N1]. destruct (read_points_In _ _ H2) as [V2 N2].
  destruct (read_points_In _ _ H3) as [V3 N3]. destruct (read_points_In _ _ H4) as [V4 N4].
  assert (Lp : size (read_points cp) = Z.of_nat (length cp)).
  { unfold size, read_points. rewrite length_map, length_combine, length_seq. lia. }
  assert (Lr : size (read_points cr) = Z.of_nat (length cr)).
  { unfold size, read_points. rewrite length_map, length_combine, length_seq. lia. }
  apply vec_at_range in V1, V2, V3, V4. rewrite Lp in V1, V2. rewrite Lr in V3, V4.
  repeat split; auto; lia.
Qed.

Lemma solve_output_valid_witness :
  exists p1 p2 q1 q2,
    nth_error [(0, 0); (4, 4)] (Z.to_nat (1 - 1)) = Some (x p1, y p1) /\
    nth_error [(0, 0); (4, 4)] (Z.to_nat (2 - 1)) = Some (x p2, y p2) /\
    nth_error [(0, 4); (4, 0)] (Z.to_nat (1 - 1)) = Some (x q1, y q1) /\
    nth_error [(0, 4); (4, 0)] (Z.to_nat (2 - 1)) = Some (x q2, y q2) /\
    1 <= 1 <= Z.of_nat (length [(0, 0); (4, 4)]) /\
    1 <= 2 <= Z.of_nat (length [(0, 0); (4, 4)]) /\
    1 <= 1 <= Z.of_nat (length [(0, 4); (4, 0)]) /\
    1 <= 2 <= Z.of_nat (length [(0, 4); (4, 0)]) /\
    segments_share_point p1 p2 q1 q2.
Proof.
  apply (solve_output_valid insertion_sort exact_angular (fun _ => 0)
           [(0, 0); (4, 4)] [(0, 4); (4, 0)] 1 2 1 2
           insertion_sort_spec exact_angular_spec).
  vm_compute. reflexivity.
Defined.

(** ** Leaving a convex polygon *)

Lemma crossP_point o a b : crossP o a (IZR (x b)) (IZR (y b)) = crossR o a b.
Proof. reflexivity. Qed.

Lemma ratio_trans (xk yk xi yi xj yj : R) :
  (0 < yi -> 0 <= yj -> 0 <= yk ->
   xk * yi <= xi * yk -> xi * yj <= xj * yi -> xk * yj <= xj * yk)%R.
Proof.
  intros Hyi Hyj Hyk H1 H2.
  apply Rmult_le_reg_l with yi; [exact Hyi|].
  apply Rle_trans with (yj * (xi * yk))%R.
  - replace (yi * (xk * yj))%R with (yj * (xk * yi))%R by ring.
    now apply Rmult_le_compat_l.
  - replace (yj * (xi * yk))%R with (yk * (xi * yj))%R by ring.
    replace (yi * (xj * yk))%R with (yk * (xj * yi))%R by ring.
    now apply Rmult_le_compat_l.
Qed.

(** Among the edges that have [b] strictly on their right, one is crossed
    first on the way from [(u, v)] to [b]. *)
Lemma exists_first_exit poly u v b :
  forall k : nat, Z.of_nat k <= size poly ->
    (forall j a1 a2, 0 <= j < Z.of_nat k -> vec_at poly j = Some a1 ->
       vec_at poly ((j + 1) mod size poly) = Some a2 -> (0 <= crossR a1 a2 b)%R) \/
    (exists e1 e2, first_exit poly u v b k e1 e2).
Proof.
  induction k as [|k IH]; intros Hk; [left; intros; lia|].
  destruct IH as [Hnone|(e1 & e2 & He & Hb & Hmin)]; [lia| |].
  - destruct (vec_at_some poly (Z.of_nat k) ltac:(lia)) as [a1 Ea1].
    destruct (vec_at_some poly ((Z.of_nat k + 1) mod size poly)) as [a2 Ea2].
    { apply Z.mod_pos_bound. lia. }
    destruct (Rle_lt_dec 0 (crossR a1 a2 b)) as [Hpos|Hneg].
    + left. intros j c1 c2 Hj H1 H2.
      destruct (Z.eq_dec j (Z.of_nat k)) as [->|]; [|apply (Hnone j); auto; lia].
      rewrite Ea1 in H1. rewrite Ea2 in H2. injection H1 as <-. injection H2 as <-.
      exact Hpos.
    + right. exists a1, a2. split; [now exists (Z.of_nat k)|]. split; [exact Hneg|].
      intros j c1 c2 Hj H1 H2 Hc.
      destruct (Z.eq_dec j (Z.of_nat k)) as [->|].
      * rewrite Ea1 in H1. rewrite Ea2 in H2. injection H1 as <-. injection H2 as <-. lra.
      * exfalso. pose proof (Hnone j c1 c2 ltac:(lia) H1 H2). lra.
  - destruct (vec_at_some poly (Z.of_nat k) ltac:(lia)) as [a1 Ea1].
    destruct (vec_at_some poly ((Z.of_nat k + 1) mod size poly)) as [a2 Ea2].
    { apply Z.mod_pos_bound. lia. }
    right.
    destruct (Rle_lt_dec 0 (crossR a1 a2 b)) as [Hpos|Hneg].
    { exists e1, e2. split; [exact He|]. split; [exact Hb|].
      intros j c1 c2 Hj H1 H2 Hc.
      destruct (Z.eq_dec j (Z.of_nat k)) as [->|]; [|apply (Hmin j); auto; lia].
      rewrite Ea1 in H1. rewrite Ea2 in H2. injection H1 as <-. injection H2 as <-. lra. }
    destruct (Rle_lt_dec (crossP e1 e2 u v * - crossR a1 a2 b)
                         (crossP a1 a2 u v * - crossR e1 e2 b)) as [Hle|Hlt].
    + exists e1, e2. split; [exact He|]. split; [exact Hb|].
      intros j c1 c2 Hj H1 H2 Hc.
      destruct (Z.eq_dec j (Z.of_nat k)) as [->|]; [|apply (Hmin j); auto; lia].
      rewrite Ea1 in H1. rewrite Ea2 in H2. injection H1 as <-. injection H2 as <-.
      exact Hle.
    + exists a1, a2. split; [now exists (Z.of_nat k)|]. split; [exact Hneg|].
      intros j c1 c2 Hj H1 H2 Hc.
      destruct (Z.eq_dec j (Z.of_nat k)) as [->|].
      * rewrite Ea1 in H1. rewrite Ea2 in H2. injection H1 as <-. injection H2 as <-. lra.
      * apply (ratio_trans _ _ (crossP e1 e2 u v) (- crossR e1 e2 b)); try lra.
        apply (Hmin j); auto. lia.
Qed.

(** Up to the first exit the way stays on the left of every edge. *)
Lemma first_exit_inside poly u v b e1 e2 a1 a2 :
  inside_or_on poly u v ->
  first_exit poly u v b (length poly) e1 e2 ->
  cyclic_edge poly a1 a2 ->
  (0 <= - crossR e1 e2 b * crossP a1 a2 u v + crossP e1 e2 u v * crossR a1 a2 b)%R.
Proof.
  intros Hin (He & Hb & Hmin) Ha.
  pose proof (Hin e1 e2 He) as Xe. pose proof (Hin a1 a2 Ha) as Xa.
  destruct (Rle_lt_dec 0 (crossR a1 a2 b)) as [Hpos|Hneg].
  - apply Rplus_le_le_0_compat; apply Rmult_le_pos; lra.
  - destruct Ha as (j & H1 & H2).
    pose proof (Hmin j a1 a2 (vec_at_range _ _ _ H1) H1 H2 Hneg). lra.
Qed.

(** Leaving a strictly convex polygon: a segment from a point inside or on
    the polygon to a point strictly on the right of some edge shares a point
    with an edge. *)
Lemma exit_edge poly u v b :
  3 <= size poly -> convex_ccw poly ->
  inside_or_on poly u v ->
  (exists a1 a2, cyclic_edge poly a1 a2 /\ cross_product a1 a2 b < 0) ->
  exists e1 e2 t,
    cyclic_edge poly e1 e2 /\ (0 <= t <= 1)%R /\
    on_segment e1 e2 (u + t * (IZR (x b) - u)) (v + t * (IZR (y b) - v)).
Proof.
  intros Hn Hconv Hin (a1 & a2 & Ha & Hab).
  destruct (exists_first_exit poly u v b (length poly) ltac:(unfold size; lia))
    as [Hnone|(e1 & e2 & Hfirst)].
  { exfalso. destruct Ha as (j & H1 & H2).
    pose proof (Hnone j a1 a2 (vec_at_range _ _ _ H1) H1 H2) as Hp.
    rewrite <- IZR_cross in Hp. apply le_IZR in Hp. lia. }
  pose proof Hfirst as (He & Hb & _).
  pose proof (Hin e1 e2 He) as Hx.
  set (X := crossP e1 e2 u v) in *. set (Y := (- crossR e1 e2 b)%R).
  assert (HY : (0 < Y)%R) by (unfold Y; lra).
  destruct He as (i & E1 & E2).
  pose proof (vec_at_range _ _ _ E1) as Ri.
  rewrite <- rem_mod in E2 by lia.
  destruct (vertex_neighbours poly i e1 Hn E1) as (e2' & e0 & E2' & E0 & T0 & _ & _).
  rewrite E2 in E2'. injection E2' as <-.
  pose proof (vec_at_range _ _ _ E2) as Rj.
  destruct (vertex_neighbours poly _ e2 Hn E2) as (e3 & e1' & E3 & E1' & T1 & _ & Hnext).
  assert (Eback : Z.rem (Z.rem (i + 1) (size poly) - 1 + size poly) (size poly) = i).
  { rewrite prev_index by lia. rewrite next_index by lia.
    destruct (Z.eqb_spec (i + 1) (size poly)); cbn; [lia|].
    destruct (Z.eqb_spec (i + 1) 0); lia. }
  rewrite Eback, E1 in E1'. injection E1' as <-.
  destruct (neighbours_cyclic poly i e1 e2 e0 Hn E1 E2 E0) as (_ & Hprev & Hcur).
  pose proof (proj2 Hconv _ _ _ T0) as S0. pose proof (proj2 Hconv _ _ _ T1) as S1.
  apply (IZR_lt 0) in S0, S1. rewrite IZR_cross in S0, S1.
  pose proof (first_exit_inside poly u v b e1 e2 e2 e3 Hin Hfirst Hnext) as Nn.
  pose proof (first_exit_inside poly u v b e1 e2 e0 e1 Hin Hfirst Hprev) as Np.
  fold X Y in Nn, Np.
  assert (In_ : (Y * crossP e2 e3 u v + X * crossR e2 e3 b =
                 crossR e1 e2 e3 * lineP u v b e2)%R).
  { unfold X, Y, crossP, crossR, lineP. ring. }
  assert (Ip : (Y * crossP e0 e1 u v + X * crossR e0 e1 b =
                - crossR e0 e1 e2 * lineP u v b e1)%R).
  { unfold X, Y, crossP, crossR, lineP. ring. }
  assert (ID : (lineP u v b e1 - lineP u v b e2 = - (X + Y))%R).
  { unfold X, Y, crossP, crossR, lineP. ring. }
  assert (L2 : (0 <= lineP u v b e2)%R).
  { destruct (Rle_lt_dec 0 (lineP u v b e2)) as [|Hneg]; [assumption|exfalso].
    assert (crossR e1 e2 e3 * lineP u v b e2 < 0)%R; [|lra].
    replace (crossR e1 e2 e3 * lineP u v b e2)%R
      with (- (crossR e1 e2 e3 * - lineP u v b e2))%R by ring.
    apply Ropp_lt_gt_0_contravar. apply Rmult_lt_0_compat; lra. }
  assert (L1 : (lineP u v b e1 <= 0)%R).
  { destruct (Rle_lt_dec (lineP u v b e1) 0) as [|Hpos]; [assumption|exfalso].
    assert (0 < crossR e0 e1 e2 * lineP u v b e1)%R by (apply Rmult_lt_0_compat; lra).
    lra. }
  assert (HXY : (0 < X + Y)%R) by lra.
  exists e1, e2, (X / (X + Y))%R.
  split; [exists i; split; [exact E1|rewrite <- rem_mod by lia; exact E2]|].
  assert (Ht : (0 <= X / (X + Y) <= 1)%R).
  { split.
    - apply Rmult_le_pos; [lra|left; now apply Rinv_0_lt_compat].
    - apply Rmult_le_reg_r with (X + Y)%R; [lra|].
      unfold Rdiv. rewrite Rmult_assoc, Rinv_l by lra. lra. }
  split; [exact Ht|].
  exists (- lineP u v b e1 / (X + Y))%R. split.
  - split.
    + apply Rmult_le_pos; [lra|left; now apply Rinv_0_lt_compat].
    + apply Rmult_le_reg_r with (X + Y)%R; [lra|].
      unfold Rdiv. rewrite Rmult_assoc, Rinv_l by lra. lra.
  - assert (Wx : (Y * (u - IZR (x e1)) + X * (IZR (x b) - IZR (x e1)) =
                  - lineP u v b e1 * (IZR (x e2) - IZR (x e1)))%R).
    { unfold X, Y, crossP, crossR, lineP. ring. }
    assert (Wy : (Y * (v - IZR (y e1)) + X * (IZR (y b) - IZR (y e1)) =
                  - lineP u v b e1 * (IZR (y e2) - IZR (y e1)))%R).
    { unfold X, Y, crossP, crossR, lineP. ring. }
    split.
    + apply Rmult_eq_reg_l with (X + Y)%R; [|lra].
      replace ((X + Y) * (u + X / (X + Y) * (IZR (x b) - u)))%R
        with ((X + Y) * u + X * (IZR (x b) - u))%R by (field; lra).
      replace ((X + Y) * (IZR (x e1) + - lineP u v b e1 / (X + Y) * (IZR (x e2) - IZR (x e1))))%R
        with ((X + Y) * IZR (x e1) + - lineP u v b e1 * (IZR (x e2) - IZR (x e1)))%R
        by (field; lra).
      rewrite <- Wx. ring.
    + apply Rmult_eq_reg_l with (X + Y)%R; [|lra].
      replace ((X + Y) * (v + X / (X + Y) * (IZR (y b) - v)))%R
        with ((X + Y) * v + X * (IZR (y b) - v))%R by (field; lra).
      replace ((X + Y) * (IZR (y e1) + - lineP u v b e1 / (X + Y) * (IZR (y e2) - IZR (y e1))))%R
        with ((X + Y) * IZR (y e1) + - lineP u v b e1 * (IZR (y e2) - IZR (y e1)))%R
        by (field; lra).
      rewrite <- Wy. ring.
Qed.

(** ** The fallback, and what the first search finds before it *)

(** Every input point passes [is_inside] on the hull. *)
Lemma hull_contains sort pts p :
  sort_spec sort -> In p pts -> is_inside (snd (convex_hull sort pts)) p = Some true.
Proof.
  intros Hsort Hp. unfold convex_hull.
  destruct (Nat.leb_spec (length pts) 2) as [Hle|Hgt]; cbn [snd].
  - now apply is_inside_small.
  - destruct (Hsort pts) as [Hperm Hsorted].
    apply is_inside_hull_of_sorted; try assumption.
    + rewrite <- (Permutation_length Hperm). lia.
    + now apply (Permutation_in _ Hperm).
Qed.

Lemma inside_all_or_not poly l :
  (exists h, In h l /\ is_inside poly h = Some false) \/
  (forall h, In h l -> is_inside poly h = Some true).
Proof.
  induction l as [|h l IH]; [right; intros ? []|].
  destruct (is_inside_total poly h) as [[|] E].
  - destruct IH as [(h' & Hh & Hf)|IH].
    + left. exists h'. split; [now right|exact Hf].
    + right. intros h' [<-|Hh]; auto.
  - left. exists h. split; [now left|exact E].
Qed.

Lemma inside_or_on_point poly p :
  (forall a b, cyclic_edge poly a b -> 0 <= cross_product a b p) ->
  inside_or_on poly (IZR (x p)) (IZR (y p)).
Proof.
  intros H a b Hab. rewrite crossP_point. apply crossR_nonneg. now apply H.
Qed.

Lemma inside_outside_apart poly p q :
  3 <= size poly -> convex_ccw poly -> distinct_places poly ->
  is_inside poly p = Some true -> is_inside poly q = Some false -> apart p q.
Proof.
  intros Hn Hc Hd Hin Hout [Ex Ey].
  pose proof (proj1 (is_inside_true_iff poly p Hn Hc Hd) Hin) as Hleft.
  destruct (proj1 (is_inside_false_iff poly q Hn Hc Hd) Hout) as (a & b & Hab & Hneg).
  pose proof (Hleft a b Hab) as Hp. rewrite cross_product_eq in *.
  rewrite Ex, Ey in Hp. lia.
Qed.

(** A segment from a point that [is_inside] accepts to a point that it
    rejects shares a point with an edge of the polygon. *)
Lemma exit_shares poly p h :
  3 <= size poly -> convex_ccw poly -> distinct_places poly ->
  is_inside poly p = Some true -> is_inside poly h = Some false ->
  exists e1 e2, cyclic_edge poly e1 e2 /\ segments_share_point p h e1 e2.
Proof.
  intros Hn Hc Hd Hin Hout.
  pose proof (proj1 (is_inside_true_iff poly p Hn Hc Hd) Hin) as Hleft.
  pose proof (proj1 (is_inside_false_iff poly h Hn Hc Hd) Hout) as Hright.
  destruct (exit_edge poly (IZR (x p)) (IZR (y p)) h Hn Hc
              (inside_or_on_point poly p Hleft) Hright) as (e1 & e2 & t & He & Ht & Hon).
  exists e1, e2. split; [exact He|].
  exists (IZR (x p) + t * (IZR (x h) - IZR (x p)))%R,
         (IZR (y p) + t * (IZR (y h) - IZR (y p)))%R.
  split; [|exact Hon]. exists t. repeat split; lra.
Qed.

(** The locator accepts every segment between a point that [is_inside]
    accepts and a point that it rejects, in either direction. *)
Lemma locator_finds_exit poly p h :
  3 <= size poly -> convex_ccw poly -> distinct_places poly ->
  is_inside poly p = Some true -> is_inside poly h = Some false ->
  (exists ids, intersect_segment_convex_poly_log p h poly = Some (Some ids)) /\
  (exists ids, intersect_segment_convex_poly_log h p poly = Some (Some ids)).
Proof.
  intros Hn Hc Hd Hin Hout.
  destruct (exit_shares poly p h Hn Hc Hd Hin Hout) as (e1 & e2 & He & Hs).
  pose proof (inside_outside_apart poly p h Hn Hc Hd Hin Hout) as Hap.
  split.
  - now apply (locator_finds p h poly e1 e2).
  - apply (locator_finds h p poly e1 e2); auto.
    + intros [Ex Ey]. apply Hap. split; congruence.
    + destruct Hs as (u & v & (t & Ht & Eu & Ev) & Hon). exists u, v.
      split; [|exact Hon]. exists (1 - t)%R. split; [lra|].
      split; [rewrite Eu|rewrite Ev]; ring.
Qed.

(** On a hull of at least two vertices the locator accepts a segment as
    soon as [is_inside] answers differently for its two endpoints. *)
Lemma locator_accepts_change sort pts A B :
  sort_spec sort -> 2 <= size (snd (convex_hull sort pts)) ->
  is_inside (snd (convex_hull sort pts)) A <> is_inside (snd (convex_hull sort pts)) B ->
  exists ids, intersect_segment_convex_poly_log A B (snd (convex_hull sort pts)) =
              Some (Some ids).
Proof.
  intros Hsort H2 Hne.
  destruct (Z_lt_le_dec (size (snd (convex_hull sort pts))) 3) as [Hlt|Hge].
  - destruct (snd (convex_hull sort pts)) as [|a [|b [|c l]]] eqn:E;
      try (unfold size in *; cbn [length] in *; lia).
    rewrite locator_two.
    destruct (is_inside_total [a; b] A) as [[|] EA];
      destruct (is_inside_total [a; b] B) as [[|] EB]; try congruence.
    + apply is_inside_pair_iff in EA.
      replace (segments_intersect A B a b) with true; [eauto|].
      symmetry. apply share_point_intersect. exists (IZR (x A)), (IZR (y A)).
      split; [apply on_segment_start|exact EA].
    + apply is_inside_pair_iff in EB.
      replace (segments_intersect A B a b) with true; [eauto|].
      symmetry. apply share_point_intersect. exists (IZR (x B)), (IZR (y B)).
      split; [apply on_segment_end|exact EB].
  - destruct (convex_hull_polygon sort pts Hsort Hge) as [Hc Hd].
    destruct (is_inside_total (snd (convex_hull sort pts)) A) as [[|] EA];
      destruct (is_inside_total (snd (convex_hull sort pts)) B) as [[|] EB];
      try congruence.
    + apply (locator_finds_exit _ A B Hge Hc Hd EA EB).
    + apply (locator_finds_exit _ B A Hge Hc Hd EB EA).
Qed.

(** In a vector holding a point that a test accepts and one that it
    rejects, the answer changes between two consecutive entries. *)
Lemma adjacent_change (f : Point -> bool) :
  forall (l : list Point) p q, In p l -> In q l -> f p = true -> f q = false ->
    exists i A B, vec_at l i = Some A /\ vec_at l (i + 1) = Some B /\ f A <> f B.
Proof.
  induction l as [|a l IH]; intros p q Hp Hq Fp Fq; [destruct Hp|].
  destruct l as [|b l].
  - destruct Hp as [<-|[]]. destruct Hq as [<-|[]]. congruence.
  - destruct (Bool.bool_dec (f a) (f b)) as [Eab|Nab].
    + assert (Hp' : exists p', In p' (b :: l) /\ f p' = true).
      { destruct Hp as [<-|Hp]; [exists b; split; [now left|congruence]|eauto]. }
      assert (Hq' : exists q', In q' (b :: l) /\ f q' = false).
      { destruct Hq as [<-|Hq]; [exists b; split; [now left|congruence]|eauto]. }
      destruct Hp' as (p' & Hp' & Fp'). destruct Hq' as (q' & Hq' & Fq').
      destruct (IH p' q' Hp' Hq' Fp' Fq') as (i & A & B & HA & HB & Hne).
      pose proof (vec_at_range _ _ _ HA) as Ri.
      exists (i + 1), A, B. split; [|split; [|exact Hne]].
      * rewrite vec_at_nth in * by lia.
        replace (Z.to_nat (i + 1)) with (S (Z.to_nat i)) by lia. exact HA.
      * rewrite vec_at_nth in * by lia.
        replace (Z.to_nat (i + 1 + 1)) with (S (Z.to_nat (i + 1))) by lia. exact HB.
    + exists 0, a, b. repeat split; auto.
Qed.

(** The first heuristic search already reports whenever [is_inside], on a
    hull of at least two vertices, accepts one point of the set and
    rejects another: two such points are adjacent in the angular order,
    and adjacent points are tested (offset 1). *)
Lemma run_h_finds_change sort angular rnd pts hull_pts flag p q :
  sort_spec sort -> angular_spec angular ->
  2 <= size (snd (convex_hull sort hull_pts)) ->
  In p pts -> In q pts ->
  is_inside (snd (convex_hull sort hull_pts)) p = Some true ->
  is_inside (snd (convex_hull sort hull_pts)) q = Some false ->
  exists line, run_h angular rnd pts (snd (convex_hull sort hull_pts)) flag = Some (Some line).
Proof.
  intros Hsort Hang H2 Hp Hq Hin Hout.
  set (H := snd (convex_hull sort hull_pts)) in *.
  assert (Hne : pts <> []) by (intros ->; destruct Hp).
  destruct (run_h_total angular rnd pts H flag Hang Hne) as [[line|] E]; [eauto|exfalso].
  set (f := fun a => match is_inside H a with Some true => true | _ => false end).
  destruct (adjacent_change f (angular H pts) p q) as (i & A & B & HA & HB & Hne').
  - apply (Permutation_in _ (Hang H pts) Hp).
  - apply (Permutation_in _ (Hang H pts) Hq).
  - unfold f. now rewrite Hin.
  - unfold f. now rewrite Hout.
  - assert (Hch : is_inside H A <> is_inside H B).
    { intros Eq. apply Hne'. unfold f. now rewrite Eq. }
    destruct (locator_accepts_change sort hull_pts A B Hsort H2 Hch) as [ids Hloc].
    fold H in Hloc.
    pose proof (vec_at_range _ _ _ HA) as RA. pose proof (vec_at_range _ _ _ HB) as RB.
    assert (Hs : size (angular H pts) = size pts).
    { unfold size. now rewrite <- (Permutation_length (Hang H pts)). }
    rewrite (run_h_near_pairs angular rnd pts H flag i (i + 1) A B Hang E HA HB) in Hloc.
    + discriminate.
    + lia.
    + replace (i + 1 - i) with 1 by ring.
      pose proof (Z.mod_pos_bound 1 (size pts) ltac:(lia)) as Hb.
      destruct (Z.eq_dec (size pts) 1) as [E1|]; [lia|].
      rewrite Z.mod_small by lia. lia.
Qed.





(** ** Further properties: overlap, and small inputs *)

(** Barycentric coordinates in the triangle [(v0, vl, vr)]. *)
Lemma bary_total v0 vl vr p :
  cross_product v0 vl vr =
  cross_product vl vr p + - cross_product v0 vr p + cross_product v0 vl p.
Proof. rewrite !cross_product_eq. ring. Qed.

Lemma bary_x v0 vl vr p :
  cross_product v0 vl vr * x p =
  cross_product vl vr p * x v0 + - cross_product v0 vr p * x vl + cross_product v0 vl p * x vr.
Proof. rewrite !cross_product_eq. ring. Qed.

Lemma bary_y v0 vl vr p :
  cross_product v0 vl vr * y p =
  cross_product vl vr p * y v0 + - cross_product v0 vr p * y vl + cross_product v0 vl p * y vr.
Proof. rewrite !cross_product_eq. ring. Qed.

Lemma bary_line a b v0 vl vr p :
  cross_product v0 vl vr * cross_product a b p =
  cross_product vl vr p * cross_product a b v0 +
  - cross_product v0 vr p * cross_product a b vl +
  cross_product v0 vl p * cross_product a b vr.
Proof. rewrite !cross_product_eq. ring. Qed.

Lemma on_segment_of_weights c c' p (w w' : Z) :
  0 <= w -> 0 <= w' -> 0 < w + w' ->
  (w + w') * x p = w * x c + w' * x c' ->
  (w + w') * y p = w * y c + w' * y c' ->
  on_segment c c' (IZR (x p)) (IZR (y p)).
Proof.
  intros Hw Hw' Hs Ex Ey.
  apply IZR_le in Hw, Hw'. apply IZR_lt in Hs. rewrite plus_IZR in Hs.
  apply (f_equal IZR) in Ex, Ey.
  rewrite plus_IZR, !mult_IZR, plus_IZR in Ex, Ey.
  exists (IZR w' / (IZR w + IZR w'))%R. split; [split|split].
  - apply Rmult_le_pos; [lra|left; now apply Rinv_0_lt_compat].
  - apply Rmult_le_reg_r with (IZR w + IZR w')%R; [lra|].
    unfold Rdiv. rewrite Rmult_assoc, Rinv_l by lra. lra.
  - apply Rmult_eq_reg_l with (IZR w + IZR w')%R; [|lra].
    replace ((IZR w + IZR w') *
             (IZR (x c) + IZR w' / (IZR w + IZR w') * (IZR (x c') - IZR (x c))))%R
      with ((IZR w + IZR w') * IZR (x c) + IZR w' * (IZR (x c') - IZR (x c)))%R
      by (field; lra).
    rewrite Ex. ring.
  - apply Rmult_eq_reg_l with (IZR w + IZR w')%R; [|lra].
    replace ((IZR w + IZR w') *
             (IZR (y c) + IZR w' / (IZR w + IZR w') * (IZR (y c') - IZR (y c))))%R
      with ((IZR w + IZR w') * IZR (y c) + IZR w' * (IZR (y c') - IZR (y c)))%R
      by (field; lra).
    rewrite Ey. ring.
Qed.

Lemma zero_of_sum3 (a b c : Z) : 0 <= a -> 0 <= b -> 0 <= c -> 0 = a + b + c ->
  a = 0 /\ b = 0 /\ c = 0.
Proof. lia. Qed.

Lemma product_zero (w c : Z) : w * c = 0 -> 0 < w -> c = 0.
Proof. intros H Hw. apply Z.mul_eq_0 in H. lia. Qed.

(** A point of a strictly convex polygon on a line that has the polygon on
    its left lies on an edge. *)
Lemma boundary_contact poly h0 h1 :
  3 <= size poly -> convex_ccw poly -> distinct_places poly ->
  apart h0 h1 -> is_inside poly h0 = Some true ->
  (forall v, In v poly -> 0 <= cross_product h0 h1 v) ->
  exists e1 e2, cyclic_edge poly e1 e2 /\ on_segment e1 e2 (IZR (x h0)) (IZR (y h0)).
Proof.
  intros Hn Hconv Hd Hap Hin Hleft.
  destruct (is_inside_fan poly h0 Hn Hin)
    as (l & v0 & vl & vr & Hl1 & Hl2 & E0 & Vl & Vr & C0 & Cr & Cl).
  pose proof (fan_triangle_positive poly l v0 vl vr Hn Hconv Hd Hl1 E0 Vl Vr) as HT.
  pose proof (bary_total v0 vl vr h0) as Bt.
  pose proof (bary_x v0 vl vr h0) as Bx. pose proof (bary_y v0 vl vr h0) as By.
  pose proof (bary_line h0 h1 v0 vl vr h0) as Bl.
  replace (cross_product h0 h1 h0) with 0 in Bl by (rewrite cross_product_eq; ring).
  rewrite Z.mul_0_r in Bl.
  set (w0 := cross_product vl vr h0) in *.
  set (wl := - cross_product v0 vr h0) in *.
  set (wr := cross_product v0 vl h0) in *.
  assert (Hwl : 0 <= wl) by (unfold wl; lia).
  pose proof (Hleft v0 (vec_at_In _ _ _ E0)) as P0.
  pose proof (Hleft vl (vec_at_In _ _ _ Vl)) as Pl.
  pose proof (Hleft vr (vec_at_In _ _ _ Vr)) as Pr.
  destruct (zero_of_sum3 _ _ _ (Z.mul_nonneg_nonneg _ _ C0 P0)
              (Z.mul_nonneg_nonneg _ _ Hwl Pl) (Z.mul_nonneg_nonneg _ _ Cl Pr) Bl)
    as (Z0 & Zl & Zr).
  destruct (vertex_neighbours poly 0 v0 Hn E0) as (v1 & vlast & E1 & Elast & _).
  rewrite next_index in E1 by lia. rewrite prev_index in Elast by lia.
  destruct (Z.eqb_spec (0 + 1) (size poly)) as [|_]; [lia|].
  cbn [Z.eqb] in Elast. change (0 + 1) with 1 in E1.
  assert (Hadj : forall k w, vec_at poly k = Some w -> cross_product h0 h1 w = 0 ->
                   cross_product h0 h1 v0 = 0 -> k <> 0 -> k = 1 \/ k = size poly - 1).
  { intros k w Hk Hw Hv0 Hk0.
    destruct (supporting_adjacent h0 h1 poly Hn Hconv Hd Hap 0 v0 v1 vlast E0) with (k := k) (w := w)
      as [E|E]; auto.
    - rewrite next_index by lia. destruct (Z.eqb_spec (0 + 1) (size poly)); [lia|exact E1].
    - rewrite prev_index by lia. exact Elast.
    - left. rewrite next_index in E by lia.
      destruct (Z.eqb_spec (0 + 1) (size poly)); lia.
    - right. rewrite prev_index in E by lia. exact E. }
  destruct (Z.eq_dec w0 0) as [W0|W0].
  - (* on the edge (vl, vr) *)
    exists vl, vr. split; [now apply (cyclic_edge_succ poly l)|].
    apply (on_segment_of_weights vl vr h0 wl wr); lia.
  - assert (H0 : cross_product h0 h1 v0 = 0) by (apply (product_zero w0); lia).
    destruct (Z.eq_dec wl 0) as [Wl|Wl].
    + destruct (Z.eq_dec wr 0) as [Wr|Wr].
      * (* the vertex v0 *)
        exists v0, v1. split; [now apply (cyclic_edge_succ poly 0)|].
        apply (on_segment_of_weights v0 v1 h0 w0 0); lia.
      * (* on the closing edge *)
        assert (Hr : cross_product h0 h1 vr = 0) by (apply (product_zero wr); lia).
        destruct (Hadj (l + 1) vr Vr Hr H0 ltac:(lia)) as [E|E]; [lia|].
        rewrite E in Vr.
        exists vr, v0. split; [apply cyclic_edge_close; auto; lia|].
        apply (on_segment_of_weights vr v0 h0 wr w0); lia.
    + assert (Hl : cross_product h0 h1 vl = 0) by (apply (product_zero wl); lia).
      destruct (Z.eq_dec wr 0) as [Wr|Wr].
      * destruct (Hadj l vl Vl Hl H0 ltac:(lia)) as [E|E]; [|lia].
        rewrite E in Vl.
        exists v0, vl. split; [now apply (cyclic_edge_succ poly 0)|].
        apply (on_segment_of_weights v0 vl h0 w0 wl); lia.
      * exfalso.
        assert (Hr : cross_product h0 h1 vr = 0) by (apply (product_zero wr); lia).
        pose proof (collinear_on_line h0 h1 v0 vl vr Hap H0 Hl Hr). lia.
Qed.



(** A segment between two input points stays inside the hull. *)
Lemma segment_inside sort pts a b u v :
  sort_spec sort -> 3 <= size (snd (convex_hull sort pts)) ->
  In a pts -> In b pts -> on_segment a b u v ->
  inside_or_on (snd (convex_hull sort pts)) u v.
Proof.
  intros Hsort Hn Ha Hb Hon e1 e2 He.
  destruct (convex_hull_polygon sort pts Hsort Hn) as [Hc Hd].
  pose proof (proj1 (is_inside_true_iff _ a Hn Hc Hd) (hull_contains sort pts a Hsort Ha)
                e1 e2 He) as La.
  pose proof (proj1 (is_inside_true_iff _ b Hn Hc Hd) (hull_contains sort pts b Hsort Hb)
                e1 e2 He) as Lb.
  destruct (crossR_on_segment e1 e2 a b u v Hon) as (s & Hs & Es).
  unfold crossP. rewrite Es. apply Rconvex_nonneg; [exact Hs| |]; now apply crossR_nonneg.
Qed.

(** A segment that passes inside the polygon and ends outside it is
    accepted by the locator. *)
Lemma exit_pair poly u v p1 p2 :
  3 <= size poly -> convex_ccw poly -> distinct_places poly ->
  inside_or_on poly u v -> on_segment p1 p2 u v ->
  is_inside poly p1 = Some false ->
  apart p1 p2 /\
  exists ids, intersect_segment_convex_poly_log p1 p2 poly = Some (Some ids).
Proof.
  intros Hn Hc Hd Hin Hon Hout.
  pose proof (proj1 (is_inside_false_iff poly p1 Hn Hc Hd) Hout) as Hright.
  assert (Hap : apart p1 p2).
  { intros [Ex Ey]. destruct Hright as (a & b & Hab & Hneg).
    pose proof (Hin a b Hab) as Hz.
    destruct Hon as (t & Ht & Eu & Ev). rewrite <- Ex in Eu. rewrite <- Ey in Ev.
    replace u with (IZR (x p1)) in Hz by (rewrite Eu; ring).
    replace v with (IZR (y p1)) in Hz by (rewrite Ev; ring).
    rewrite crossP_point, <- IZR_cross in Hz. apply le_IZR in Hz. lia. }
  split; [exact Hap|].
  destruct (exit_edge poly u v p1 Hn Hc Hin Hright) as (e1 & e2 & t & He & Ht & Hw).
  apply (locator_finds p1 p2 poly e1 e2); auto.
  exists (u + t * (IZR (x p1) - u))%R, (v + t * (IZR (y p1) - v))%R.
  split; [|exact Hw].
  destruct Hon as (s & Hs & Eu & Ev).
  exists ((1 - t) * s)%R. split; [split|split].
  - apply Rmult_le_pos; lra.
  - replace 1%R with (1 * 1)%R by ring. apply Rmult_le_compat; lra.
  - rewrite Eu. ring.
  - rewrite Ev. ring.
Qed.

(** Either some pair of points of the set is accepted against the polygon,
    or the whole set is inside it. *)
Lemma accepted_or_inside poly pts p1 p2 u v :
  3 <= size poly -> convex_ccw poly -> distinct_places poly ->
  In p1 pts -> In p2 pts -> on_segment p1 p2 u v -> inside_or_on poly u v ->
  pair_accepted pts poly \/ (forall p, In p pts -> is_inside poly p = Some true).
Proof.
  intros Hn Hc Hd H1 H2 Hon Hin.
  destruct (inside_all_or_not poly pts) as [(q & Hq & Hout)|Hall]; [left|now right].
  destruct (is_inside_total poly p1) as [[|] E1].
  - destruct (locator_finds_exit poly p1 q Hn Hc Hd E1 Hout) as [[ids Hloc] _].
    exists p1, q, ids. repeat split; auto.
    now apply (inside_outside_apart poly).
  - destruct (exit_pair poly u v p1 p2 Hn Hc Hd Hin Hon E1) as [Hap [ids Hloc]].
    exists p1, p2, ids. repeat split; auto.
Qed.

(** Two sets inside each other's hull: the first edge of the hull of [P]
    is accepted against the hull of [R]. *)
Lemma nested_accepted sort P R :
  sort_spec sort ->
  3 <= size (snd (convex_hull sort P)) -> 3 <= size (snd (convex_hull sort R)) ->
  (forall p, In p P -> is_inside (snd (convex_hull sort R)) p = Some true) ->
  (forall r, In r R -> is_inside (snd (convex_hull sort P)) r = Some true) ->
  pair_accepted P (snd (convex_hull sort R)).
Proof.
  intros Hsort HnP HnR HPin HRin.
  destruct (convex_hull_polygon sort P Hsort HnP) as [HcP HdP].
  destruct (convex_hull_polygon sort R Hsort HnR) as [HcR HdR].
  destruct (vec_at_some (snd (convex_hull sort P)) 0 ltac:(lia)) as [h0 E0].
  destruct (vec_at_some (snd (convex_hull sort P)) (0 + 1) ltac:(lia)) as [h1 E1].
  pose proof (cyclic_edge_succ _ 0 h0 h1 E0 E1) as Hedge.
  assert (H2P : 2 <= size (snd (convex_hull sort P))) by lia.
  pose proof (edge_apart _ h0 h1 H2P HdP Hedge) as Hap.
  pose proof (convex_hull_snd_sub sort P h0 Hsort (vec_at_In _ _ _ E0)) as I0.
  pose proof (convex_hull_snd_sub sort P h1 Hsort (vec_at_In _ _ _ E1)) as I1.
  destruct (boundary_contact (snd (convex_hull sort R)) h0 h1 HnR HcR HdR Hap (HPin h0 I0))
    as (e1 & e2 & He & Hon).
  { intros v Hv. apply (proj1 (is_inside_true_iff _ v HnP HcP HdP)); [|exact Hedge].
    apply HRin. now apply (convex_hull_snd_sub sort R v Hsort). }
  destruct (locator_finds h0 h1 _ e1 e2 HnR HcR HdR Hap He) as [ids Hloc].
  { exists (IZR (x h0)), (IZR (y h0)). split; [apply on_segment_start|exact Hon]. }
  exists h0, h1, ids. repeat split; auto.
Qed.

(** X15. Partial overlap is always found, for inputs of any size and
    whatever the random offsets: when [is_inside], on the hull of [R] (of
    at least two vertices), accepts one point of [P] and rejects another,
    or the same with [P] and [R] exchanged, [solve] prints a crossing.  Two
    such points are adjacent in the angular order of the heuristic search,
    which tests adjacent points. *)
Theorem solve_finds_overlap (sort : list Point -> list Point)
    (angular : list Point -> list Point -> list Point) (rand : nat -> Z)
    (P R : list Point) :
  sort_spec sort -> angular_spec angular ->
  (2 <= size (snd (convex_hull sort R)) /\ partly_inside P (snd (convex_hull sort R))) \/
  (2 <= size (snd (convex_hull sort P)) /\ partly_inside R (snd (convex_hull sort P))) ->
  exists line, solve sort angular rand P R = Some (Some line).
Proof.
  intros Hsort Hang Hcase. rewrite solve_unfold. cbv zeta.
  pose proof (convex_hull_fst_perm sort P Hsort) as PP.
  pose proof (convex_hull_fst_perm sort R Hsort) as PR.
  destruct Hcase as [(H2 & p & q & Hp & Hq & Hin & Hout)|(H2 & p & q & Hp & Hq & Hin & Hout)].
  - destruct (run_h_finds_change sort angular (map rand (seq 0 10))
                (fst (convex_hull sort P)) R true p q Hsort Hang H2
                (Permutation_in _ PP Hp) (Permutation_in _ PP Hq) Hin Hout) as [line ->].
    eauto.
  - assert (HP' : fst (convex_hull sort P) <> []).
    { intros E0. apply (proj2 (perm_nil_iff _ _ PP)) in E0. subst P.
      rewrite convex_hull_nil in H2. cbn in H2. lia. }
    destruct (run_h_total angular (map rand (seq 0 10)) _
                (snd (convex_hull sort R)) true Hang HP') as [[l|] ->]; [eauto|].
    destruct (run_h_finds_change sort angular (map rand (seq 10 10))
                (fst (convex_hull sort R)) P false p q Hsort Hang H2
                (Permutation_in _ PR Hp) (Permutation_in _ PR Hq) Hin Hout) as [line ->].
    eauto.
Qed.

Lemma solve_finds_overlap_witness :
  exists line,
    solve insertion_sort exact_angular (fun _ => 0)
      (read_points [(2, 2); (6, 2)])
      (read_points [(0, 0); (4, 0); (4, 4); (0, 4)]) = Some (Some line).
Proof.
  apply (solve_finds_overlap insertion_sort exact_angular (fun _ => 0)
           (read_points [(2, 2); (6, 2)])
           (read_points [(0, 0); (4, 0); (4, 4); (0, 4)])
           insertion_sort_spec exact_angular_spec).
  left. split; [vm_compute; discriminate|].
  exists (mkPoint 2 2 1), (mkPoint 6 2 2).
  split; [vm_compute; tauto|]. split; [vm_compute; tauto|].
  split; vm_compute; reflexivity.
Defined.

(** X16. For two sets of at most 11 points, neither of them collinear,
    [solve] decides: it prints a crossing exactly when some segment
    between two points of [P] shares a point with some segment between two
    points of [R], and -1 exactly when there is no such pair of segments. *)
Theorem solve_decides_small (sort : list Point -> list Point)
    (angular : list Point -> list Point -> list Point) (rand : nat -> Z)
    (P R : list Point) :
  sort_spec sort -> angular_spec angular ->
  size P <= 11 -> size R <= 11 ->
  3 <= size (snd (convex_hull sort P)) -> 3 <= size (snd (convex_hull sort R)) ->
  ((exists line, solve sort angular rand P R = Some (Some line)) <->
   (exists p1 p2 q1 q2, In p1 P /\ In p2 P /\ In q1 R /\ In q2 R /\
      segments_share_point p1 p2 q1 q2)) /\
  (solve sort angular rand P R = Some None <-> sets_apart P R).
Proof.
  intros Hsort Hang HsP HsR HnP HnR.
  destruct (convex_hull_polygon sort P Hsort HnP) as [HcP HdP].
  destruct (convex_hull_polygon sort R Hsort HnR) as [HcR HdR].
  assert (HPne : P <> []).
  { intros ->. rewrite convex_hull_nil in HnP. cbn in HnP. lia. }
  assert (HRne : R <> []).
  { intros ->. rewrite convex_hull_nil in HnR. cbn in HnR. lia. }
  assert (Hfind : forall p1 p2 q1 q2, In p1 P -> In p2 P -> In q1 R -> In q2 R ->
            segments_share_point p1 p2 q1 q2 ->
            exists line, solve sort angular rand P R = Some (Some line)).
  { intros p1 p2 q1 q2 H1 H2 H3 H4 (u & v & Hp & Hq).
    apply (solve_small_accepts sort angular rand P R Hsort Hang).
    pose proof (segment_inside sort R q1 q2 u v Hsort HnR H3 H4 Hq) as InR.
    pose proof (segment_inside sort P p1 p2 u v Hsort HnP H1 H2 Hp) as InP.
    destruct (accepted_or_inside _ P p1 p2 u v HnR HcR HdR H1 H2 Hp InR) as [Hacc|HPin].
    { left. now split. }
    destruct (accepted_or_inside _ R q1 q2 u v HnP HcP HdP H3 H4 Hq InP) as [Hacc|HRin].
    { right. now repeat split. }
    left. split; [exact HsP|]. now apply nested_accepted. }
  assert (Hsound : forall line, solve sort angular rand P R = Some (Some line) ->
            exists p1 p2 q1 q2, In p1 P /\ In p2 P /\ In q1 R /\ In q2 R /\
              segments_share_point p1 p2 q1 q2).
  { intros line E. apply solve_line_crossing in E; [|exact Hsort|exact Hang].
    destruct E as (p1 & p2 & q1 & q2 & H1 & H2 & H3 & H4 & _ & Hs).
    exists p1, p2, q1, q2. auto. }
  destruct (solve_total sort angular rand P R Hsort Hang HPne HRne) as [r Er].
  split; split.
  - intros [line E]. now apply (Hsound line).
  - intros (p1 & p2 & q1 & q2 & H1 & H2 & H3 & H4 & Hs). now apply (Hfind p1 p2 q1 q2).
  - intros E p1 p2 q1 q2 H1 H2 H3 H4 Hs.
    destruct (Hfind p1 p2 q1 q2 H1 H2 H3 H4 Hs) as [line E']. congruence.
  - intros Hap. destruct r as [line|]; [|exact Er]. exfalso.
    destruct (Hsound line Er) as (p1 & p2 & q1 & q2 & H1 & H2 & H3 & H4 & Hs).
    exact (Hap p1 p2 q1 q2 H1 H2 H3 H4 Hs).
Qed.

Lemma solve_decides_small_witness :
  exists line,
    solve insertion_sort exact_angular (fun _ => 0)
      (read_points [(0, 0); (4, 0); (0, 4)])
      (read_points [(1, 1); (6, 1); (1, 6)]) = Some (Some line).
Proof.
  apply (solve_decides_small insertion_sort exact_angular (fun _ => 0)
           (read_points [(0, 0); (4, 0); (0, 4)])
           (read_points [(1, 1); (6, 1); (1, 6)])
           insertion_sort_spec exact_angular_spec).
  - vm_compute. discriminate.
  - vm_compute. discriminate.
  - vm_compute. discriminate.
  - vm_compute. discriminate.
  - exists (mkPoint 4 0 2), (mkPoint 0 4 3), (mkPoint 1 1 1), (mkPoint 6 1 2).
    split; [vm_compute; tauto|]. split; [vm_compute; tauto|].
    split; [vm_compute; tauto|]. split; [vm_compute; tauto|].
    apply intersect_share_point. vm_compute. reflexivity.
Defined.
